(** * imdb-trakt-sync: the syncer (pkg/syncer/syncer.go)

    A shallow embedding of the hydration -> diff -> apply engine of
    [pkg/syncer/syncer.go], and the properties its specification states.

    The two remote services are reached through client interfaces; a call to
    one of them is an event of an interaction tree ([Prog]), answered by an
    arbitrary, stateful environment ([exec]).  Go's [(value, error)] results
    are kept as pairs, [return err] is [Throw], [logger.Fatal] is [Fatal] and
    a nil dereference is [Panic]. *)

From Stdlib Require Import ZArith Ascii String.
From stdpp Require Import gmap strings list.

Local Open Scope Z_scope.
Local Open Scope string_scope.
Local Open Scope list_scope.

(** ** Errors *)

(** Go error values: [*client.ApiError] carries the HTTP status code,
    [*MissingEnvironmentVariablesError] the missing variables, and
    [fmt.Errorf("...: %w", err)] wraps [err] under a message. *)
Inductive error : Type :=
| ApiError (StatusCode : Z)
| MissingEnvironmentVariablesError (variables : list string)
| OtherError (msg : string)
| Wrapped (msg : string) (err : error).

Definition StatusNotFound : Z := 404.

(** [errors.As(err, &apiError)]: the first [*client.ApiError] of the chain. *)
Fixpoint errorsAs (err : error) : option Z :=
  match err with
  | ApiError code => Some code
  | Wrapped _ inner => errorsAs inner
  | MissingEnvironmentVariablesError _ | OtherError _ => None
  end.

(** [errors.As(err, &apiError) && apiError.StatusCode == http.StatusNotFound] *)
Definition isNotFound (err : error) : bool :=
  match errorsAs err with
  | Some code => bool_decide (code = StatusNotFound)
  | None => false
  end.

(** ** Data model (package entities, as the syncer uses it)

    The structs are declared in package entities, outside [syncer.go]; the
    records hold the fields the syncer reads and writes, with the types
    its code gives them: a [*int] or [*string] is an [option], a struct held
    by value is a record held by value (so the update scan of [syncRatings],
    which ranges over the mirror items by value, stamps its own copy). *)

(** [time.Time]: an instant together with the location it is shown in. *)
Module Time.
Record t : Type := mk { instant : Z; location : string }.
Definition UTC (x : t) : t := {| instant := instant x; location := "UTC" |}.
End Time.

(** Modelled from the spec: the type tag of a source item (movie, show,
    episode); the syncer itself never reads it. *)
Inductive ItemKind : Type := KindMovie | KindShow | KindEpisode.

Module ImdbItem.
Record t : Type := mk {
  Id : string;
  TitleType : ItemKind;
  Rating : option Z;
  RatingDate : Time.t }.
End ImdbItem.

Module TraktIds.
Record t : Type := mk { Imdb : string }.
End TraktIds.

Module TraktItemSpec.
Record t : Type := mk {
  Ids : TraktIds.t;
  Rating : option Z;
  RatedAt : option string }.
Definition zero : t := {| Ids := TraktIds.mk ""; Rating := None; RatedAt := None |}.
End TraktItemSpec.

Module TraktItem.
Record t : Type := mk {
  Type_ : string;
  Movie : TraktItemSpec.t;
  Show : TraktItemSpec.t;
  Episode : TraktItemSpec.t;
  Rating : Z }.
End TraktItem.

(** Modelled from the spec: the three constants are declared in package
    entities, outside [syncer.go]; the spec names the tags movie, show,
    episode. *)
Definition TraktItemTypeMovie : string := "movie".
Definition TraktItemTypeShow : string := "show".
Definition TraktItemTypeEpisode : string := "episode".

Module TraktListIds.
Record t : Type := mk { Slug : string }.
End TraktListIds.

Module TraktList.
Record t : Type := mk { Name : string; Ids : TraktListIds.t }.
End TraktList.

Module DataPair.
Record t : Type := mk {
  ImdbList : list ImdbItem.t;
  ImdbListId : string;
  ImdbListName : string;
  TraktList : list TraktItem.t;
  TraktListId : string;
  IsWatchlist : bool }.
(** Go's zero value of the struct. *)
Definition zero : t :=
  {| ImdbList := []; ImdbListId := ""; ImdbListName := "";
     TraktList := []; TraktListId := ""; IsWatchlist := false |}.
Definition withTraktList (dp : t) (l : list TraktItem.t) : t :=
  {| ImdbList := ImdbList dp; ImdbListId := ImdbListId dp;
     ImdbListName := ImdbListName dp; TraktList := l;
     TraktListId := TraktListId dp; IsWatchlist := IsWatchlist dp |}.
End DataPair.

(** [type user struct] *)
Record user : Type := mkUser {
  lists : list DataPair.t;
  ratings : DataPair.t }.

#[global] Instance TraktIds_eq_dec : EqDecision TraktIds.t.
Proof. solve_decision. Defined.
#[global] Instance TraktItemSpec_eq_dec : EqDecision TraktItemSpec.t.
Proof. solve_decision. Defined.
#[global] Instance TraktItem_eq_dec : EqDecision TraktItem.t.
Proof. solve_decision. Defined.

(** ** The client interfaces and the logger, as events *)

Record ImdbConfig : Type := mkImdbConfig {
  CookieAtMain : string; CookieUbidMain : string; UserId : string }.

Record TraktConfig : Type := mkTraktConfig {
  ClientId : string; ClientSecret : string; Username : string; Password : string }.

Inductive call : Type :=
(* constructors of the clients *)
| NewImdbClient (cfg : ImdbConfig)
| NewTraktClient (cfg : TraktConfig)
(* client.ImdbClientInterface *)
| ImdbListsScrape
| ImdbWatchlistGet
| ImdbListItemsGet (listId : string)
| ImdbRatingsGet
(* client.TraktClientInterface *)
| TraktWatchlistItemsGet
| TraktListItemsGet (listId : string)
| TraktListAdd (listId listName : string)
| TraktWatchlistItemsAdd (items : list TraktItem.t)
| TraktWatchlistItemsRemove (items : list TraktItem.t)
| TraktListItemsAdd (listId : string) (items : list TraktItem.t)
| TraktListItemsRemove (listId : string) (items : list TraktItem.t)
| TraktListsGet
| TraktListRemove (slug : string)
| TraktRatingsGet
| TraktRatingsAdd (items : list TraktItem.t)
| TraktRatingsRemove (items : list TraktItem.t)
| TraktHistoryGet (itemType itemId : string)
| TraktHistoryAdd (items : list TraktItem.t)
| TraktHistoryRemove (items : list TraktItem.t)
(* logger.Warn, logger.Info *)
| LoggerWarn (msg : string) (err : error)
| LoggerInfo (msg : string).

(** What a call returns, in Go's shape: the values, then the error. *)
Definition answer (c : call) : Type :=
  match c with
  | NewImdbClient _ | NewTraktClient _ => option error
  | ImdbListsScrape => (list DataPair.t * option error)%type
  | ImdbWatchlistGet | ImdbListItemsGet _ =>
      (option string * list ImdbItem.t * option error)%type
  | ImdbRatingsGet => (list ImdbItem.t * option error)%type
  | TraktWatchlistItemsGet | TraktListItemsGet _ | TraktRatingsGet
  | TraktHistoryGet _ _ => (list TraktItem.t * option error)%type
  | TraktListsGet => (list TraktList.t * option error)%type
  | TraktListAdd _ _ | TraktWatchlistItemsAdd _ | TraktWatchlistItemsRemove _
  | TraktListItemsAdd _ _ | TraktListItemsRemove _ _ | TraktListRemove _
  | TraktRatingsAdd _ | TraktRatingsRemove _ | TraktHistoryAdd _
  | TraktHistoryRemove _ => option error
  | LoggerWarn _ _ | LoggerInfo _ => unit
  end.

(** ** Programs over the clients *)

Inductive Prog (A : Type) : Type :=
| Ret (a : A)
| Throw (err : error)
| Fatal (msg : string) (err : error)
| Panic
| Do (c : call) (k : answer c -> Prog A).

Arguments Ret {A} a.
Arguments Throw {A} err.
Arguments Fatal {A} msg err.
Arguments Panic {A}.
Arguments Do {A} c k.

Fixpoint bind {A B : Type} (p : Prog A) (f : A -> Prog B) : Prog B :=
  match p with
  | Ret a => f a
  | Throw err => Throw err
  | Fatal msg err => Fatal msg err
  | Panic => Panic
  | Do c k => Do c (fun r => bind (k r) f)
  end.

#[global] Instance Prog_ret : MRet Prog := @Ret.
#[global] Instance Prog_bind : MBind Prog := fun A B f p => bind p f.

(** The error a callee returns, handed to the caller's [if err != nil]. *)
Fixpoint onError {A : Type} (h : error -> Prog A) (p : Prog A) : Prog A :=
  match p with
  | Ret a => Ret a
  | Throw err => h err
  | Fatal msg err => Fatal msg err
  | Panic => Panic
  | Do c k => Do c (fun r => onError h (k r))
  end.

(** [return fmt.Errorf(msg + ": %w", err)] *)
Definition wrapError {A : Type} (msg : string) : Prog A -> Prog A :=
  onError (fun err => Throw (Wrapped msg err)).

(** [logger.Fatal(msg, zap.Error(err))] *)
Definition orFatal {A : Type} (msg : string) : Prog A -> Prog A :=
  onError (fun err => Fatal msg err).

Definition perform (c : call) : Prog (answer c) := Do c Ret.

(** [if err != nil { return fmt.Errorf(msg + ": %w", err) }] *)
Definition check (msg : string) (err : option error) : Prog unit :=
  match err with
  | Some e => Throw (Wrapped msg e)
  | None => Ret tt
  end.

(** ** Running a program against an environment *)

Inductive outcome (A : Type) : Type :=
| Returned (a : A)
| Failed (err : error)
| Exited (msg : string) (err : error)
| Panicked.

Arguments Returned {A} a.
Arguments Failed {A} err.
Arguments Exited {A} msg err.
Arguments Panicked {A}.

Record event : Type := Ev { ev_call : call; ev_answer : answer ev_call }.

Section Exec.
Context {World : Type}.
Variable respond : forall c : call, World -> answer c * World.

Fixpoint exec {A : Type} (p : Prog A) (w : World)
  : outcome A * World * list event :=
  match p with
  | Ret a => (Returned a, w, [])
  | Throw err => (Failed err, w, [])
  | Fatal msg err => (Exited msg err, w, [])
  | Panic => (Panicked, w, [])
  | Do c k =>
      let '(r, w1) := respond c w in
      let '(o, w2, tr) := exec (k r) w1 in
      (o, w2, Ev c r :: tr)
  end.
End Exec.

(** ** Go's [strings] functions the syncer calls *)

(** [strings.Split(s, sep)] for a separator of one byte. *)
Fixpoint Split (s : string) (sep : ascii) : list string :=
  match s with
  | EmptyString => [EmptyString]
  | String c rest =>
      if Ascii.eqb c sep then EmptyString :: Split rest sep
      else match Split rest sep with
           | [] => [String c EmptyString]
           | piece :: pieces => String c piece :: pieces
           end
  end.

(** [strings.ReplaceAll(s, old, new)] for an [old] of one byte. *)
Fixpoint ReplaceAll (s : string) (old : ascii) (new : string) : string :=
  match s with
  | EmptyString => EmptyString
  | String c rest =>
      if Ascii.eqb c old then new +:+ ReplaceAll rest old new
      else String c (ReplaceAll rest old new)
  end.

(** [strings.Join(pieces, sep)], the inverse of [Split]. *)
Fixpoint Join (pieces : list string) (sep : ascii) : string :=
  match pieces with
  | [] => EmptyString
  | [piece] => piece
  | piece :: rest => piece +:+ String sep (Join rest sep)
  end.

(** The bytes of a Go string. *)
Fixpoint bytes (s : string) : list ascii :=
  match s with
  | EmptyString => []
  | String c rest => c :: bytes rest
  end.

(** ** The process environment *)

Definition EnvVarKeyCookieAtMain : string := "IMDB_COOKIE_AT_MAIN".
Definition EnvVarKeyCookieUbidMain : string := "IMDB_COOKIE_UBID_MAIN".
Definition EnvVarKeyListIds : string := "IMDB_LIST_IDS".
Definition EnvVarKeyUserId : string := "IMDB_USER_ID".
Definition EnvVarKeyClientId : string := "TRAKT_CLIENT_ID".
Definition EnvVarKeyClientSecret : string := "TRAKT_CLIENT_SECRET".
Definition EnvVarKeyPassword : string := "TRAKT_PASSWORD".
Definition EnvVarKeyUsername : string := "TRAKT_USERNAME".

(** [os.LookupEnv] and [os.Getenv] over the environment of the process. *)
Definition LookupEnv (env : gmap string string) (key : string) : option string :=
  env !! key.

Definition Getenv (env : gmap string string) (key : string) : string :=
  default "" (env !! key).

Definition requiredEnvVarKeys : list string :=
  [ EnvVarKeyListIds; EnvVarKeyCookieAtMain; EnvVarKeyCookieUbidMain;
    EnvVarKeyClientId; EnvVarKeyClientSecret; EnvVarKeyUsername;
    EnvVarKeyPassword ].

(** The loop of [validateEnvVars]: append every key that is not set. *)
Fixpoint missingLoop (env : gmap string string) (keys : list string)
    (missingEnvVars : list string) : list string :=
  match keys with
  | [] => missingEnvVars
  | key :: rest =>
      match LookupEnv env key with
      | Some _ => missingLoop env rest missingEnvVars
      | None => missingLoop env rest (missingEnvVars ++ [key])
      end
  end.

Definition validateEnvVars (env : gmap string string) : option error :=
  let missingEnvVars := missingLoop env requiredEnvVarKeys [] in
  if bool_decide (0 < length missingEnvVars)%nat
  then Some (MissingEnvironmentVariablesError missingEnvVars)
  else None.

(** Every input the run configuration reads: the required ones and the
    account identifier [IMDB_USER_ID], which [NewSyncer] reads as well. *)
Definition recognisedEnvVarKeys : list string :=
  [ EnvVarKeyCookieAtMain; EnvVarKeyCookieUbidMain; EnvVarKeyListIds;
    EnvVarKeyUserId; EnvVarKeyClientId; EnvVarKeyClientSecret;
    EnvVarKeyPassword; EnvVarKeyUsername ].

(** ** Items and the diff (package entities) *)

(** Modelled from the spec: [TraktItem.GetItemId] is a method of package
    entities, outside [syncer.go].  An item yields its cross-service identifier according to its
    type tag (movie, show, episode); an item that cannot yield one is a
    data-shape error. *)
Definition GetItemId (item : TraktItem.t) : error + string :=
  if bool_decide (TraktItem.Type_ item = TraktItemTypeMovie)
  then inr (TraktIds.Imdb (TraktItemSpec.Ids (TraktItem.Movie item)))
  else if bool_decide (TraktItem.Type_ item = TraktItemTypeShow)
  then inr (TraktIds.Imdb (TraktItemSpec.Ids (TraktItem.Show item)))
  else if bool_decide (TraktItem.Type_ item = TraktItemTypeEpisode)
  then inr (TraktIds.Imdb (TraktItemSpec.Ids (TraktItem.Episode item)))
  else inl (OtherError ("unknown trakt item type " +:+ TraktItem.Type_ item)).

(** The key of a mirror item, when it has one. *)
Definition traktKey (item : TraktItem.t) : option string :=
  match GetItemId item with
  | inr itemId => Some itemId
  | inl _ => None
  end.

Definition imdbKey (item : ImdbItem.t) : option string :=
  Some (ImdbItem.Id item).

Section Syncer.
(** [time.Time.String], Go's rendering of a time in its location. *)
Variable Time_String : Time.t -> string.
(** [client.FormatTraktListName], the mirror list id of a display name. *)
Variable FormatTraktListName : string -> string.

(** Modelled from the spec: the mirror-side form of a source item, which
    [Difference] builds in package entities, outside [syncer.go].  It is
    the same item: same type tag, same
    key, and, in a ratings context, the source's rating with its rating
    date in UTC string form. *)
Definition asTraktItem (item : ImdbItem.t) : TraktItem.t :=
  let tiSpec :=
    {| TraktItemSpec.Ids := TraktIds.mk (ImdbItem.Id item);
       TraktItemSpec.Rating := ImdbItem.Rating item;
       TraktItemSpec.RatedAt :=
         match ImdbItem.Rating item with
         | Some _ => Some (Time_String (Time.UTC (ImdbItem.RatingDate item)))
         | None => None
         end |} in
  match ImdbItem.TitleType item with
  | KindMovie =>
      TraktItem.mk TraktItemTypeMovie tiSpec TraktItemSpec.zero TraktItemSpec.zero 0
  | KindShow =>
      TraktItem.mk TraktItemTypeShow TraktItemSpec.zero tiSpec TraktItemSpec.zero 0
  | KindEpisode =>
      TraktItem.mk TraktItemTypeEpisode TraktItemSpec.zero TraktItemSpec.zero tiSpec 0
  end.

(** Modelled from the spec: [DataPair.Difference] is a method of package
    entities, outside [syncer.go].  Under "add" it holds the items of the source collection whose
    key is absent from the keys of the mirror collection, under "remove"
    the items of the mirror collection whose key is absent from the keys of
    the source collection. *)
Definition Difference (dp : DataPair.t) : gmap string (list TraktItem.t) :=
  let S := DataPair.ImdbList dp in
  let M := DataPair.TraktList dp in
  {[ "add" := asTraktItem <$> filter (fun x => imdbKey x ∉ traktKey <$> M) S;
     "remove" := filter (fun y => traktKey y ∉ imdbKey <$> S) M ]}.

(** *** NewSyncer *)

(** [entities.DataPair{ImdbListId: strings.ReplaceAll(imdbListId, " ", "")}] *)
Definition seedPair (imdbListId : string) : DataPair.t :=
  {| DataPair.ImdbList := [];
     DataPair.ImdbListId := ReplaceAll imdbListId " " "";
     DataPair.ImdbListName := "";
     DataPair.TraktList := [];
     DataPair.TraktListId := "";
     DataPair.IsWatchlist := false |}.

(** The pairings seeded from [IMDB_LIST_IDS] (the last block of
    [NewSyncer]). *)
Definition seedLists (imdbListIdsString : string) : list DataPair.t :=
  if bool_decide (imdbListIdsString ≠ "")
     && bool_decide (imdbListIdsString ≠ "all")
  then seedPair <$> Split imdbListIdsString ","
  else [].

Definition NewSyncer (env : gmap string string) : Prog user :=
  _ ← match validateEnvVars env with
      | Some err => Fatal "failure validating environment variables" err
      | None => Ret tt
      end;
  err ← perform (NewImdbClient
           {| CookieAtMain := Getenv env EnvVarKeyCookieAtMain;
              CookieUbidMain := Getenv env EnvVarKeyCookieUbidMain;
              UserId := Getenv env EnvVarKeyUserId |});
  _ ← match err with
      | Some e => Fatal "failure initialising imdb client" e
      | None => Ret tt
      end;
  err ← perform (NewTraktClient
           {| ClientId := Getenv env EnvVarKeyClientId;
              ClientSecret := Getenv env EnvVarKeyClientSecret;
              Username := Getenv env EnvVarKeyUsername;
              Password := Getenv env EnvVarKeyPassword |});
  _ ← match err with
      | Some e => Fatal "failure initialising trakt client" e
      | None => Ret tt
      end;
  Ret {| lists := seedLists (Getenv env EnvVarKeyListIds);
         ratings := DataPair.zero |}.

(** *** cleanupLists *)

(** The loop of [cleanupLists]: [lists] is the slice allocated with the
    length of the input, [n] the number of slots filled so far. *)
Fixpoint cleanupLoop (todo : list DataPair.t)
    (uniqueListNames : gmap string bool)
    (lists : list DataPair.t) (n : nat) : Prog (list DataPair.t) :=
  match todo with
  | [] => Ret (take n lists)
  | list :: rest =>
      match uniqueListNames !! DataPair.ImdbListId list with
      | Some _ => cleanupLoop rest uniqueListNames lists n
      | None =>
          let uniqueListNames :=
            <[DataPair.ImdbListId list := true]> uniqueListNames in
          '(imdbListName, imdbList, err) ←
            perform (ImdbListItemsGet (DataPair.ImdbListId list));
          match err with
          | Some e =>
              match errorsAs e with
              | Some code =>
                  if bool_decide (code = StatusNotFound)
                  then
                    _ ← perform (LoggerWarn
                          "silencing not found error while cleaning up user provided imdb lists"
                          (ApiError code));
                    cleanupLoop rest uniqueListNames lists n
                  else Throw (Wrapped
                         "unexpected error while cleaning up user provided imdb lists" e)
              | None => Throw (Wrapped
                         "unexpected error while cleaning up user provided imdb lists" e)
              end
          | None =>
              match imdbListName with
              | None => Panic
              | Some name =>
                  if bool_decide (n < length lists)%nat
                  then cleanupLoop rest uniqueListNames
                         (<[n := {| DataPair.ImdbList := imdbList;
                                    DataPair.ImdbListId := DataPair.ImdbListId list;
                                    DataPair.ImdbListName := name;
                                    DataPair.TraktList := [];
                                    DataPair.TraktListId := FormatTraktListName name;
                                    DataPair.IsWatchlist := false |}]> lists)
                         (S n)
                  else Panic
              end
          end
      end
  end.

Definition cleanupLists (userLists : list DataPair.t) : Prog (list DataPair.t) :=
  cleanupLoop userLists ∅ (replicate (length userLists) DataPair.zero) 0.

(** *** hydrate *)

(** The body of the loop over [s.user.lists]: fill in the mirror side of
    one pairing. *)
Definition hydrateList (currentList : DataPair.t) : Prog DataPair.t :=
  if DataPair.IsWatchlist currentList then
    '(traktWatchlist, err) ← perform TraktWatchlistItemsGet;
    _ ← check "failure fetching trakt watchlist" err;
    Ret (DataPair.withTraktList currentList traktWatchlist)
  else
    '(traktList, err) ← perform (TraktListItemsGet (DataPair.TraktListId currentList));
    match err with
    | Some e =>
        match errorsAs e with
        | Some code =>
            if bool_decide (code = StatusNotFound)
            then
              _ ← perform (LoggerWarn
                    "silencing not found error while hydrating the syncer with trakt lists"
                    (ApiError code));
              err ← perform (TraktListAdd (DataPair.TraktListId currentList)
                                          (DataPair.ImdbListName currentList));
              _ ← check ("failure creating trakt list "
                         +:+ DataPair.TraktListId currentList) err;
              Ret (DataPair.withTraktList currentList traktList)
            else Throw (Wrapped
                   ("unexpected error while fetching contents of trakt list "
                    +:+ DataPair.TraktListId currentList) e)
        | None => Throw (Wrapped
                   ("unexpected error while fetching contents of trakt list "
                    +:+ DataPair.TraktListId currentList) e)
        end
    | None => Ret (DataPair.withTraktList currentList traktList)
    end.

(** [for i := range s.user.lists { currentList := &s.user.lists[i]; ... }]:
    every pairing is updated in place, in order. *)
Fixpoint hydrateLists (userLists : list DataPair.t) : Prog (list DataPair.t) :=
  match userLists with
  | [] => Ret []
  | currentList :: rest =>
      hydrated ← hydrateList currentList;
      others ← hydrateLists rest;
      Ret (hydrated :: others)
  end.

(** The pairing [hydrate] appends for the watchlist. *)
Definition watchlistPair (watchlistId : string) (imdbList : list ImdbItem.t)
  : DataPair.t :=
  {| DataPair.ImdbList := imdbList;
     DataPair.ImdbListId := watchlistId;
     DataPair.ImdbListName := "watchlist";
     DataPair.TraktList := [];
     DataPair.TraktListId := "";
     DataPair.IsWatchlist := true |}.

(** The first block of [hydrate]: the pairings of the explicit identifiers,
    or else those of the full discovery. *)
Definition sourceLists (u : user) : Prog (list DataPair.t) :=
  if bool_decide (length (lists u) ≠ 0%nat)
  then wrapError "failure cleaning up imdb lists" (cleanupLists (lists u))
  else
    '(dps, err) ← perform ImdbListsScrape;
    _ ← check "failure scraping imdb lists" err;
    Ret dps.

Definition hydrate (u : user) : Prog user :=
  userLists ← sourceLists u;
  '(watchlistId, imdbList, err) ← perform ImdbWatchlistGet;
  _ ← check "failure fetching imdb watchlist" err;
  match watchlistId with
  | None => Panic
  | Some watchlistId =>
      userLists ← hydrateLists (userLists ++ [watchlistPair watchlistId imdbList]);
      '(imdbRatings, err) ← perform ImdbRatingsGet;
      _ ← check "failure fetching imdb ratings" err;
      '(traktRatings, err) ← perform TraktRatingsGet;
      _ ← check "failure fetching trakt ratings" err;
      Ret {| lists := userLists;
             ratings :=
               {| DataPair.ImdbList := imdbRatings;
                  DataPair.ImdbListId := "";
                  DataPair.ImdbListName := "";
                  DataPair.TraktList := traktRatings;
                  DataPair.TraktListId := "";
                  DataPair.IsWatchlist := false |} |}
  end.

(** *** contains *)

Fixpoint contains (dps : list DataPair.t) (traktListName : string) : bool :=
  match dps with
  | [] => false
  | dp :: rest =>
      if bool_decide (DataPair.ImdbListName dp = traktListName) then true
      else contains rest traktListName
  end.

(** *** syncLists *)

(** The body of the loop over [s.user.lists]: apply the diff of one pairing. *)
Definition syncList (list : DataPair.t) : Prog unit :=
  let diff := Difference list in
  if DataPair.IsWatchlist list then
    _ ← (if bool_decide (0 < length (diff !!! "add"))%nat then
           err ← perform (TraktWatchlistItemsAdd (diff !!! "add"));
           check "failure adding items to trakt watchlist" err
         else Ret tt);
    if bool_decide (0 < length (diff !!! "remove"))%nat then
      err ← perform (TraktWatchlistItemsRemove (diff !!! "remove"));
      check "failure removing items from trakt watchlist" err
    else Ret tt
  else
    _ ← (if bool_decide (0 < length (diff !!! "add"))%nat then
           err ← perform (TraktListItemsAdd (DataPair.TraktListId list) (diff !!! "add"));
           check ("failure adding items to trakt list "
                  +:+ DataPair.TraktListId list) err
         else Ret tt);
    if bool_decide (0 < length (diff !!! "remove"))%nat then
      err ← perform (TraktListItemsRemove (DataPair.TraktListId list) (diff !!! "remove"));
      check ("failure removing items from trakt list "
             +:+ DataPair.TraktListId list) err
    else Ret tt.

Fixpoint syncListsLoop (userLists : list DataPair.t) : Prog unit :=
  match userLists with
  | [] => Ret tt
  | list :: rest => _ ← syncList list; syncListsLoop rest
  end.

(** The loop that removes the lists that only exist in Trakt. *)
Fixpoint removeOrphans (userLists : list DataPair.t)
    (traktLists : list TraktList.t) : Prog unit :=
  match traktLists with
  | [] => Ret tt
  | traktList :: rest =>
      if negb (contains userLists (TraktList.Name traktList)) then
        err ← perform (TraktListRemove (TraktListIds.Slug (TraktList.Ids traktList)));
        _ ← check ("failure removing trakt list " +:+ TraktList.Name traktList) err;
        removeOrphans userLists rest
      else removeOrphans userLists rest
  end.

Definition syncLists (u : user) : Prog unit :=
  _ ← syncListsLoop (lists u);
  '(traktLists, err) ← perform TraktListsGet;
  _ ← check "failure fetching trakt lists" err;
  removeOrphans (lists u) traktLists.

(** *** syncRatings *)

(** The loop over [diff["add"]] that collects [historyToAdd]. *)
Fixpoint historyAddScan (items : list TraktItem.t)
    (historyToAdd : list TraktItem.t) : Prog (list TraktItem.t) :=
  match items with
  | [] => Ret historyToAdd
  | item :: rest =>
      match GetItemId item with
      | inl e => Throw (Wrapped "failure fetching trakt item id" e)
      | inr traktItemId =>
          '(history, err) ← perform (TraktHistoryGet (TraktItem.Type_ item) traktItemId);
          _ ← check ("failure fetching trakt history for "
                     +:+ TraktItem.Type_ item +:+ " " +:+ traktItemId) err;
          if bool_decide (0 < length history)%nat
          then historyAddScan rest historyToAdd
          else historyAddScan rest (historyToAdd ++ [item])
      end
  end.

(** The loop over [diff["remove"]] that collects [historyToRemove]. *)
Fixpoint historyRemoveScan (items : list TraktItem.t)
    (historyToRemove : list TraktItem.t) : Prog (list TraktItem.t) :=
  match items with
  | [] => Ret historyToRemove
  | item :: rest =>
      match GetItemId item with
      | inl e => Throw (Wrapped "failure fetching trakt item id" e)
      | inr traktItemId =>
          '(history, err) ← perform (TraktHistoryGet (TraktItem.Type_ item) traktItemId);
          _ ← check ("failure fetching trakt history for "
                     +:+ TraktItem.Type_ item +:+ " " +:+ traktItemId) err;
          if bool_decide (length history = 0)%nat
          then historyRemoveScan rest historyToRemove
          else historyRemoveScan rest (historyToRemove ++ [item])
      end
  end.

(** [if len(diff["add"]) > 0 { ... }] *)
Definition syncRatingsAdd (toAdd : list TraktItem.t) : Prog unit :=
  if bool_decide (0 < length toAdd)%nat then
    err ← perform (TraktRatingsAdd toAdd);
    _ ← check "failure adding trakt ratings" err;
    historyToAdd ← historyAddScan toAdd [];
    if bool_decide (0 < length historyToAdd)%nat then
      err ← perform (TraktHistoryAdd historyToAdd);
      check "failure adding trakt history" err
    else Ret tt
  else Ret tt.

(** [if len(diff["remove"]) > 0 { ... }] *)
Definition syncRatingsRemove (toRemove : list TraktItem.t) : Prog unit :=
  if bool_decide (0 < length toRemove)%nat then
    err ← perform (TraktRatingsRemove toRemove);
    _ ← check "failure removing trakt ratings" err;
    historyToRemove ← historyRemoveScan toRemove [];
    if bool_decide (0 < length historyToRemove)%nat then
      err ← perform (TraktHistoryRemove historyToRemove);
      check "failure removing trakt history" err
    else Ret tt
  else Ret tt.

(** [spec.Rating = imdbItem.Rating; spec.RatedAt = &ratedAt] *)
Definition stamp (spec : TraktItemSpec.t) (rating : Z) (ratedAt : string)
  : TraktItemSpec.t :=
  {| TraktItemSpec.Ids := TraktItemSpec.Ids spec;
     TraktItemSpec.Rating := Some rating;
     TraktItemSpec.RatedAt := Some ratedAt |}.

Definition stampMovie (item : TraktItem.t) (rating : Z) (ratedAt : string)
  : TraktItem.t :=
  TraktItem.mk (TraktItem.Type_ item)
    (stamp (TraktItem.Movie item) rating ratedAt)
    (TraktItem.Show item) (TraktItem.Episode item) (TraktItem.Rating item).

Definition stampShow (item : TraktItem.t) (rating : Z) (ratedAt : string)
  : TraktItem.t :=
  TraktItem.mk (TraktItem.Type_ item) (TraktItem.Movie item)
    (stamp (TraktItem.Show item) rating ratedAt)
    (TraktItem.Episode item) (TraktItem.Rating item).

Definition stampEpisode (item : TraktItem.t) (rating : Z) (ratedAt : string)
  : TraktItem.t :=
  TraktItem.mk (TraktItem.Type_ item) (TraktItem.Movie item)
    (TraktItem.Show item)
    (stamp (TraktItem.Episode item) rating ratedAt) (TraktItem.Rating item).

(** The body of the inner loop of the update scan, for a source item whose
    rating is [rating]: the [switch traktItem.Type]. *)
Definition updateStep (imdbItem : ImdbItem.t) (rating : Z)
    (ratingsToUpdate : list TraktItem.t) (traktItem : TraktItem.t)
  : list TraktItem.t :=
  let ratedAt := Time_String (Time.UTC (ImdbItem.RatingDate imdbItem)) in
  if bool_decide (TraktItem.Type_ traktItem = TraktItemTypeMovie) then
    if bool_decide (ImdbItem.Id imdbItem
                    = TraktIds.Imdb (TraktItemSpec.Ids (TraktItem.Movie traktItem)))
       && bool_decide (rating ≠ TraktItem.Rating traktItem)
    then ratingsToUpdate ++ [stampMovie traktItem rating ratedAt]
    else ratingsToUpdate
  else if bool_decide (TraktItem.Type_ traktItem = TraktItemTypeShow) then
    if bool_decide (ImdbItem.Id imdbItem
                    = TraktIds.Imdb (TraktItemSpec.Ids (TraktItem.Show traktItem)))
       && bool_decide (rating ≠ TraktItem.Rating traktItem)
    then ratingsToUpdate ++ [stampShow traktItem rating ratedAt]
    else ratingsToUpdate
  else if bool_decide (TraktItem.Type_ traktItem = TraktItemTypeEpisode) then
    if bool_decide (ImdbItem.Id imdbItem
                    = TraktIds.Imdb (TraktItemSpec.Ids (TraktItem.Episode traktItem)))
       && bool_decide (rating ≠ TraktItem.Rating traktItem)
    then ratingsToUpdate ++ [stampEpisode traktItem rating ratedAt]
    else ratingsToUpdate
  else ratingsToUpdate.

(** The update scan: every source item that has a rating, against every
    mirror item. *)
Fixpoint updateScan (imdbList : list ImdbItem.t) (traktList : list TraktItem.t)
    (ratingsToUpdate : list TraktItem.t) : list TraktItem.t :=
  match imdbList with
  | [] => ratingsToUpdate
  | imdbItem :: rest =>
      match ImdbItem.Rating imdbItem with
      | Some rating =>
          updateScan rest traktList
            (foldl (updateStep imdbItem rating) ratingsToUpdate traktList)
      | None => updateScan rest traktList ratingsToUpdate
      end
  end.

Definition syncRatingsUpdate (userRatings : DataPair.t) : Prog unit :=
  let ratingsToUpdate :=
    updateScan (DataPair.ImdbList userRatings) (DataPair.TraktList userRatings) [] in
  if bool_decide (0 < length ratingsToUpdate)%nat then
    err ← perform (TraktRatingsAdd ratingsToUpdate);
    check "failure updating trakt ratings" err
  else Ret tt.

Definition syncRatings (u : user) : Prog unit :=
  let diff := Difference (ratings u) in
  _ ← syncRatingsAdd (diff !!! "add");
  _ ← syncRatingsRemove (diff !!! "remove");
  syncRatingsUpdate (ratings u).

(** *** Run *)

Definition Run (u : user) : Prog unit :=
  u ← orFatal "failure hydrating imdb client" (hydrate u);
  _ ← orFatal "failure syncing lists" (syncLists u);
  _ ← orFatal "failure syncing ratings" (syncRatings u);
  perform (LoggerInfo "successfully synced trakt with imdb").

(** ** Observations on programs and traces *)

(** Every call the program can issue, whatever the answers, satisfies [P]. *)
Inductive onlyCalls (P : call -> Prop) {A : Type} : Prog A -> Prop :=
| only_Ret (a : A) : onlyCalls P (Ret a)
| only_Throw (err : error) : onlyCalls P (Throw err)
| only_Fatal (msg : string) (err : error) : onlyCalls P (Fatal msg err)
| only_Panic : onlyCalls P Panic
| only_Do (c : call) (k : answer c -> Prog A) :
    P c -> (forall r, onlyCalls P (k r)) -> onlyCalls P (Do c k).

(** The mirror item [item] after the update scan has stamped the entry of
    its own type with [rating] and [ratedAt]. *)
Definition stampItem (item : TraktItem.t) (rating : Z) (ratedAt : string)
  : TraktItem.t :=
  if bool_decide (TraktItem.Type_ item = TraktItemTypeMovie)
  then stampMovie item rating ratedAt
  else if bool_decide (TraktItem.Type_ item = TraktItemTypeShow)
  then stampShow item rating ratedAt
  else if bool_decide (TraktItem.Type_ item = TraktItemTypeEpisode)
  then stampEpisode item rating ratedAt
  else item.

(** The entry of a mirror item that its type tag selects. *)
Definition itemSpec (item : TraktItem.t) : option TraktItemSpec.t :=
  if bool_decide (TraktItem.Type_ item = TraktItemTypeMovie)
  then Some (TraktItem.Movie item)
  else if bool_decide (TraktItem.Type_ item = TraktItemTypeShow)
  then Some (TraktItem.Show item)
  else if bool_decide (TraktItem.Type_ item = TraktItemTypeEpisode)
  then Some (TraktItem.Episode item)
  else None.

(** The updates one rated source item causes, as the spec words them: the
    mirror items of the same key whose rating differs, stamped. *)
Definition updatesFor (imdbItem : ImdbItem.t) (rating : Z)
    (traktList : list TraktItem.t) : list TraktItem.t :=
  (fun traktItem =>
     stampItem traktItem rating
       (Time_String (Time.UTC (ImdbItem.RatingDate imdbItem))))
  <$> filter (fun traktItem =>
                traktKey traktItem = imdbKey imdbItem
                /\ rating <> TraktItem.Rating traktItem) traktList.

(** The history query for [item], answered [history] without an error. *)
Definition historyQuery (item : TraktItem.t) (history : list TraktItem.t) : event :=
  Ev (TraktHistoryGet (TraktItem.Type_ item)
        (match GetItemId item with inr itemId => itemId | inl _ => "" end))
     (history, None).

(** One history query per item, in order, answered by [histories]. *)
Fixpoint historyQueries (items : list TraktItem.t)
    (histories : list (list TraktItem.t)) : list event :=
  match items, histories with
  | item :: items', history :: histories' =>
      historyQuery item history :: historyQueries items' histories'
  | _, _ => []
  end.

(** The items whose history query answered no entry. *)
Fixpoint unwatched (items : list TraktItem.t)
    (histories : list (list TraktItem.t)) : list TraktItem.t :=
  match items, histories with
  | item :: items', history :: histories' =>
      if decide (history = []) then item :: unwatched items' histories'
      else unwatched items' histories'
  | _, _ => []
  end.

(** The slugs of the [ListRemove] calls of a trace, in order. *)
Definition deletedSlugs (tr : list event) : list string :=
  omap (fun ev => match ev_call ev with
                  | TraktListRemove slug => Some slug
                  | _ => None
                  end) tr.

Definition slugOf (traktList : TraktList.t) : string :=
  TraktListIds.Slug (TraktList.Ids traktList).

(** The orphans, as the spec words them: the mirror lists whose display
    name matches the display name of no pairing. *)
Definition orphans (pairings : list DataPair.t)
    (traktLists : list TraktList.t) : list TraktList.t :=
  filter (fun traktList =>
            TraktList.Name traktList ∉ DataPair.ImdbListName <$> pairings)
         traktLists.

(** The successful [ListRemove] call for a mirror list. *)
Definition listRemoved (traktList : TraktList.t) : event :=
  Ev (TraktListRemove (slugOf traktList)) None.

(** The identifiers of [ids] in the order of their first occurrence, each
    once, those of [seen] left out. *)
Fixpoint dedup (seen : list string) (ids : list string) : list string :=
  match ids with
  | [] => []
  | id :: rest =>
      if decide (id ∈ seen) then dedup seen rest
      else id :: dedup (id :: seen) rest
  end.

Definition firstOccurrences (ids : list string) : list string := dedup [] ids.

(** The identifiers of the [ListItemsGet] calls to the source, in order. *)
Definition fetchedIds (tr : list event) : list string :=
  omap (fun ev => match ev_call ev with
                  | ImdbListItemsGet listId => Some listId
                  | _ => None
                  end) tr.

(** The error a [ListItemsGet] call to the source was answered with. *)
Definition fetchError (ev : event) : option error :=
  match ev with
  | Ev c r =>
      match c as c0 return answer c0 -> option error with
      | ImdbListItemsGet _ => fun r => r.2
      | _ => fun _ => None
      end r
  end.

(** The pairing of a [ListItemsGet] call to the source that found the
    list. *)
Definition foundPairing (ev : event) : option DataPair.t :=
  match ev with
  | Ev c r =>
      match c as c0 return answer c0 -> option DataPair.t with
      | ImdbListItemsGet listId => fun r =>
          match r with
          | (Some name, imdbList, None) =>
              Some {| DataPair.ImdbList := imdbList;
                      DataPair.ImdbListId := listId;
                      DataPair.ImdbListName := name;
                      DataPair.TraktList := [];
                      DataPair.TraktListId := FormatTraktListName name;
                      DataPair.IsWatchlist := false |}
          | _ => None
          end
      | _ => fun _ => None
      end r
  end.

Definition foundPairings (tr : list event) : list DataPair.t :=
  omap foundPairing tr.

(** The error [cleanupLists] returns for a fetch error [e] that is not a
    not-found. *)
Definition cleanupFailure (e : error) : error :=
  Wrapped "unexpected error while cleaning up user provided imdb lists" e.

(** The outcome with its returned value mapped through [f]. *)
Definition outcome_map {A B : Type} (f : A -> B) (o : outcome A) : outcome B :=
  match o with
  | Returned a => Returned (f a)
  | Failed e => Failed e
  | Exited m e => Exited m e
  | Panicked => Panicked
  end.

(** The calls that delete no mirror list. *)
Definition notListRemove (c : call) : Prop :=
  forall slug, c <> TraktListRemove slug.


(** ** A small remote, for the examples *)

(** What the two services hold.  Reads are answered from it, a list that is
    not there with a not-found error (status 404); writes are
    acknowledged. *)
Record Remote : Type := mkRemote {
  imdb_lists : list (string * (string * list ImdbItem.t));
  imdb_watchlist : list ImdbItem.t;
  imdb_ratings : list ImdbItem.t;
  trakt_lists : list (string * (string * list TraktItem.t));
  trakt_watchlist : list TraktItem.t;
  trakt_ratings : list TraktItem.t;
  trakt_history : list (string * string) }.

Fixpoint lookupList {A : Type} (id : string) (l : list (string * A)) : option A :=
  match l with
  | [] => None
  | (id', a) :: rest => if bool_decide (id' = id) then Some a else lookupList id rest
  end.

Definition remoteAnswer (r : Remote) (c : call) : answer c :=
  match c return answer c with
  | NewImdbClient _ | NewTraktClient _ => None
  | ImdbListsScrape =>
      ((fun '(id, (name, items)) =>
          {| DataPair.ImdbList := items; DataPair.ImdbListId := id;
             DataPair.ImdbListName := name; DataPair.TraktList := [];
             DataPair.TraktListId := name; DataPair.IsWatchlist := false |})
       <$> imdb_lists r, None)
  | ImdbWatchlistGet => (Some "ls000000001", imdb_watchlist r, None)
  | ImdbListItemsGet listId =>
      match lookupList listId (imdb_lists r) with
      | Some (name, items) => (Some name, items, None)
      | None => (None, [], Some (ApiError 404))
      end
  | ImdbRatingsGet => (imdb_ratings r, None)
  | TraktWatchlistItemsGet => (trakt_watchlist r, None)
  | TraktListItemsGet listId =>
      match lookupList listId (trakt_lists r) with
      | Some (_, items) => (items, None)
      | None => ([], Some (ApiError 404))
      end
  | TraktListsGet =>
      ((fun '(id, (name, _)) => TraktList.mk name (TraktListIds.mk id))
       <$> trakt_lists r, None)
  | TraktRatingsGet => (trakt_ratings r, None)
  | TraktHistoryGet itemType itemId =>
      (if bool_decide ((itemType, itemId) ∈ trakt_history r)
       then [TraktItem.mk itemType TraktItemSpec.zero TraktItemSpec.zero
               TraktItemSpec.zero 0]
       else [], None)
  | TraktListAdd _ _ | TraktWatchlistItemsAdd _ | TraktWatchlistItemsRemove _
  | TraktListItemsAdd _ _ | TraktListItemsRemove _ _ | TraktListRemove _
  | TraktRatingsAdd _ | TraktRatingsRemove _ | TraktHistoryAdd _
  | TraktHistoryRemove _ => None
  | LoggerWarn _ _ | LoggerInfo _ => tt
  end.

Definition remoteRespond (c : call) (r : Remote) : answer c * Remote :=
  (remoteAnswer r c, r).

(** A remote whose mirror refuses every fetch of a list with status 500. *)
Definition brokenRespond (c : call) (r : Remote) : answer c * Remote :=
  match c return answer c * Remote with
  | TraktListItemsGet _ => (([], Some (ApiError 500)), r)
  | c => (remoteAnswer r c, r)
  end.

Definition exampleTimeString (t : Time.t) : string := Time.location t.
Definition exampleFormat (name : string) : string := name.

Definition movie (id : string) (rating : option Z) : ImdbItem.t :=
  {| ImdbItem.Id := id; ImdbItem.TitleType := KindMovie;
     ImdbItem.Rating := rating;
     ImdbItem.RatingDate := Time.mk 1700000000 "Europe/Sofia" |}.

Definition mirrorMovie (id : string) (rating : Z) : TraktItem.t :=
  {| TraktItem.Type_ := TraktItemTypeMovie;
     TraktItem.Movie := {| TraktItemSpec.Ids := TraktIds.mk id;
                           TraktItemSpec.Rating := None;
                           TraktItemSpec.RatedAt := None |};
     TraktItem.Show := TraktItemSpec.zero;
     TraktItem.Episode := TraktItemSpec.zero;
     TraktItem.Rating := rating |}.

(** Two source lists, "A" and "B"; the mirror has "b" (for "B") and a list
    "old" that no source list matches, and a list named "watchlist". *)
Definition exampleRemote : Remote :=
  {| imdb_lists := [("A", ("a", [movie "tt1" None]));
                      ("B", ("b", [movie "tt2" None]))];
     imdb_watchlist := [movie "tt3" None];
     imdb_ratings := [movie "tt1" (Some 9); movie "tt4" (Some 7);
                       movie "tt5" (Some 6)];
     trakt_lists := [("b", ("b", [mirrorMovie "tt9" 0]));
                     ("old", ("old", []));
                     ("watchlist", ("watchlist", []))];
     trakt_watchlist := [];
     trakt_ratings := [mirrorMovie "tt1" 8];
     trakt_history := [("movie", "tt5")] |}.

(** The environment with the seven required variables, [IMDB_USER_ID]
    missing. *)
Definition envWithoutUserId : gmap string string :=
  list_to_map [ (EnvVarKeyListIds, "A, A,B");
                (EnvVarKeyCookieAtMain, "at-main");
                (EnvVarKeyCookieUbidMain, "ubid-main");
                (EnvVarKeyClientId, "client-id");
                (EnvVarKeyClientSecret, "client-secret");
                (EnvVarKeyUsername, "username");
                (EnvVarKeyPassword, "password") ].

(** The syncer as [NewSyncer] leaves it for [IMDB_LIST_IDS="A, A,B"]. *)
Definition exampleSeed : user :=
  {| lists := seedLists "A, A,B"; ratings := DataPair.zero |}.

(** The pairings of "A" and "B" as [cleanupLists] returns them. *)
Definition examplePairA : DataPair.t :=
  {| DataPair.ImdbList := [movie "tt1" None]; DataPair.ImdbListId := "A";
     DataPair.ImdbListName := "a"; DataPair.TraktList := [];
     DataPair.TraktListId := "a"; DataPair.IsWatchlist := false |}.

Definition examplePairB : DataPair.t :=
  {| DataPair.ImdbList := [movie "tt2" None]; DataPair.ImdbListId := "B";
     DataPair.ImdbListName := "b"; DataPair.TraktList := [];
     DataPair.TraktListId := "b"; DataPair.IsWatchlist := false |}.

(** The syncer as [hydrate] leaves it against [exampleRemote]. *)
Definition exampleHydrated : user :=
  {| lists :=
       [ examplePairA;
         DataPair.withTraktList examplePairB [mirrorMovie "tt9" 0];
         watchlistPair "ls000000001" [movie "tt3" None] ];
     ratings :=
       {| DataPair.ImdbList := imdb_ratings exampleRemote;
          DataPair.ImdbListId := ""; DataPair.ImdbListName := "";
          DataPair.TraktList := trakt_ratings exampleRemote;
          DataPair.TraktListId := ""; DataPair.IsWatchlist := false |} |}.

(** ** How the programs handle the answers *)

(** The error an answer carries, whatever the call. *)
Definition answerError (ev : event) : option error :=
  match ev with
  | Ev c r =>
      match c as c0 return answer c0 -> option error with
      | NewImdbClient _ | NewTraktClient _ => fun r => r
      | ImdbListsScrape => fun r => r.2
      | ImdbWatchlistGet | ImdbListItemsGet _ => fun r => r.2
      | ImdbRatingsGet => fun r => r.2
      | TraktWatchlistItemsGet | TraktListItemsGet _ | TraktRatingsGet
      | TraktHistoryGet _ _ => fun r => r.2
      | TraktListsGet => fun r => r.2
      | TraktListAdd _ _ | TraktWatchlistItemsAdd _ | TraktWatchlistItemsRemove _
      | TraktListItemsAdd _ _ | TraktListItemsRemove _ _ | TraktListRemove _
      | TraktRatingsAdd _ | TraktRatingsRemove _ | TraktHistoryAdd _
      | TraktHistoryRemove _ => fun r => r
      | LoggerWarn _ _ | LoggerInfo _ => fun _ => None
      end r
  end.

(** The two fetches of a list by its identifier, whose not-found error
    [cleanupLists] and [hydrate] silence. *)
Definition isListFetch (c : call) : bool :=
  match c with
  | ImdbListItemsGet _ | TraktListItemsGet _ => true
  | _ => false
  end.

(** The error of an answer, a silenced not-found put aside. *)
Definition fatalError (ev : event) : option error :=
  match answerError ev with
  | Some e => if isListFetch (ev_call ev) && isNotFound e then None else Some e
  | None => None
  end.

(** The calls of the three stages of [Run]. *)
Definition isHydrateCall (c : call) : bool :=
  match c with
  | ImdbListsScrape | ImdbWatchlistGet | ImdbListItemsGet _ | ImdbRatingsGet
  | TraktWatchlistItemsGet | TraktListItemsGet _ | TraktRatingsGet
  | TraktListAdd _ _ | LoggerWarn _ _ => true
  | _ => false
  end.

Definition isListsCall (c : call) : bool :=
  match c with
  | TraktWatchlistItemsAdd _ | TraktWatchlistItemsRemove _
  | TraktListItemsAdd _ _ | TraktListItemsRemove _ _
  | TraktListsGet | TraktListRemove _ => true
  | _ => false
  end.

Definition isRatingsCall (c : call) : bool :=
  match c with
  | TraktRatingsAdd _ | TraktRatingsRemove _ | TraktHistoryGet _ _
  | TraktHistoryAdd _ | TraktHistoryRemove _ => true
  | _ => false
  end.

(** The calls that change nothing on either service. *)
Definition isRead (c : call) : bool :=
  match c with
  | ImdbListsScrape | ImdbWatchlistGet | ImdbListItemsGet _ | ImdbRatingsGet
  | TraktWatchlistItemsGet | TraktListItemsGet _ | TraktRatingsGet
  | TraktListsGet | TraktHistoryGet _ _ | LoggerWarn _ _ | LoggerInfo _ => true
  | _ => false
  end.

(** [outer] is [inner], or wraps it (the chain of [errors.Unwrap]). *)
Fixpoint wraps (outer inner : error) : Prop :=
  outer = inner
  \/ match outer with
     | Wrapped _ err => wraps err inner
     | _ => False
     end.

(** The answers that hold no identifier or name and no error either: the
    pointers [hydrate] and [cleanupLists] dereference. *)
Definition nilAnswer (ev : event) : bool :=
  match ev with
  | Ev c r =>
      match c as c0 return answer c0 -> bool with
      | ImdbWatchlistGet | ImdbListItemsGet _ => fun r =>
          match r with
          | (None, _, None) => true
          | _ => false
          end
      | _ => fun _ => false
      end r
  end.

(** The calls of [Run]: those of its stages, and the closing message. *)
Definition isRunCall (c : call) : bool :=
  isHydrateCall c || isListsCall c || isRatingsCall c
  || match c with LoggerInfo _ => true | _ => false end.

(** The calls of [NewSyncer]. *)
Definition isClientCall (c : call) : bool :=
  match c with
  | NewImdbClient _ | NewTraktClient _ => true
  | _ => false
  end.

(** The messages [Run] and [NewSyncer] exit the process with. *)
Definition runExits : list string :=
  [ "failure hydrating imdb client"; "failure syncing lists";
    "failure syncing ratings" ].

Definition newSyncerExits : list string :=
  [ "failure validating environment variables";
    "failure initialising imdb client"; "failure initialising trakt client" ].

(** A disciplined program: it issues calls of [P] only, it exits the
    process under a message of [exits] only, an answer with an error it
    does not silence makes it stop at once, with an error that wraps the
    one answered, and it panics after a nil answer, and then only. *)
Inductive disciplined (exits : list string) (P : call -> bool) {A : Type}
  : Prog A -> Prop :=
| disc_Ret (a : A) : disciplined exits P (Ret a)
| disc_Throw (err : error) : disciplined exits P (Throw err)
| disc_Fatal (msg : string) (err : error) :
    msg ∈ exits -> disciplined exits P (Fatal msg err)
| disc_Do (c : call) (k : answer c -> Prog A) :
    P c = true ->
    (forall r e, fatalError (Ev c r) = Some e ->
                 exists e', (k r = Throw e'
                             \/ exists msg, msg ∈ exits /\ k r = Fatal msg e')
                            /\ wraps e' e) ->
    (forall r, nilAnswer (Ev c r) = true -> k r = Panic) ->
    (forall r, nilAnswer (Ev c r) = false -> disciplined exits P (k r)) ->
    disciplined exits P (Do c k).

(** The items whose history query answered some entry. *)
Fixpoint watched (items : list TraktItem.t)
    (histories : list (list TraktItem.t)) : list TraktItem.t :=
  match items, histories with
  | item :: items', history :: histories' =>
      if decide (history = []) then watched items' histories'
      else item :: watched items' histories'
  | _, _ => []
  end.

(** The number of commas of a Go string. *)
Definition commas (s : string) : nat :=
  length (filter (fun c => c = ","%char) (bytes s)).

(** The calls of [hydrate] for one pairing, as the hydrated pairing [dp] tells
    them: the fetch that answered its mirror side, the watchlist through
    [WatchlistItemsGet], a list through [ListItemsGet] on its mirror
    identifier; and, when that fetch answered not-found, the warning and the
    creation of the mirror list. *)
Definition hydrationCalls (dp : DataPair.t) (t : list event) : Prop :=
  if DataPair.IsWatchlist dp
  then t = [Ev TraktWatchlistItemsGet (DataPair.TraktList dp, None)]
  else t = [Ev (TraktListItemsGet (DataPair.TraktListId dp))
               (DataPair.TraktList dp, None)]
       \/ exists e,
            errorsAs e = Some StatusNotFound
            /\ t = [ Ev (TraktListItemsGet (DataPair.TraktListId dp))
                        (DataPair.TraktList dp, Some e);
                     Ev (LoggerWarn
                           "silencing not found error while hydrating the syncer with trakt lists"
                           (ApiError StatusNotFound)) tt;
                     Ev (TraktListAdd (DataPair.TraktListId dp)
                                      (DataPair.ImdbListName dp)) None ].

(** The calls that carry no empty batch of items. *)
Definition nonEmptyBatch (c : call) : bool :=
  match c with
  | TraktWatchlistItemsAdd items | TraktWatchlistItemsRemove items
  | TraktListItemsAdd _ items | TraktListItemsRemove _ items
  | TraktRatingsAdd items | TraktRatingsRemove items
  | TraktHistoryAdd items | TraktHistoryRemove items =>
      bool_decide (items <> [])
  | _ => true
  end.

(** The calls [syncLists] issues for one pairing when none fails: the items
    to add, then the items to remove, each in one call to the watchlist or
    to the list of the pairing, an empty batch in no call. *)
Definition appliedDiff (dp : DataPair.t) : list event :=
  let diff := Difference dp in
  match diff !!! "add" with
  | [] => []
  | toAdd =>
      [if DataPair.IsWatchlist dp then Ev (TraktWatchlistItemsAdd toAdd) None
       else Ev (TraktListItemsAdd (DataPair.TraktListId dp) toAdd) None]
  end
  ++ match diff !!! "remove" with
     | [] => []
     | toRemove =>
         [if DataPair.IsWatchlist dp
          then Ev (TraktWatchlistItemsRemove toRemove) None
          else Ev (TraktListItemsRemove (DataPair.TraktListId dp) toRemove) None]
     end.



(** A source that answers the fetch of the watchlist with no identifier and
    no error. *)
Definition nilRespond (c : call) (r : Remote) : answer c * Remote :=
  match c return answer c * Remote with
  | ImdbWatchlistGet => ((None, [], None), r)
  | c => (remoteAnswer r c, r)
  end.

(** Two ratings to remove from the mirror: "tt5" is in the history of
    [exampleRemote], "tt6" is not. *)
Definition exampleToRemove : list TraktItem.t :=
  [mirrorMovie "tt5" 6; mirrorMovie "tt6" 5].

(** * Properties *)

Set Default Proof Using "Type".

(** Propositional goals, the parameters of the section put aside. *)
Local Ltac prop_solver :=
  try clear FormatTraktListName; try clear Time_String; tauto.

(** ** Executions *)

Section Executions.
Context {World : Type}.
Variable respond : forall c : call, World -> answer c * World.

Lemma exec_bind {A B : Type} (p : Prog A) (f : A -> Prog B) (w : World) :
  exec respond (p ≫= f) w =
    match exec respond p w with
    | (Returned a, w1, t1) =>
        let '(o, w2, t2) := exec respond (f a) w1 in (o, w2, t1 ++ t2)
    | (Failed e, w1, t1) => (Failed e, w1, t1)
    | (Exited m e, w1, t1) => (Exited m e, w1, t1)
    | (Panicked, w1, t1) => (Panicked, w1, t1)
    end.
Proof.
  unfold mbind, Prog_bind. revert w.
  induction p as [a|e|m e| |c k IH]; intros w; simpl.
  - destruct (exec respond (f a) w) as [[o w2] t2]. reflexivity.
  - reflexivity.
  - reflexivity.
  - reflexivity.
  - destruct (respond c w) as [r w1]. rewrite IH.
    destruct (exec respond (k r) w1) as [[[a|e|m e|] w2] t1]; try reflexivity.
    destruct (exec respond (f a) w2) as [[o w3] t2]. reflexivity.
Qed.

Lemma exec_onError {A : Type} (h : error -> Prog A) (p : Prog A) (w : World) :
  exec respond (onError h p) w =
    match exec respond p w with
    | (Failed e, w1, t1) =>
        let '(o, w2, t2) := exec respond (h e) w1 in (o, w2, t1 ++ t2)
    | other => other
    end.
Proof.
  revert w. induction p as [a|e|m e| |c k IH]; intros w; simpl.
  - reflexivity.
  - destruct (exec respond (h e) w) as [[o w2] t2]. reflexivity.
  - reflexivity.
  - reflexivity.
  - destruct (respond c w) as [r w1]. rewrite IH.
    destruct (exec respond (k r) w1) as [[[a|e|m e|] w2] t1]; try reflexivity.
    destruct (exec respond (h e) w2) as [[o w3] t2]. reflexivity.
Qed.

Lemma exec_perform (c : call) (w : World) :
  exec respond (perform c) w =
    (Returned (respond c w).1, (respond c w).2, [Ev c (respond c w).1]).
Proof. simpl. destruct (respond c w) as [r w1]. reflexivity. Qed.

Lemma exec_check (msg : string) (err : option error) (w : World) :
  exec respond (check msg err) w =
    match err with
    | Some e => (Failed (Wrapped msg e), w, [])
    | None => (Returned tt, w, [])
    end.
Proof. destruct err; reflexivity. Qed.
End Executions.

(** ** Configuration *)

Lemma missingLoop_filter (env : gmap string string) (keys acc : list string) :
  missingLoop env keys acc
  = acc ++ filter (fun key => LookupEnv env key = None) keys.
Proof.
  revert acc. induction keys as [|key rest IH]; intros acc; simpl.
  - by rewrite app_nil_r.
  - rewrite filter_cons. destruct (LookupEnv env key) as [v|] eqn:E.
    + rewrite IH. by rewrite decide_False.
    + rewrite IH. rewrite decide_True by done. by rewrite <- app_assoc.
Qed.

Lemma validateEnvVars_filter (env : gmap string string) :
  validateEnvVars env =
    match filter (fun key => LookupEnv env key = None) requiredEnvVarKeys with
    | [] => None
    | missing => Some (MissingEnvironmentVariablesError missing)
    end.
Proof.
  unfold validateEnvVars. rewrite missingLoop_filter. simpl app.
  destruct (filter _ requiredEnvVarKeys) as [|key rest]; simpl.
  - reflexivity.
  - reflexivity.
Qed.

(** C7, as amended: the seven required inputs are validated for presence
    before anything else happens.  The error [validateEnvVars] returns
    names every required input that is not set, in the order of
    [requiredEnvVarKeys]; [NewSyncer] then exits through [logger.Fatal]
    without a single call to a client, and otherwise its first call is the
    construction of the IMDb client.  [IMDB_USER_ID] is not among the
    validated inputs. *)
Theorem validateEnvVars_names_every_missing_required (env : gmap string string) :
  let missing := filter (fun key => LookupEnv env key = None) requiredEnvVarKeys in
  (forall key, key ∈ missing <->
               key ∈ requiredEnvVarKeys /\ LookupEnv env key = None)
  /\ (missing = [] -> validateEnvVars env = None
                      /\ exists cfg k, NewSyncer env = Do (NewImdbClient cfg) k)
  /\ (missing <> [] ->
      validateEnvVars env = Some (MissingEnvironmentVariablesError missing)
      /\ NewSyncer env
         = Fatal "failure validating environment variables"
                 (MissingEnvironmentVariablesError missing)).
Proof.
  intros missing. split; [|split].
  - intros key. unfold missing. rewrite list_elem_of_filter.
    split; intros [? ?]; done.
  - intros Hnil. assert (Hv := validateEnvVars_filter env).
    fold missing in Hv. rewrite Hnil in Hv. split; [exact Hv|].
    unfold NewSyncer. rewrite Hv. simpl. by eexists _, _.
  - intros Hne. assert (Hv := validateEnvVars_filter env).
    fold missing in Hv. destruct missing as [|key rest]; [done|].
    split; [exact Hv|]. unfold NewSyncer. rewrite Hv. reflexivity.
Qed.

(** ** Seeding the pairings from IMDB_LIST_IDS *)

Lemma Split_nonempty (s : string) (sep : ascii) : Split s sep <> [].
Proof.
  destruct s as [|c rest]; simpl; [done|].
  destruct (Ascii.eqb c sep); [done|]. by destruct (Split rest sep).
Qed.

Lemma Join_cons (piece : string) (pieces : list string) (sep : ascii) :
  pieces <> [] ->
  Join (piece :: pieces) sep = piece +:+ String sep (Join pieces sep).
Proof. by destruct pieces. Qed.

Lemma Join_Split (s : string) (sep : ascii) : Join (Split s sep) sep = s.
Proof.
  induction s as [|c rest IH]; simpl; [done|].
  destruct (Ascii.eqb_spec c sep) as [->|Hne].
  - rewrite Join_cons by apply Split_nonempty. simpl. by rewrite IH.
  - pose proof (Split_nonempty rest sep) as Hn.
    destruct (Split rest sep) as [|piece pieces]; [done|].
    destruct pieces as [|piece' pieces].
    + simpl in *. by rewrite IH.
    + rewrite Join_cons by done. rewrite Join_cons in IH by done.
      rewrite <- IH. reflexivity.
Qed.

Lemma Split_pieces_without_sep (s : string) (sep : ascii) :
  Forall (fun piece => sep ∉ bytes piece) (Split s sep).
Proof.
  induction s as [|c rest IH]; simpl.
  - constructor; [|constructor]. simpl. apply not_elem_of_nil.
  - destruct (Ascii.eqb_spec c sep) as [->|Hne].
    + constructor; [|exact IH]. simpl. apply not_elem_of_nil.
    + destruct (Split rest sep) as [|piece pieces].
      * constructor; [|constructor]. simpl.
        rewrite elem_of_cons. intros [?|H]; [done|]. by apply not_elem_of_nil in H.
      * inversion IH as [|? ? Hp Hps]; subst. constructor; [|exact Hps].
        simpl. rewrite elem_of_cons. intros [?|?]; done.
Qed.

Lemma ReplaceAll_removes (s : string) (old : ascii) :
  bytes (ReplaceAll s old "") = filter (fun c => c <> old) (bytes s).
Proof.
  induction s as [|c rest IH]; simpl; [done|].
  rewrite filter_cons. destruct (Ascii.eqb_spec c old) as [->|Hne].
  - rewrite decide_False by (intros H; by apply H). simpl. exact IH.
  - rewrite decide_True by done. simpl. by rewrite IH.
Qed.

(** ** Programs that never issue some call *)

Lemma onlyCalls_bind (P : call -> Prop) {A B : Type} (p : Prog A) (f : A -> Prog B) :
  onlyCalls P p -> (forall a, onlyCalls P (f a)) -> onlyCalls P (p ≫= f).
Proof.
  unfold mbind, Prog_bind. intros Hp Hf.
  induction Hp as [a|e|m e| |c k Hc Hk IH]; simpl; try by constructor.
  - apply Hf.
Qed.

Lemma onlyCalls_onError (P : call -> Prop) {A : Type} (h : error -> Prog A) (p : Prog A) :
  onlyCalls P p -> (forall e, onlyCalls P (h e)) -> onlyCalls P (onError h p).
Proof.
  intros Hp Hh.
  induction Hp as [a|e|m e| |c k Hc Hk IH]; simpl; try by constructor.
  - apply Hh.
Qed.

Lemma onlyCalls_perform (P : call -> Prop) (c : call) :
  P c -> onlyCalls P (perform c).
Proof. intros Hc. constructor; [done|]. intros r. constructor. Qed.

Lemma onlyCalls_check (P : call -> Prop) (msg : string) (err : option error) :
  onlyCalls P (check msg err).
Proof. destruct err; constructor. Qed.

Lemma onlyCalls_exec {World : Type} (respond : forall c : call, World -> answer c * World)
    (P : call -> Prop) {A : Type} (p : Prog A) (w : World) :
  onlyCalls P p -> Forall (fun ev => P (ev_call ev)) (exec respond p w).2.
Proof.
  intros Hp. revert w.
  induction Hp as [a|e|m e| |c k Hc Hk IH]; intros w; simpl; try by constructor.
  destruct (respond c w) as [r w1]. specialize (IH r w1).
  destruct (exec respond (k r) w1) as [[o w2] tr]. simpl in *.
  by constructor.
Qed.

Lemma onlyCalls_cleanupLoop (P : call -> Prop) todo seen slots n :
  (forall listId, P (ImdbListItemsGet listId)) ->
  (forall msg e, P (LoggerWarn msg e)) ->
  onlyCalls P (cleanupLoop todo seen slots n).
Proof.
  intros Hget Hwarn. revert seen slots n.
  induction todo as [|dp rest IH]; intros seen slots n; simpl.
  - constructor.
  - destruct (seen !! DataPair.ImdbListId dp); [apply IH|].
    constructor; [apply Hget|]. intros [[name items] [e|]]; simpl.
    + destruct (errorsAs e) as [code|]; [|constructor].
      case_bool_decide; [|constructor].
      constructor; [apply Hwarn|]. intros []. apply IH.
    + destruct name as [name|]; [|constructor].
      case_bool_decide; [apply IH|constructor].
Qed.

Lemma onlyCalls_hydrateList (P : call -> Prop) dp :
  P TraktWatchlistItemsGet ->
  (forall listId, P (TraktListItemsGet listId)) ->
  (forall listId name, P (TraktListAdd listId name)) ->
  (forall msg e, P (LoggerWarn msg e)) ->
  onlyCalls P (hydrateList dp).
Proof.
  intros Hw Hget Hadd Hwarn. unfold hydrateList.
  destruct (DataPair.IsWatchlist dp).
  - constructor; [done|]. intros [items err]. simpl.
    destruct err; constructor.
  - constructor; [done|]. intros [items [e|]]; simpl; [|constructor].
    destruct (errorsAs e) as [code|]; [|constructor].
    case_bool_decide; [|constructor].
    constructor; [done|]. intros []. constructor; [done|].
    intros [e'|]; constructor.
Qed.

Lemma onlyCalls_hydrateLists (P : call -> Prop) dps :
  P TraktWatchlistItemsGet ->
  (forall listId, P (TraktListItemsGet listId)) ->
  (forall listId name, P (TraktListAdd listId name)) ->
  (forall msg e, P (LoggerWarn msg e)) ->
  onlyCalls P (hydrateLists dps).
Proof.
  intros Hw Hget Hadd Hwarn. induction dps as [|dp rest IH]; simpl.
  - constructor.
  - apply onlyCalls_bind; [by apply onlyCalls_hydrateList|].
    intros dp'. apply onlyCalls_bind; [exact IH|]. intros ?. constructor.
Qed.

Lemma hydrate_explicit_never_scrapes (u : user) :
  lists u <> [] ->
  onlyCalls (fun c => c <> ImdbListsScrape) (hydrate u).
Proof.
  intros Hne. unfold hydrate, sourceLists.
  rewrite bool_decide_eq_true_2 by (by destruct (lists u)).
  apply onlyCalls_bind.
  - apply onlyCalls_onError; [|intros; constructor].
    apply onlyCalls_cleanupLoop; done.
  - intros dps. constructor; [done|]. intros [[wid items] err]. simpl.
    destruct err; simpl; [constructor|].
    destruct wid as [wid|]; [|constructor].
    apply onlyCalls_bind; [apply onlyCalls_hydrateLists; done|].
    intros dps'. constructor; [done|]. intros [items' err]. simpl.
    destruct err; simpl; [constructor|].
    constructor; [done|]. intros [items'' err]. simpl.
    destruct err; simpl; constructor.
Qed.

(** C9: an [IMDB_LIST_IDS] that is empty or "all" seeds no pairing, and
    [hydrate] then starts with the full discovery ([ListsScrape]); any
    other value is split on its commas (the pieces joined by commas give
    the value back and hold no comma) and each piece, with every space
    removed, seeds one pairing, [hydrate] then never calling
    [ListsScrape].  [NewSyncer], when it returns, returns these pairings. *)
Theorem seedLists_explicit_or_discovery (imdbListIdsString : string) :
  seedLists imdbListIdsString
  = (if bool_decide (imdbListIdsString = "" \/ imdbListIdsString = "all")
     then [] else seedPair <$> Split imdbListIdsString ",")
  /\ Join (Split imdbListIdsString ",") "," = imdbListIdsString
  /\ Forall (fun piece => ","%char ∉ bytes piece) (Split imdbListIdsString ",")
  /\ (forall piece,
        bytes (DataPair.ImdbListId (seedPair piece))
        = filter (fun c => c <> " "%char) (bytes piece))
  /\ (forall r,
        if bool_decide (imdbListIdsString = "" \/ imdbListIdsString = "all")
        then exists k,
               hydrate {| lists := seedLists imdbListIdsString; ratings := r |}
               = Do ImdbListsScrape k
        else onlyCalls (fun c => c <> ImdbListsScrape)
               (hydrate {| lists := seedLists imdbListIdsString; ratings := r |}))
  /\ (forall (env : gmap string string) (World : Type)
             (respond : forall c : call, World -> answer c * World)
             (w : World) (u : user),
        Getenv env EnvVarKeyListIds = imdbListIdsString ->
        (exec respond (NewSyncer env) w).1.1 = Returned u ->
        lists u = seedLists imdbListIdsString).
Proof.
  assert (Hseed : seedLists imdbListIdsString
                  = (if bool_decide (imdbListIdsString = "" \/ imdbListIdsString = "all")
                     then [] else seedPair <$> Split imdbListIdsString ",")).
  { unfold seedLists.
    destruct (decide (imdbListIdsString = "")) as [->|Hne]; [done|].
    destruct (decide (imdbListIdsString = "all")) as [->|Hna]; [done|].
    rewrite !bool_decide_eq_true_2 by done.
    rewrite bool_decide_eq_false_2 by (intros [?|?]; done). done. }
  split; [exact Hseed|]. split; [apply Join_Split|].
  split; [apply Split_pieces_without_sep|].
  split; [intros piece; apply ReplaceAll_removes|]. split.
  - intros r. rewrite Hseed. case_bool_decide as Hs.
    + unfold hydrate. simpl. eauto.
    + apply hydrate_explicit_never_scrapes. simpl.
      pose proof (Split_nonempty imdbListIdsString ",") as Hn.
      by destruct (Split imdbListIdsString ",").
  - intros env World respond w u Henv. unfold NewSyncer. rewrite Henv.
    destruct (validateEnvVars env); [simpl; done|].
    simpl. destruct (respond (NewImdbClient _) w) as [[e|] w1]; simpl; [done|].
    destruct (respond (NewTraktClient _) w1) as [[e|] w2]; simpl; [done|].
    intros [= <-]. reflexivity.
Qed.

(** ** The diff *)

Lemma traktKey_asTraktItem (x : ImdbItem.t) :
  traktKey (asTraktItem x) = imdbKey x.
Proof. unfold traktKey, GetItemId, asTraktItem, imdbKey. by destruct (ImdbItem.TitleType x). Qed.

Lemma Difference_add (dp : DataPair.t) :
  Difference dp !!! "add"
  = asTraktItem <$> filter (fun x => imdbKey x ∉ traktKey <$> DataPair.TraktList dp)
                           (DataPair.ImdbList dp).
Proof. reflexivity. Qed.

Lemma Difference_remove (dp : DataPair.t) :
  Difference dp !!! "remove"
  = filter (fun y => traktKey y ∉ imdbKey <$> DataPair.ImdbList dp)
           (DataPair.TraktList dp).
Proof. reflexivity. Qed.

Lemma Difference_add_key (dp : DataPair.t) (a : TraktItem.t) :
  a ∈ Difference dp !!! "add" ->
  traktKey a ∈ imdbKey <$> DataPair.ImdbList dp
  /\ traktKey a ∉ traktKey <$> DataPair.TraktList dp.
Proof.
  rewrite Difference_add. intros (x & -> & Hx)%list_elem_of_fmap.
  apply list_elem_of_filter in Hx as [Hk Hx]. rewrite traktKey_asTraktItem.
  split; [|exact Hk]. apply list_elem_of_fmap. eauto.
Qed.

Lemma Difference_remove_key (dp : DataPair.t) (y : TraktItem.t) :
  y ∈ Difference dp !!! "remove" ->
  traktKey y ∈ traktKey <$> DataPair.TraktList dp
  /\ traktKey y ∉ imdbKey <$> DataPair.ImdbList dp.
Proof.
  rewrite Difference_remove. intros [Hk Hy]%list_elem_of_filter.
  split; [|exact Hk]. apply list_elem_of_fmap. eauto.
Qed.

(** C1: for the pairing's source collection S and mirror collection M,
    the diff holds under "add" exactly the items of S (in their mirror
    form, and in the order of S) whose key is absent from the keys of M,
    under "remove" exactly the items of M whose key is absent from the
    keys of S; no key occurs on both sides of the diff, and a key that S
    and M share occurs on neither.  The calls [syncLists] issues for the
    pairing carry these two collections and nothing else. *)
Theorem Difference_is_symmetric_difference_by_key (dp : DataPair.t) :
  let S := DataPair.ImdbList dp in
  let M := DataPair.TraktList dp in
  let toAdd := Difference dp !!! "add" in
  let toRemove := Difference dp !!! "remove" in
  toAdd = asTraktItem <$> filter (fun x => imdbKey x ∉ traktKey <$> M) S
  /\ toRemove = filter (fun y => traktKey y ∉ imdbKey <$> S) M
  /\ (forall x, x ∈ S ->
        (asTraktItem x ∈ toAdd <-> imdbKey x ∉ traktKey <$> M))
  /\ (forall a, a ∈ toAdd ->
        exists x, x ∈ S /\ a = asTraktItem x /\ traktKey a = imdbKey x)
  /\ (forall y, y ∈ toRemove <-> y ∈ M /\ traktKey y ∉ imdbKey <$> S)
  /\ (forall a r, a ∈ toAdd -> r ∈ toRemove -> traktKey a <> traktKey r)
  /\ (forall key, key ∈ imdbKey <$> S -> key ∈ traktKey <$> M ->
        (key ∉ traktKey <$> toAdd) /\ (key ∉ traktKey <$> toRemove))
  /\ onlyCalls (fun c => c = TraktWatchlistItemsAdd toAdd
                         \/ c = TraktWatchlistItemsRemove toRemove
                         \/ c = TraktListItemsAdd (DataPair.TraktListId dp) toAdd
                         \/ c = TraktListItemsRemove (DataPair.TraktListId dp) toRemove)
               (syncList dp).
Proof.
  intros S M toAdd toRemove.
  split; [reflexivity|]. split; [reflexivity|].
  split; [|split; [|split; [|split; [|split]]]]; cycle 5.
  { unfold syncList. fold toAdd toRemove.
    destruct (DataPair.IsWatchlist dp);
      (apply onlyCalls_bind; [|intros _]);
      (case_bool_decide; [|constructor]);
      simpl; (constructor; [prop_solver|]); intros err; apply onlyCalls_check. }
  - intros x Hx. split.
    + intros Ha%Difference_add_key. rewrite traktKey_asTraktItem in Ha. prop_solver.
    + intros Hk. unfold toAdd. rewrite Difference_add.
      apply list_elem_of_fmap. exists x. split; [done|].
      apply list_elem_of_filter. done.
  - intros a. unfold toAdd. rewrite Difference_add.
    intros (x & -> & Hx)%list_elem_of_fmap.
    apply list_elem_of_filter in Hx as [_ Hx].
    exists x. by rewrite traktKey_asTraktItem.
  - intros y. unfold toRemove. rewrite Difference_remove.
    rewrite list_elem_of_filter. prop_solver.
  - intros a r [Ha _]%Difference_add_key [_ Hr]%Difference_remove_key Heq.
    apply Hr. by rewrite <- Heq.
  - intros key HS HM. split.
    + intros (a & -> & [_ Ha]%Difference_add_key)%list_elem_of_fmap. done.
    + intros (y & -> & [_ Hy]%Difference_remove_key)%list_elem_of_fmap. done.
Qed.

(** ** The update scan of the ratings *)

Lemma updatesFor_keyed (x : ImdbItem.t) (r : Z) (acc : list TraktItem.t)
    (y : TraktItem.t) (key : string) :
  traktKey y = Some key ->
  (if bool_decide (ImdbItem.Id x = key) && bool_decide (r <> TraktItem.Rating y)
   then acc ++ [stampItem y r (Time_String (Time.UTC (ImdbItem.RatingDate x)))]
   else acc)
  = acc ++ updatesFor x r [y].
Proof.
  intros Hkey. unfold updatesFor, imdbKey. rewrite filter_cons, filter_nil, Hkey.
  destruct (decide (ImdbItem.Id x = key)) as [Hid|Hid];
    destruct (decide (r = TraktItem.Rating y)) as [Hr|Hr].
  - rewrite bool_decide_eq_true_2 by done.
    rewrite (bool_decide_eq_false_2 (r <> _)) by (intros H; by apply H). simpl.
    rewrite decide_False by (intros [_ H]; by apply H). by rewrite app_nil_r.
  - rewrite !bool_decide_eq_true_2 by done. simpl.
    rewrite decide_True by (by subst). reflexivity.
  - rewrite bool_decide_eq_false_2 by done. simpl.
    rewrite decide_False by (intros [[= H] _]; by apply Hid). by rewrite app_nil_r.
  - rewrite bool_decide_eq_false_2 by done. simpl.
    rewrite decide_False by (intros [[= H] _]; by apply Hid). by rewrite app_nil_r.
Qed.

Lemma updateStep_spec (x : ImdbItem.t) (r : Z) (acc : list TraktItem.t)
    (y : TraktItem.t) :
  updateStep x r acc y = acc ++ updatesFor x r [y].
Proof.
  unfold updateStep.
  destruct (decide (TraktItem.Type_ y = TraktItemTypeMovie)) as [Hm|Hm].
  { rewrite (bool_decide_eq_true_2 _ Hm).
    rewrite <- (updatesFor_keyed x r acc y
                 (TraktIds.Imdb (TraktItemSpec.Ids (TraktItem.Movie y)))).
    - unfold stampItem. by rewrite (bool_decide_eq_true_2 _ Hm).
    - unfold traktKey, GetItemId. by rewrite (bool_decide_eq_true_2 _ Hm). }
  rewrite (bool_decide_eq_false_2 _ Hm).
  destruct (decide (TraktItem.Type_ y = TraktItemTypeShow)) as [Hs|Hs].
  { rewrite (bool_decide_eq_true_2 _ Hs).
    rewrite <- (updatesFor_keyed x r acc y
                 (TraktIds.Imdb (TraktItemSpec.Ids (TraktItem.Show y)))).
    - unfold stampItem.
      by rewrite (bool_decide_eq_false_2 _ Hm), (bool_decide_eq_true_2 _ Hs).
    - unfold traktKey, GetItemId.
      by rewrite (bool_decide_eq_false_2 _ Hm), (bool_decide_eq_true_2 _ Hs). }
  rewrite (bool_decide_eq_false_2 _ Hs).
  destruct (decide (TraktItem.Type_ y = TraktItemTypeEpisode)) as [He|He].
  { rewrite (bool_decide_eq_true_2 _ He).
    rewrite <- (updatesFor_keyed x r acc y
                 (TraktIds.Imdb (TraktItemSpec.Ids (TraktItem.Episode y)))).
    - unfold stampItem.
      by rewrite (bool_decide_eq_false_2 _ Hm), (bool_decide_eq_false_2 _ Hs),
           (bool_decide_eq_true_2 _ He).
    - unfold traktKey, GetItemId.
      by rewrite (bool_decide_eq_false_2 _ Hm), (bool_decide_eq_false_2 _ Hs),
           (bool_decide_eq_true_2 _ He). }
  rewrite (bool_decide_eq_false_2 _ He).
  unfold updatesFor. rewrite filter_cons, filter_nil.
  rewrite decide_False; [by rewrite app_nil_r|].
  unfold traktKey, GetItemId.
  rewrite (bool_decide_eq_false_2 _ Hm), (bool_decide_eq_false_2 _ Hs),
    (bool_decide_eq_false_2 _ He). by intros [? _].
Qed.

Lemma updatesFor_app (x : ImdbItem.t) (r : Z) (l1 l2 : list TraktItem.t) :
  updatesFor x r (l1 ++ l2) = updatesFor x r l1 ++ updatesFor x r l2.
Proof. unfold updatesFor. by rewrite filter_app, fmap_app. Qed.

Lemma foldl_updateStep (x : ImdbItem.t) (r : Z) (M acc : list TraktItem.t) :
  foldl (updateStep x r) acc M = acc ++ updatesFor x r M.
Proof.
  revert acc. induction M as [|y M IH]; intros acc; simpl.
  - by rewrite app_nil_r.
  - rewrite IH, updateStep_spec. rewrite <- app_assoc.
    by rewrite <- updatesFor_app.
Qed.

Lemma updateScan_spec (S : list ImdbItem.t) (M acc : list TraktItem.t) :
  updateScan S M acc
  = acc ++ (S ≫= fun x => match ImdbItem.Rating x with
                          | Some r => updatesFor x r M
                          | None => []
                          end).
Proof.
  revert acc. induction S as [|x S IH]; intros acc; simpl.
  - by rewrite app_nil_r.
  - destruct (ImdbItem.Rating x) as [r|].
    + rewrite IH, foldl_updateStep. by rewrite <- app_assoc.
    + by rewrite IH.
Qed.

Lemma elem_of_updateScan (S : list ImdbItem.t) (M : list TraktItem.t)
    (z : TraktItem.t) :
  z ∈ updateScan S M [] <->
  exists x y r,
    x ∈ S /\ y ∈ M /\ ImdbItem.Rating x = Some r
    /\ traktKey y = imdbKey x /\ r <> TraktItem.Rating y
    /\ z = stampItem y r (Time_String (Time.UTC (ImdbItem.RatingDate x))).
Proof.
  rewrite updateScan_spec. simpl. rewrite list_elem_of_bind. split.
  - intros (x & Hz & Hx). destruct (ImdbItem.Rating x) as [r|] eqn:Hr.
    + unfold updatesFor in Hz. apply list_elem_of_fmap in Hz as (y & -> & Hy).
      apply list_elem_of_filter in Hy as [[Hk Hd] Hy].
      exists x, y, r. done.
    + by apply elem_of_nil in Hz.
  - intros (x & y & r & Hx & Hy & Hr & Hk & Hd & ->).
    exists x. split; [|done]. rewrite Hr. unfold updatesFor.
    apply list_elem_of_fmap. exists y. split; [done|].
    apply list_elem_of_filter. done.
Qed.

Lemma stampItem_spec (y : TraktItem.t) (r : Z) (ratedAt : string) (key : string) :
  traktKey y = Some key ->
  exists spec old,
    itemSpec y = Some old
    /\ itemSpec (stampItem y r ratedAt) = Some spec
    /\ spec = stamp old r ratedAt
    /\ traktKey (stampItem y r ratedAt) = Some key
    /\ TraktItem.Type_ (stampItem y r ratedAt) = TraktItem.Type_ y.
Proof.
  unfold traktKey, GetItemId, itemSpec, stampItem.
  repeat case_bool_decide; simpl; try done; intros [= <-];
    eexists _, _; unfold itemSpec, traktKey, GetItemId; simpl;
    repeat case_bool_decide; try done.
Qed.

Lemma exec_syncRatingsUpdate {World : Type}
    (respond : forall c : call, World -> answer c * World)
    (dp : DataPair.t) (w : World) :
  exec respond (syncRatingsUpdate dp) w =
    match updateScan (DataPair.ImdbList dp) (DataPair.TraktList dp) [] with
    | [] => (Returned tt, w, [])
    | ratingsToUpdate =>
        let '(err, w1) := respond (TraktRatingsAdd ratingsToUpdate) w in
        (match err with
         | Some e => Failed (Wrapped "failure updating trakt ratings" e)
         | None => Returned tt
         end, w1, [Ev (TraktRatingsAdd ratingsToUpdate) err])
    end.
Proof.
  unfold syncRatingsUpdate.
  destruct (updateScan _ _ []) as [|z zs]; [reflexivity|].
  rewrite bool_decide_eq_true_2 by (simpl; lia). simpl.
  destruct (respond (TraktRatingsAdd (z :: zs)) w) as [[e|] w1]; reflexivity.
Qed.

(** C2: a source item with a rating and a mirror item of the same key whose
    rating differs: the key is on neither side of the diff (so neither item
    is added or removed); the mirror item, its entry stamped with the
    source's rating and the source's rating date in UTC string form, is in
    the update batch, which holds nothing but such items; and
    [syncRatings] issues the whole batch in one [RatingsAdd] call, after
    its add and remove phases, when the batch is not empty. *)
Theorem differing_ratings_are_updated_not_diffed (u : user) :
  let S := DataPair.ImdbList (ratings u) in
  let M := DataPair.TraktList (ratings u) in
  let diff := Difference (ratings u) in
  let ratingsToUpdate := updateScan S M [] in
  (forall x y r,
      x ∈ S -> y ∈ M -> ImdbItem.Rating x = Some r ->
      traktKey y = imdbKey x -> r <> TraktItem.Rating y ->
      let ratedAt := Time_String (Time.UTC (ImdbItem.RatingDate x)) in
      (imdbKey x ∉ traktKey <$> diff !!! "add")
      /\ (imdbKey x ∉ traktKey <$> diff !!! "remove")
      /\ (asTraktItem x ∉ diff !!! "add")
      /\ (y ∉ diff !!! "remove")
      /\ stampItem y r ratedAt ∈ ratingsToUpdate
      /\ (exists old, itemSpec y = Some old
                      /\ itemSpec (stampItem y r ratedAt)
                         = Some {| TraktItemSpec.Ids := TraktItemSpec.Ids old;
                                   TraktItemSpec.Rating := Some r;
                                   TraktItemSpec.RatedAt := Some ratedAt |})
      /\ syncRatingsUpdate (ratings u)
         = Do (TraktRatingsAdd ratingsToUpdate)
              (check "failure updating trakt ratings"))
  /\ (forall z, z ∈ ratingsToUpdate ->
        exists x y r,
          x ∈ S /\ y ∈ M /\ ImdbItem.Rating x = Some r
          /\ traktKey y = imdbKey x /\ r <> TraktItem.Rating y
          /\ z = stampItem y r (Time_String (Time.UTC (ImdbItem.RatingDate x))))
  /\ (forall (World : Type) (respond : forall c : call, World -> answer c * World)
             (w : World),
        exec respond (syncRatings u) w =
          match exec respond (_ ← syncRatingsAdd (diff !!! "add");
                              syncRatingsRemove (diff !!! "remove")) w with
          | (Returned _, w1, tr1) =>
              match ratingsToUpdate with
              | [] => (Returned tt, w1, tr1)
              | _ =>
                  let '(err, w2) := respond (TraktRatingsAdd ratingsToUpdate) w1 in
                  (match err with
                   | Some e => Failed (Wrapped "failure updating trakt ratings" e)
                   | None => Returned tt
                   end, w2, tr1 ++ [Ev (TraktRatingsAdd ratingsToUpdate) err])
              end
          | other => other
          end).
Proof.
  intros S M diff ratingsToUpdate. split; [|split].
  - intros x y r Hx Hy Hr Hk Hd ratedAt.
    assert (HS : imdbKey x ∈ imdbKey <$> S) by (apply list_elem_of_fmap; eauto).
    assert (HM : imdbKey x ∈ traktKey <$> M)
      by (apply list_elem_of_fmap; exists y; eauto).
    assert (Hin : stampItem y r ratedAt ∈ ratingsToUpdate).
    { apply elem_of_updateScan. exists x, y, r. done. }
    split; [|split; [|split; [|split; [|split; [|split]]]]].
    + intros (a & Ha & [_ Hn]%Difference_add_key)%list_elem_of_fmap.
      apply Hn. by rewrite <- Ha.
    + intros (a & Ha & [_ Hn]%Difference_remove_key)%list_elem_of_fmap.
      apply Hn. by rewrite <- Ha.
    + intros [_ Hn]%Difference_add_key. apply Hn.
      by rewrite traktKey_asTraktItem.
    + intros [_ Hn]%Difference_remove_key. apply Hn. by rewrite Hk.
    + exact Hin.
    + destruct (stampItem_spec y r ratedAt (ImdbItem.Id x) Hk)
        as (spec & old & Ho & Hs & -> & _).
      exists old. done.
    + unfold syncRatingsUpdate. fold S M ratingsToUpdate.
      destruct ratingsToUpdate as [|z zs]; [by apply elem_of_nil in Hin|].
      rewrite bool_decide_eq_true_2 by (simpl; lia). reflexivity.
  - intros z Hz. by apply elem_of_updateScan.
  - intros World respond w. unfold syncRatings. fold diff.
    rewrite (exec_bind respond (syncRatingsAdd _)).
    rewrite (exec_bind respond (syncRatingsAdd _) (fun _ => syncRatingsRemove _)).
    destruct (exec respond (syncRatingsAdd (diff !!! "add")) w)
      as [[[[]|e|m e|] w1] tr1]; try reflexivity.
    rewrite exec_bind.
    destruct (exec respond (syncRatingsRemove (diff !!! "remove")) w1)
      as [[[[]|e|m e|] w2] tr2]; try reflexivity.
    rewrite exec_syncRatingsUpdate. fold S M ratingsToUpdate.
    destruct ratingsToUpdate as [|z zs]; [by rewrite !app_nil_r|].
    cbv zeta.
    destruct (respond (TraktRatingsAdd (z :: zs)) w2) as [[e|] w3];
      by rewrite app_assoc.
Qed.

(** ** Ratings: additions and the watch history *)

Lemma onlyCalls_historyAddScan (P : call -> Prop) items acc :
  (forall itemType itemId, P (TraktHistoryGet itemType itemId)) ->
  onlyCalls P (historyAddScan items acc).
Proof.
  intros Hget. revert acc. induction items as [|item rest IH]; intros acc; simpl.
  - constructor.
  - destruct (GetItemId item) as [e|itemId]; [constructor|].
    constructor; [apply Hget|]. intros [history [e|]]; simpl; [constructor|].
    case_bool_decide; apply IH.
Qed.

Lemma exec_historyAddScan {World : Type}
    (respond : forall c : call, World -> answer c * World)
    (items acc : list TraktItem.t) (w w' : World) (batch : list TraktItem.t)
    (tr : list event) :
  exec respond (historyAddScan items acc) w = (Returned batch, w', tr) ->
  exists histories,
    length histories = length items
    /\ tr = historyQueries items histories
    /\ batch = acc ++ unwatched items histories
    /\ Forall (fun item => exists itemId, GetItemId item = inr itemId) items.
Proof.
  revert acc w tr. induction items as [|item rest IH]; intros acc w tr; simpl.
  - intros [= <- <- <-]. exists []. by rewrite app_nil_r.
  - destruct (GetItemId item) as [e|itemId] eqn:Hid; [done|]. simpl.
    destruct (respond (TraktHistoryGet _ itemId) w) as [[history [e|]] w1] eqn:Hr;
      simpl; [done|].
    destruct (exec respond _ w1) as [[o w2] tr1] eqn:Hx.
    intros [= -> -> <-].
    destruct history as [|h history]; simpl in Hx.
    + apply IH in Hx as (histories & Hlen & -> & -> & Hall).
      exists ([] :: histories). simpl. rewrite Hlen.
      split; [done|]. split; [by unfold historyQuery; rewrite Hid|].
      split; [by rewrite <- app_assoc|]. constructor; eauto.
    + apply IH in Hx as (histories & Hlen & -> & -> & Hall).
      exists ((h :: history) :: histories). simpl. rewrite Hlen.
      split; [done|]. split; [by unfold historyQuery; rewrite Hid|].
      split; [done|]. constructor; eauto.
Qed.

Lemma unwatched_queried (items : list TraktItem.t)
    (histories : list (list TraktItem.t)) (item : TraktItem.t) :
  item ∈ unwatched items histories ->
  item ∈ items /\ historyQuery item [] ∈ historyQueries items histories.
Proof.
  revert histories. induction items as [|x rest IH]; intros [|h hs]; simpl;
    try (by intros ?%elem_of_nil).
  destruct (decide (h = [])) as [->|Hh].
  - intros [->|Hin]%elem_of_cons.
    + split; apply list_elem_of_here.
    + apply IH in Hin as [? ?]. split; by apply list_elem_of_further.
  - intros Hin. apply IH in Hin as [? ?]. split; by apply list_elem_of_further.
Qed.

Lemma unwatched_lookup (items : list TraktItem.t)
    (histories : list (list TraktItem.t)) (item : TraktItem.t) :
  item ∈ unwatched items histories ->
  exists j, items !! j = Some item /\ histories !! j = Some [].
Proof.
  revert histories. induction items as [|x rest IH]; intros [|h hs]; simpl;
    try (by intros ?%elem_of_nil).
  destruct (decide (h = [])) as [->|Hh].
  - intros [->|Hin]%elem_of_cons; [by exists 0%nat|].
    apply IH in Hin as (j & ? & ?). by exists (S j).
  - intros Hin. apply IH in Hin as (j & ? & ?). by exists (S j).
Qed.

Lemma unwatched_excludes (items : list TraktItem.t)
    (histories : list (list TraktItem.t)) (i : nat) (item : TraktItem.t)
    (history : list TraktItem.t) :
  NoDup items -> items !! i = Some item -> histories !! i = Some history ->
  history <> [] -> item ∉ unwatched items histories.
Proof.
  intros Hnd Hi Hh Hne (j & Hj & Hhj)%unwatched_lookup.
  assert (i = j) as -> by (eapply NoDup_lookup; eauto). congruence.
Qed.

Lemma historyQueries_not_add (items : list TraktItem.t)
    (histories : list (list TraktItem.t)) (ev : event) (batch : list TraktItem.t) :
  ev ∈ historyQueries items histories -> ev_call ev <> TraktHistoryAdd batch.
Proof.
  revert histories. induction items as [|x rest IH]; intros [|h hs]; simpl;
    try (by intros ?%elem_of_nil).
  intros [->|Hin]%elem_of_cons; [done|]. by apply (IH hs).
Qed.

(** C3: in any execution of the add phase of [syncRatings], a [HistoryAdd]
    call is the last call of the phase and carries a batch that is not
    empty: the items of [toAdd], in order, whose history query (by the
    item's type and identifier) answered no entry.  An item whose query
    answered some entry is left out; every item of the batch was queried
    with an empty answer.  When the phase returns, its calls are the
    [RatingsAdd], one history query per item, and the [HistoryAdd] only if
    the batch is not empty.  (An item that occurs once in [toAdd] and whose
    query answered some entry is not in the batch.) *)
Theorem history_add_skips_items_in_history {World : Type}
    (respond : forall c : call, World -> answer c * World)
    (toAdd : list TraktItem.t) (w w' : World) (o : outcome unit)
    (tr : list event) :
  exec respond (syncRatingsAdd toAdd) w = (o, w', tr) ->
  (forall ev batch,
      ev ∈ tr -> ev_call ev = TraktHistoryAdd batch ->
      batch <> []
      /\ exists histories,
           length histories = length toAdd
           /\ batch = unwatched toAdd histories
           /\ tr = Ev (TraktRatingsAdd toAdd) None
                   :: historyQueries toAdd histories ++ [ev]
           /\ (forall item, item ∈ batch ->
                 item ∈ toAdd /\ historyQuery item [] ∈ tr)
           /\ (forall i item history,
                 NoDup toAdd -> toAdd !! i = Some item ->
                 histories !! i = Some history -> history <> [] ->
                 item ∉ batch))
  /\ (o = Returned tt ->
      exists histories,
        length histories = length toAdd
        /\ tr = match toAdd with
                | [] => []
                | _ => Ev (TraktRatingsAdd toAdd) None
                       :: historyQueries toAdd histories
                       ++ match unwatched toAdd histories with
                          | [] => []
                          | batch => [Ev (TraktHistoryAdd batch) None]
                          end
                end).
Proof.
  unfold syncRatingsAdd. destruct (decide (toAdd = [])) as [->|Hne].
  { simpl. intros [= <- <- <-]. split.
    - intros ev batch Hin. by apply elem_of_nil in Hin.
    - intros _. exists []. done. }
  rewrite bool_decide_eq_true_2 by (destruct toAdd; simpl; [done|lia]). simpl.
  destruct (respond (TraktRatingsAdd toAdd) w) as [[e|] w1]; simpl.
  { intros [= <- <- <-]. split; [|done].
    intros ev batch [->|Hin%elem_of_nil]%elem_of_cons; done. }
  rewrite exec_bind.
  destruct (exec respond (historyAddScan toAdd []) w1) as [[o1 w2] tr1] eqn:Hscan.
  pose proof (onlyCalls_exec respond
                (fun c => forall batch, c <> TraktHistoryAdd batch)
                (historyAddScan toAdd []) w1) as Hnone.
  rewrite Hscan in Hnone. simpl in Hnone.
  assert (Hscanned : onlyCalls (fun c => forall batch, c <> TraktHistoryAdd batch)
                       (historyAddScan toAdd []))
    by (by apply onlyCalls_historyAddScan).
  specialize (Hnone Hscanned).
  rewrite Forall_forall in Hnone.
  destruct o1 as [batch|e|m e|]; simpl.
  2,3,4: intros [= <- <- <-]; (split; [|done]);
         intros ev b [->|Hin]%elem_of_cons; [done|];
         intros Hcall; by destruct (Hnone _ Hin b).
  apply exec_historyAddScan in Hscan as (histories & Hlen & -> & Hb & Hall).
  simpl in Hb. subst batch.
  destruct (unwatched toAdd histories) as [|b bs] eqn:Hun.
  - simpl. intros [= <- <- <-]. split.
    + intros ev b [->|Hin]%elem_of_cons; [done|].
      rewrite app_nil_r in Hin. apply (historyQueries_not_add _ _ _ b) in Hin.
      done.
    + intros _. exists histories. rewrite Hun. by destruct toAdd.
  - rewrite bool_decide_eq_true_2 by (simpl; lia). simpl.
    destruct (respond (TraktHistoryAdd (b :: bs)) w2) as [err w3].
    assert (Hshape : forall o2,
               (o2, w3, Ev (TraktRatingsAdd toAdd) None
                        :: historyQueries toAdd histories
                        ++ [Ev (TraktHistoryAdd (b :: bs)) err]) = (o, w', tr) ->
               forall ev batch, ev ∈ tr -> ev_call ev = TraktHistoryAdd batch ->
               batch <> []
               /\ exists hs, length hs = length toAdd
                    /\ batch = unwatched toAdd hs
                    /\ tr = Ev (TraktRatingsAdd toAdd) None
                            :: historyQueries toAdd hs ++ [ev]
                    /\ (forall item, item ∈ batch ->
                          item ∈ toAdd /\ historyQuery item [] ∈ tr)
                    /\ (forall i item history,
                          NoDup toAdd -> toAdd !! i = Some item ->
                          hs !! i = Some history -> history <> [] ->
                          item ∉ batch)).
    { intros o2 [= <- <- <-] ev batch Hin Hcall.
      apply elem_of_cons in Hin as [->|Hin]; [done|].
      apply elem_of_app in Hin as [Hin|Hin].
      { by apply (historyQueries_not_add _ _ _ batch) in Hin. }
      apply list_elem_of_singleton in Hin as ->. simpl in Hcall.
      injection Hcall as <-. split; [done|].
      exists histories. rewrite Hun. split; [done|]. split; [done|].
      split; [done|]. split.
      - intros item Hitem. rewrite <- Hun in Hitem.
        apply unwatched_queried in Hitem as [? ?]. split; [done|].
        apply list_elem_of_further, elem_of_app. by left.
      - intros i item history Hnd Hi Hh Hnonempty. rewrite <- Hun.
        by eapply unwatched_excludes. }
    destruct err as [e|]; simpl; intros Heq.
    + split; [by apply (Hshape _ Heq)|]. by injection Heq as <- _ _.
    + split; [by apply (Hshape _ Heq)|]. intros _.
      injection Heq as _ _ <-. exists histories. rewrite Hun. by destruct toAdd.
Qed.

(** ** Lists: applying the diffs and removing the orphans *)

Lemma contains_spec (dps : list DataPair.t) (traktListName : string) :
  contains dps traktListName = true
  <-> traktListName ∈ DataPair.ImdbListName <$> dps.
Proof.
  induction dps as [|dp rest IH]; simpl.
  - split; [done|]. by intros ?%elem_of_nil.
  - rewrite elem_of_cons. case_bool_decide as Hname.
    + split; [|done]. intros _. by left.
    + rewrite IH. split; [by right|]. intros [?|?]; [by subst|done].
Qed.

Lemma contains_false (dps : list DataPair.t) (traktListName : string) :
  contains dps traktListName = false
  <-> traktListName ∉ DataPair.ImdbListName <$> dps.
Proof.
  rewrite <- contains_spec. by destruct (contains dps traktListName).
Qed.

Lemma deletedSlugs_app (t1 t2 : list event) :
  deletedSlugs (t1 ++ t2) = deletedSlugs t1 ++ deletedSlugs t2.
Proof. apply omap_app. Qed.

Lemma deletedSlugs_cons (ev : event) (tr : list event) :
  deletedSlugs (ev :: tr)
  = match ev_call ev with
    | TraktListRemove slug => slug :: deletedSlugs tr
    | _ => deletedSlugs tr
    end.
Proof. unfold deletedSlugs. simpl. by destruct (ev_call ev). Qed.

Lemma deletedSlugs_none (tr : list event) :
  Forall (fun ev => forall slug, ev_call ev <> TraktListRemove slug) tr ->
  deletedSlugs tr = [].
Proof.
  induction 1 as [|ev tr Hev _ IH]; [done|]. rewrite deletedSlugs_cons, IH.
  destruct (ev_call ev) eqn:Hc; try done. by destruct (Hev slug).
Qed.

Lemma deletedSlugs_listRemoved (tls : list TraktList.t) :
  deletedSlugs (listRemoved <$> tls) = slugOf <$> tls.
Proof.
  induction tls as [|tl tls IH]; [done|]. rewrite fmap_cons, deletedSlugs_cons.
  simpl. by rewrite IH.
Qed.

Lemma onlyCalls_syncList (P : call -> Prop) (dp : DataPair.t) :
  (forall items, P (TraktWatchlistItemsAdd items)) ->
  (forall items, P (TraktWatchlistItemsRemove items)) ->
  (forall listId items, P (TraktListItemsAdd listId items)) ->
  (forall listId items, P (TraktListItemsRemove listId items)) ->
  onlyCalls P (syncList dp).
Proof.
  intros Hwa Hwr Hla Hlr. unfold syncList.
  destruct (DataPair.IsWatchlist dp);
    (apply onlyCalls_bind; [|intros _]);
    (case_bool_decide; [|constructor]);
    simpl; (constructor; [done|]); intros err; apply onlyCalls_check.
Qed.

Lemma onlyCalls_syncListsLoop (P : call -> Prop) (dps : list DataPair.t) :
  (forall items, P (TraktWatchlistItemsAdd items)) ->
  (forall items, P (TraktWatchlistItemsRemove items)) ->
  (forall listId items, P (TraktListItemsAdd listId items)) ->
  (forall listId items, P (TraktListItemsRemove listId items)) ->
  onlyCalls P (syncListsLoop dps).
Proof.
  intros Hwa Hwr Hla Hlr. induction dps as [|dp rest IH]; simpl.
  - constructor.
  - apply onlyCalls_bind; [by apply onlyCalls_syncList|]. intros _. exact IH.
Qed.

(** The loop over the mirror lists: it removes the orphans in order, one
    call each, and stops at the first call that fails. *)
Lemma exec_removeOrphans {World : Type}
    (respond : forall c : call, World -> answer c * World)
    (pairings : list DataPair.t) (traktLists : list TraktList.t)
    (w w' : World) (o : outcome unit) (tr : list event) :
  exec respond (removeOrphans pairings traktLists) w = (o, w', tr) ->
  exists deleted,
    deleted `prefix_of` orphans pairings traktLists
    /\ deletedSlugs tr = slugOf <$> deleted
    /\ (o = Returned tt ->
        deleted = orphans pairings traktLists
        /\ tr = listRemoved <$> orphans pairings traktLists).
Proof.
  revert w tr. induction traktLists as [|tl rest IH]; intros w tr; simpl.
  - intros [= <- <- <-]. exists []. done.
  - unfold orphans. rewrite filter_cons. fold (orphans pairings rest).
    destruct (contains pairings (TraktList.Name tl)) eqn:Hc; simpl.
    + apply contains_spec in Hc. rewrite decide_False by (intros H; by apply H).
      apply IH.
    + apply contains_false in Hc. rewrite decide_True by done.
      fold (slugOf tl).
      destruct (respond (TraktListRemove (slugOf tl)) w) as [[e|] w1]; simpl.
      * intros [= <- <- <-]. exists [tl]. split; [|done].
        by apply prefix_cons, prefix_nil.
      * destruct (exec respond (removeOrphans pairings rest) w1)
          as [[o1 w2] tr1] eqn:Hx.
        intros [= <- <- <-].
        apply IH in Hx as (deleted & Hpre & Hslugs & Hret).
        exists (tl :: deleted). split; [by apply prefix_cons|]. split.
        { rewrite deletedSlugs_cons. simpl. by rewrite Hslugs. }
        intros Ho. destruct (Hret Ho) as [-> ->]. done.
Qed.

Lemma exec_syncLists {World : Type}
    (respond : forall c : call, World -> answer c * World)
    (u : user) (w w' : World) (o : outcome unit) (tr : list event) :
  exec respond (syncLists u) w = (o, w', tr) ->
  exists traktLists deleted,
    deleted `prefix_of` orphans (lists u) traktLists
    /\ deletedSlugs tr = slugOf <$> deleted
    /\ (deleted = [] \/ Ev TraktListsGet (traktLists, None) ∈ tr)
    /\ (o = Returned tt ->
        deleted = orphans (lists u) traktLists
        /\ exists w1 tr1,
          exec respond (syncListsLoop (lists u)) w = (Returned tt, w1, tr1)
          /\ Forall (fun ev => ev_call ev <> TraktListsGet
                               /\ forall slug, ev_call ev <> TraktListRemove slug) tr1
          /\ tr = tr1 ++ Ev TraktListsGet (traktLists, None)
                         :: (listRemoved <$> orphans (lists u) traktLists)).
Proof.
  unfold syncLists. rewrite exec_bind.
  pose proof (onlyCalls_exec respond
                (fun c => c <> TraktListsGet /\ forall slug, c <> TraktListRemove slug)
                (syncListsLoop (lists u)) w) as Hloop.
  destruct (exec respond (syncListsLoop (lists u)) w) as [[o1 w1] tr1].
  simpl in Hloop.
  assert (Hquiet : Forall (fun ev => ev_call ev <> TraktListsGet
                               /\ forall slug, ev_call ev <> TraktListRemove slug) tr1)
    by (apply Hloop, onlyCalls_syncListsLoop; done).
  assert (Hnone : deletedSlugs tr1 = []).
  { apply deletedSlugs_none. eapply Forall_impl; [exact Hquiet|].
    simpl. by intros ev [_ ?]. }
  clear Hloop.
  destruct o1 as [[]|e|m e|].
  2,3,4: intros [= <- <- <-]; exists [], []; (split; [apply prefix_nil|]);
         (split; [exact Hnone|]); (split; [by left|done]).
  simpl. destruct (respond TraktListsGet w1) as [[traktLists [e|]] w2]; simpl.
  { intros [= <- <- <-]. exists [], []. split; [apply prefix_nil|].
    split; [|split; [by left|done]]. rewrite deletedSlugs_app, Hnone. done. }
  destruct (exec respond (removeOrphans (lists u) traktLists) w2)
    as [[o2 w3] tr2] eqn:Hx.
  intros [= <- <- <-].
  apply exec_removeOrphans in Hx as (deleted & Hpre & Hslugs & Hret).
  exists traktLists, deleted. split; [done|]. split.
  { rewrite deletedSlugs_app, Hnone. rewrite app_nil_l, deletedSlugs_cons.
    exact Hslugs. }
  split; [right; apply elem_of_app; right; apply list_elem_of_here|].
  intros Ho. destruct (Hret Ho) as [-> ->]. split; [done|]. exists w1, tr1. done.
Qed.

(** C4: in any execution of [syncLists], the mirror lists deleted are, in
    order and one [ListRemove] call each, a prefix of the orphans among the
    lists [ListsGet] returned (the lists whose name is the display name of
    no pairing); a list whose name matches a pairing, the watchlist pairing
    included, is not deleted.  When [syncLists] returns, it has first
    processed every pairing (without fetching or deleting a list), then
    fetched the mirror lists once, then deleted every orphan exactly
    once. *)
Theorem orphan_lists_are_deleted_once {World : Type}
    (respond : forall c : call, World -> answer c * World)
    (u : user) (w w' : World) (o : outcome unit) (tr : list event) :
  exec respond (syncLists u) w = (o, w', tr) ->
  exists traktLists deleted,
    deleted `prefix_of` orphans (lists u) traktLists
    /\ deletedSlugs tr = slugOf <$> deleted
    /\ (deleted = [] \/ Ev TraktListsGet (traktLists, None) ∈ tr)
    /\ (forall traktList,
          traktList ∈ deleted ->
          traktList ∈ traktLists
          /\ forall dp, dp ∈ lists u ->
                        DataPair.ImdbListName dp <> TraktList.Name traktList)
    /\ (forall dp traktList,
          dp ∈ lists u -> DataPair.IsWatchlist dp = true ->
          traktList ∈ deleted ->
          TraktList.Name traktList <> DataPair.ImdbListName dp)
    /\ (o = Returned tt ->
        deleted = orphans (lists u) traktLists
        /\ exists w1 tr1,
             exec respond (syncListsLoop (lists u)) w = (Returned tt, w1, tr1)
             /\ Forall (fun ev => ev_call ev <> TraktListsGet
                                  /\ forall slug, ev_call ev <> TraktListRemove slug) tr1
             /\ tr = tr1 ++ Ev TraktListsGet (traktLists, None)
                            :: (listRemoved <$> orphans (lists u) traktLists)).
Proof.
  intros Hx. apply exec_syncLists in Hx
    as (traktLists & deleted & Hpre & Hslugs & Hfetched & Hret).
  exists traktLists, deleted.
  assert (Horphan : forall traktList,
             traktList ∈ deleted ->
             traktList ∈ traktLists
             /\ forall dp, dp ∈ lists u ->
                           DataPair.ImdbListName dp <> TraktList.Name traktList).
  { intros tl Hin. destruct Hpre as [rest Hpre].
    assert (Ho : tl ∈ orphans (lists u) traktLists)
      by (rewrite Hpre; apply elem_of_app; by left).
    apply list_elem_of_filter in Ho as [Hname Hin']. split; [done|].
    intros dp Hdp Heq. apply Hname. apply list_elem_of_fmap. eauto. }
  split; [done|]. split; [done|]. split; [done|]. split; [done|]. split.
  - intros dp tl Hdp _ Hin Heq. destruct (Horphan tl Hin) as [_ Hn].
    by apply (Hn dp).
  - exact Hret.
Qed.

(** ** cleanupLists *)

Lemma elem_of_dedup (seen ids : list string) (id : string) :
  id ∈ dedup seen ids <-> id ∈ ids /\ id ∉ seen.
Proof.
  revert seen. induction ids as [|x rest IH]; intros seen; simpl.
  - split; [by intros ?%elem_of_nil|]. by intros [?%elem_of_nil _].
  - destruct (decide (x ∈ seen)) as [Hx|Hx].
    + rewrite IH, elem_of_cons. split; [prop_solver|].
      intros [[->|?] ?]; [done|prop_solver].
    + rewrite !elem_of_cons, IH, elem_of_cons. split.
      * intros [->|[? ?]]; [prop_solver|]. prop_solver.
      * intros [[->|?] ?]; [prop_solver|].
        destruct (decide (id = x)) as [->|?]; prop_solver.
Qed.

Lemma NoDup_dedup (seen ids : list string) : NoDup (dedup seen ids).
Proof.
  revert seen. induction ids as [|x rest IH]; intros seen; simpl.
  - constructor.
  - destruct (decide (x ∈ seen)); [apply IH|].
    constructor; [|apply IH]. rewrite elem_of_dedup, elem_of_cons. prop_solver.
Qed.

Lemma sublist_dedup (seen ids : list string) : dedup seen ids `sublist_of` ids.
Proof.
  revert seen. induction ids as [|x rest IH]; intros seen; simpl.
  - constructor.
  - destruct (decide (x ∈ seen)).
    + by apply sublist_cons.
    + by apply sublist_skip.
Qed.

Lemma dedup_ext (s1 s2 ids : list string) :
  (forall id : string, id ∈ s1 <-> id ∈ s2) -> dedup s1 ids = dedup s2 ids.
Proof.
  revert s1 s2. induction ids as [|a ids IH]; intros s1 s2 Heq; simpl; [done|].
  destruct (decide (a ∈ s1)) as [H1|H1]; destruct (decide (a ∈ s2)) as [H2|H2].
  - by apply IH.
  - by apply Heq in H1.
  - by apply Heq in H2.
  - f_equal. apply IH. intros id. rewrite !elem_of_cons, Heq. done.
Qed.

(** First occurrence wins: the head comes first, the rest is deduplicated
    without it. *)
Lemma dedup_filter (seen ids : list string) (x : string) :
  dedup (x :: seen) ids = dedup seen (filter (fun id => id <> x) ids).
Proof.
  revert seen. induction ids as [|y rest IH]; intros seen; simpl; [done|].
  rewrite filter_cons. destruct (decide (y = x)) as [->|Hyx].
  - rewrite decide_True by apply list_elem_of_here.
    rewrite decide_False by (intros H; by apply H). apply IH.
  - rewrite (decide_True (P := y <> x)) by done. simpl.
    destruct (decide (y ∈ seen)) as [Hy|Hy].
    + rewrite decide_True by (by apply list_elem_of_further). apply IH.
    + rewrite decide_False by (rewrite elem_of_cons; prop_solver).
      f_equal. rewrite <- IH. apply dedup_ext.
      intros id. rewrite !elem_of_cons. prop_solver.
Qed.

Lemma firstOccurrences_cons (x : string) (ids : list string) :
  firstOccurrences (x :: ids)
  = x :: firstOccurrences (filter (fun id => id <> x) ids).
Proof.
  unfold firstOccurrences. simpl.
  destruct (decide (x ∈ [])) as [H%elem_of_nil|_]; [done|].
  by rewrite dedup_filter.
Qed.

Lemma isNotFound_spec (e : error) :
  isNotFound e = true <-> errorsAs e = Some StatusNotFound.
Proof.
  unfold isNotFound. destruct (errorsAs e) as [code|]; [|done].
  case_bool_decide; [by subst|]. split; [done|]. by intros [= ->].
Qed.

Lemma fetchedIds_cons (ev : event) (tr : list event) :
  fetchedIds (ev :: tr)
  = match ev_call ev with
    | ImdbListItemsGet listId => listId :: fetchedIds tr
    | _ => fetchedIds tr
    end.
Proof. unfold fetchedIds. simpl. by destruct (ev_call ev). Qed.

Lemma foundPairings_cons (ev : event) (tr : list event) :
  foundPairings (ev :: tr)
  = match foundPairing ev with
    | Some dp => dp :: foundPairings tr
    | None => foundPairings tr
    end.
Proof. reflexivity. Qed.

Lemma exec_cleanupLoop {World : Type}
    (respond : forall c : call, World -> answer c * World)
    (todo : list DataPair.t) (seenMap : gmap string bool) (seen : list string)
    (slots : list DataPair.t) (n : nat) (w w' : World)
    (o : outcome (list DataPair.t)) (tr : list event) :
  (forall id, is_Some (seenMap !! id) <-> id ∈ seen) ->
  (n + length todo <= length slots)%nat ->
  exec respond (cleanupLoop todo seenMap slots n) w = (o, w', tr) ->
  fetchedIds tr `prefix_of` dedup seen (DataPair.ImdbListId <$> todo)
  /\ (forall ls, o = Returned ls ->
        ls = take n slots ++ foundPairings tr
        /\ fetchedIds tr = dedup seen (DataPair.ImdbListId <$> todo)
        /\ Forall (fun ev => forall e, fetchError ev = Some e -> isNotFound e = true) tr)
  /\ (forall ev e, ev ∈ tr -> fetchError ev = Some e -> isNotFound e = false ->
        o = Failed (cleanupFailure e))
  /\ (forall e, o = Failed e ->
        exists ev e0, ev ∈ tr /\ fetchError ev = Some e0
                      /\ isNotFound e0 = false /\ e = cleanupFailure e0)
  /\ (forall m e, o <> Exited m e)
  /\ (o = Panicked ->
      exists listId items, Ev (ImdbListItemsGet listId) (None, items, None) ∈ tr).
Proof.
  revert seenMap seen slots n w tr.
  induction todo as [|dp rest IH]; intros seenMap seen slots n w tr Hseen Hroom; simpl.
  { intros [= <- <- <-]. split; [apply prefix_nil|]. split.
    { intros ls [= <-]. rewrite app_nil_r. by repeat split. }
    split; [by intros ev e ?%elem_of_nil|]. by repeat split. }
  simpl in Hroom.
  destruct (seenMap !! DataPair.ImdbListId dp) as [b|] eqn:Hlook.
  { rewrite decide_True by (apply Hseen; eauto).
    apply IH; [done|lia]. }
  assert (Hfresh : DataPair.ImdbListId dp ∉ seen).
  { intros Hin%Hseen. rewrite Hlook in Hin. by destruct Hin. }
  rewrite decide_False by done.
  assert (Hseen' : forall id, is_Some (<[DataPair.ImdbListId dp := true]> seenMap !! id)
                              <-> id ∈ DataPair.ImdbListId dp :: seen).
  { intros id. rewrite elem_of_cons, <- Hseen.
    destruct (decide (DataPair.ImdbListId dp = id)) as [->|Hne].
    - rewrite lookup_insert_eq. split; [by left|eauto].
    - rewrite lookup_insert_ne by done. split; [by right|]. by intros [?|?]. }
  simpl.
  destruct (respond (ImdbListItemsGet (DataPair.ImdbListId dp)) w)
    as [[[name items] err] w1] eqn:Hr. simpl.
  destruct err as [e|].
  - (* the fetch failed *)
    destruct (isNotFound e) eqn:Hnf.
    + (* not found: warn and go on *)
      apply isNotFound_spec in Hnf as Has. rewrite Has.
      rewrite bool_decide_eq_true_2 by done. simpl.
      destruct (respond (LoggerWarn _ _) w1) as [[] w2].
      destruct (exec respond (cleanupLoop rest _ slots n) w2) as [[o1 w3] tr1] eqn:Hx.
      intros [= <- <- <-].
      apply (IH _ (DataPair.ImdbListId dp :: seen)) in Hx
        as (Hpre & Hret & Hfatal & Hfail & Hexit & Hpanic); [|done|lia].
      rewrite !fetchedIds_cons. simpl. split; [by apply prefix_cons|]. split.
      { intros ls Ho. destruct (Hret ls Ho) as (-> & -> & Hall).
        split; [by destruct name|].
        split; [done|].
        constructor; [simpl; by intros ? [= <-]|]. constructor; [done|done]. }
      split.
      { intros ev e0 [->|[->|Hin]%elem_of_cons]%elem_of_cons; simpl.
        - intros [= <-]. congruence.
        - done.
        - by apply Hfatal. }
      split.
      { intros e0 Ho. destruct (Hfail e0 Ho) as (ev & e1 & Hin & ?).
        exists ev, e1. split; [|done]. by do 2 apply list_elem_of_further. }
      split; [done|].
      intros Ho. destruct (Hpanic Ho) as (listId & items' & Hin).
      exists listId, items'. by do 2 apply list_elem_of_further.
    + (* any other error: fail *)
      assert (Has : match errorsAs e with
                    | Some code => bool_decide (code = StatusNotFound) = false
                    | None => True
                    end).
      { unfold isNotFound in Hnf. by destruct (errorsAs e). }
      assert (Hthrow : forall X,
                X = (Failed (cleanupFailure e), w1,
                     [Ev (ImdbListItemsGet (DataPair.ImdbListId dp))
                         (name, items, Some e)]) ->
                X = (o, w', tr) -> o = Failed (cleanupFailure e)
                /\ tr = [Ev (ImdbListItemsGet (DataPair.ImdbListId dp))
                            (name, items, Some e)]).
      { intros X -> [= <- <- <-]. done. }
      intros Hexec. apply Hthrow in Hexec as [-> ->];
        [|destruct (errorsAs e) as [code|]; [rewrite Has|]; reflexivity].
      rewrite fetchedIds_cons. simpl.
      split; [by apply prefix_cons, prefix_nil|]. split; [done|]. split.
      { intros ev e0 [->|Hin%elem_of_nil]%elem_of_cons; [|done]. simpl.
        by intros [= <-]. }
      split.
      { intros e0 [= <-]. eexists _, e. split; [apply list_elem_of_here|]. done. }
      split; done.
  - (* the list was found *)
    destruct name as [name|].
    + rewrite bool_decide_eq_true_2 by lia.
      set (found := {| DataPair.ImdbList := items;
                       DataPair.ImdbListId := DataPair.ImdbListId dp;
                       DataPair.ImdbListName := name;
                       DataPair.TraktList := [];
                       DataPair.TraktListId := FormatTraktListName name;
                       DataPair.IsWatchlist := false |}).
      destruct (exec respond (cleanupLoop rest _ (<[n:=found]> slots) (S n)) w1)
        as [[o1 w3] tr1] eqn:Hx.
      intros [= <- <- <-].
      apply (IH _ (DataPair.ImdbListId dp :: seen)) in Hx
        as (Hpre & Hret & Hfatal & Hfail & Hexit & Hpanic);
        [|done|rewrite length_insert; lia].
      rewrite fetchedIds_cons. simpl. split; [by apply prefix_cons|]. split.
      { intros ls Ho. destruct (Hret ls Ho) as (-> & -> & Hall).
        split; [|split; [done|by constructor]].
        rewrite (take_S_r _ _ found) by (apply list_lookup_insert_eq; lia).
        rewrite take_insert_ge by lia. by rewrite <- app_assoc. }
      split.
      { intros ev e0 [->|Hin]%elem_of_cons; [done|]. by apply Hfatal. }
      split.
      { intros e0 Ho. destruct (Hfail e0 Ho) as (ev & e1 & Hin & ?).
        exists ev, e1. split; [|done]. by apply list_elem_of_further. }
      split; [done|].
      intros Ho. destruct (Hpanic Ho) as (listId & items' & Hin).
      exists listId, items'. by apply list_elem_of_further.
    + intros [= <- <- <-]. rewrite fetchedIds_cons. simpl.
      split; [by apply prefix_cons, prefix_nil|]. split; [done|]. split.
      { intros ev e0 [->|Hin%elem_of_nil]%elem_of_cons; done. }
      split; [done|]. split; [done|]. intros _.
      exists (DataPair.ImdbListId dp), items. apply list_elem_of_here.
Qed.

Lemma foundPairing_id (ev : event) (dp : DataPair.t) :
  foundPairing ev = Some dp ->
  ev_call ev = ImdbListItemsGet (DataPair.ImdbListId dp)
  /\ fetchError ev = None /\ DataPair.IsWatchlist dp = false.
Proof.
  destruct ev as [c r]. destruct c; try done. simpl in *.
  destruct r as [[[name|] items] [e|]]; try done. by intros [= <-].
Qed.

Lemma foundPairings_ids (tr : list event) :
  DataPair.ImdbListId <$> foundPairings tr `sublist_of` fetchedIds tr.
Proof.
  induction tr as [|ev tr IH]; [done|].
  rewrite foundPairings_cons, fetchedIds_cons.
  destruct (foundPairing ev) as [dp|] eqn:Hf.
  - apply foundPairing_id in Hf as (-> & _). simpl. by apply sublist_skip.
  - destruct (ev_call ev); try done. by apply sublist_cons.
Qed.


Lemma exec_cleanupLists {World : Type}
    (respond : forall c : call, World -> answer c * World)
    (userLists : list DataPair.t) (w w' : World)
    (o : outcome (list DataPair.t)) (tr : list event) :
  exec respond (cleanupLists userLists) w = (o, w', tr) ->
  fetchedIds tr `prefix_of` firstOccurrences (DataPair.ImdbListId <$> userLists)
  /\ (forall ls, o = Returned ls ->
        ls = foundPairings tr
        /\ fetchedIds tr = firstOccurrences (DataPair.ImdbListId <$> userLists)
        /\ Forall (fun ev => forall e, fetchError ev = Some e -> isNotFound e = true) tr)
  /\ (forall ev e, ev ∈ tr -> fetchError ev = Some e -> isNotFound e = false ->
        o = Failed (cleanupFailure e))
  /\ (forall e, o = Failed e ->
        exists ev e0, ev ∈ tr /\ fetchError ev = Some e0
                      /\ isNotFound e0 = false /\ e = cleanupFailure e0)
  /\ (forall m e, o <> Exited m e)
  /\ (o = Panicked ->
      exists listId items, Ev (ImdbListItemsGet listId) (None, items, None) ∈ tr).
Proof.
  unfold cleanupLists, firstOccurrences. intros Hx.
  apply (exec_cleanupLoop respond _ _ []) in Hx; cycle 1.
  { intros id. rewrite lookup_empty. split; [by intros [? ?]|by intros ?%elem_of_nil]. }
  { rewrite length_replicate. simpl. lia. }
  by rewrite take_0 in Hx.
Qed.

Lemma exec_Run_cleanup_failed {World : Type}
    (respond : forall c : call, World -> answer c * World)
    (u : user) (w w' : World) (tr : list event) (e : error) :
  lists u <> [] ->
  exec respond (cleanupLists (lists u)) w = (Failed e, w', tr) ->
  exec respond (Run u) w
  = (Exited "failure hydrating imdb client"
       (Wrapped "failure cleaning up imdb lists" e), w', tr).
Proof.
  intros Hne Hc. unfold Run, orFatal. rewrite exec_bind, exec_onError.
  unfold hydrate. rewrite exec_bind. unfold sourceLists.
  rewrite bool_decide_eq_true_2 by (by destruct (lists u)).
  unfold wrapError. rewrite exec_onError, Hc. simpl. by rewrite !app_nil_r.
Qed.

(** C6: [cleanupLists] fetches the identifiers of its input in the order of
    their first occurrence, each at most once (all of them when it
    returns).  When it returns, the pairings are exactly those of the
    fetches that found their list, one per identifier, and every fetch
    error was a not-found.  A fetch error that is not a not-found makes it
    fail with that error, and it fails for no other reason; the run then
    exits with it.  For the input
    [A, A, B] with both lists found it fetches A, then B, and returns the
    two pairings. *)
Theorem cleanupLists_dedups_and_drops_not_found {World : Type}
    (respond : forall c : call, World -> answer c * World)
    (userLists : list DataPair.t) (w w' : World)
    (o : outcome (list DataPair.t)) (tr : list event) :
  exec respond (cleanupLists userLists) w = (o, w', tr) ->
  let ids := DataPair.ImdbListId <$> userLists in
  fetchedIds tr `prefix_of` firstOccurrences ids
  /\ NoDup (fetchedIds tr)
  /\ (forall id, id ∈ firstOccurrences ids <-> id ∈ ids)
  /\ firstOccurrences ids `sublist_of` ids
  /\ (forall ls, o = Returned ls ->
        ls = foundPairings tr
        /\ fetchedIds tr = firstOccurrences ids
        /\ NoDup (DataPair.ImdbListId <$> ls)
        /\ Forall (fun ev => forall e, fetchError ev = Some e
                                       -> isNotFound e = true) tr)
  /\ (forall ev e, ev ∈ tr -> fetchError ev = Some e -> isNotFound e = false ->
        o = Failed (cleanupFailure e))
  /\ (forall e, o = Failed e ->
        exists ev e0, ev ∈ tr /\ fetchError ev = Some e0
                      /\ isNotFound e0 = false /\ e = cleanupFailure e0)
  /\ (forall u e, lists u = userLists -> userLists <> [] -> o = Failed e ->
        exec respond (Run u) w
        = (Exited "failure hydrating imdb client"
             (Wrapped "failure cleaning up imdb lists" e), w', tr))
  /\ (forall a b nameA itemsA nameB itemsB w1 w2,
        ids = [a; a; b] -> a <> b ->
        respond (ImdbListItemsGet a) w = ((Some nameA, itemsA, None), w1) ->
        respond (ImdbListItemsGet b) w1 = ((Some nameB, itemsB, None), w2) ->
        fetchedIds tr = [a; b]
        /\ o = Returned
                 [ {| DataPair.ImdbList := itemsA; DataPair.ImdbListId := a;
                      DataPair.ImdbListName := nameA; DataPair.TraktList := [];
                      DataPair.TraktListId := FormatTraktListName nameA;
                      DataPair.IsWatchlist := false |};
                   {| DataPair.ImdbList := itemsB; DataPair.ImdbListId := b;
                      DataPair.ImdbListName := nameB; DataPair.TraktList := [];
                      DataPair.TraktListId := FormatTraktListName nameB;
                      DataPair.IsWatchlist := false |} ]).
Proof.
  intros Hexec ids.
  pose proof (exec_cleanupLists respond _ _ _ _ _ Hexec)
    as (Hpre & Hret & Hfatal & Hfail & _ & _). fold ids in Hpre, Hret.
  assert (Hnd : NoDup (fetchedIds tr)).
  { destruct Hpre as [rest Hpre].
    pose proof (NoDup_dedup [] ids) as Hn. fold (firstOccurrences ids) in Hn.
    rewrite Hpre in Hn. by apply NoDup_app in Hn as [? _]. }
  split; [done|]. split; [done|]. split.
  { intros id. unfold firstOccurrences. rewrite elem_of_dedup.
    split; [prop_solver|]. intros ?. split; [done|]. apply not_elem_of_nil. }
  split; [apply sublist_dedup|]. split.
  { intros ls Ho. destruct (Hret ls Ho) as (-> & Hall & Hnf).
    split; [done|]. split; [done|]. split; [|done].
    eapply sublist_NoDup; [exact Hnd|apply foundPairings_ids]. }
  split; [done|]. split; [done|]. split.
  { intros u e Hu Hne ->. apply exec_Run_cleanup_failed; by rewrite Hu. }
  intros a b nameA itemsA nameB itemsB w1 w2 Hids Hab HrA HrB.
  destruct userLists as [|dp1 [|dp2 [|dp3 [|]]]]; try done.
  injection Hids as Ha1 Ha2 Hb. clear Hpre Hret Hfatal Hfail Hnd.
  unfold cleanupLists in Hexec. simpl in Hexec.
  rewrite lookup_empty, Ha1 in Hexec. simpl in Hexec. rewrite HrA in Hexec.
  simpl in Hexec. rewrite Ha2, lookup_insert_eq in Hexec.
  rewrite Hb, lookup_insert_ne, lookup_empty in Hexec by done.
  simpl in Hexec. rewrite HrB in Hexec. simpl in Hexec.
  injection Hexec as <- <- <-. done.
Qed.

(** ** hydrate *)

Lemma exec_hydrateList_shape {World : Type}
    (respond : forall c : call, World -> answer c * World)
    (dp dp' : DataPair.t) (w w' : World) (tr : list event) :
  exec respond (hydrateList dp) w = (Returned dp', w', tr) ->
  exists traktList, dp' = DataPair.withTraktList dp traktList.
Proof.
  unfold hydrateList. destruct (DataPair.IsWatchlist dp); simpl.
  - destruct (respond TraktWatchlistItemsGet w) as [[items [e|]] w1]; simpl; [done|].
    intros [= <- <- <-]. eauto.
  - destruct (respond (TraktListItemsGet _) w) as [[items [e|]] w1]; simpl.
    + destruct (errorsAs e) as [code|]; [|done].
      case_bool_decide; [|done]. simpl.
      destruct (respond (LoggerWarn _ _) w1) as [[] w2].
      destruct (respond (TraktListAdd _ _) w2) as [[e'|] w3]; simpl; [done|].
      intros [= <- <- <-]. eauto.
    + intros [= <- <- <-]. eauto.
Qed.

Lemma exec_hydrateLists_shape {World : Type}
    (respond : forall c : call, World -> answer c * World)
    (dps dps' : list DataPair.t) (w w' : World) (tr : list event) :
  exec respond (hydrateLists dps) w = (Returned dps', w', tr) ->
  Forall2 (fun dp dp' => exists traktList, dp' = DataPair.withTraktList dp traktList)
          dps dps'.
Proof.
  revert dps' w tr. induction dps as [|dp rest IH]; intros dps' w tr; simpl.
  - intros [= <- <- <-]. constructor.
  - rewrite exec_bind.
    destruct (exec respond (hydrateList dp) w) as [[[dp'|e|m e|] w1] tr1] eqn:Hdp;
      try done.
    rewrite exec_bind.
    destruct (exec respond (hydrateLists rest) w1) as [[[rest'|e|m e|] w2] tr2] eqn:Hrest;
      try done.
    simpl. intros [= <- <- <-].
    constructor; [by eapply exec_hydrateList_shape|by eapply IH].
Qed.

(** What [hydrate] has done when it returns: the pairings came from
    [cleanupLists] (explicit identifiers) or from [ListsScrape] (full
    discovery), the watchlist pairing was appended, and the mirror side of
    every pairing was filled in. *)
Lemma exec_hydrate {World : Type}
    (respond : forall c : call, World -> answer c * World)
    (u u' : user) (w w' : World) (tr : list event) :
  exec respond (hydrate u) w = (Returned u', w', tr) ->
  exists sourced w1 tr1 watchlistId imdbList w2 w3 tr3 tr4,
    ((lists u <> []
      /\ exec respond (cleanupLists (lists u)) w = (Returned sourced, w1, tr1))
     \/ (lists u = []
         /\ respond ImdbListsScrape w = ((sourced, None), w1)
         /\ tr1 = [Ev ImdbListsScrape (sourced, None)]))
    /\ respond ImdbWatchlistGet w1 = ((Some watchlistId, imdbList, None), w2)
    /\ exec respond (hydrateLists (sourced ++ [watchlistPair watchlistId imdbList])) w2
       = (Returned (lists u'), w3, tr3)
    /\ tr = tr1 ++ Ev ImdbWatchlistGet (Some watchlistId, imdbList, None)
                   :: tr3 ++ tr4.
Proof.
  unfold hydrate. rewrite exec_bind.
  destruct (exec respond (sourceLists u) w) as [[[sourced|e|m e|] w1] tr1] eqn:Hsource;
    try done.
  simpl.
  destruct (respond ImdbWatchlistGet w1) as [[[[wid|] il] [e|]] w2] eqn:Hwl;
    simpl; try done.
  rewrite exec_bind.
  destruct (exec respond (hydrateLists _) w2) as [[[hydrated|e|m e|] w3] tr3] eqn:Hh;
    try done.
  simpl.
  destruct (respond ImdbRatingsGet w3) as [[ir [e|]] w4]; simpl; [done|].
  destruct (respond TraktRatingsGet w4) as [[trk [e|]] w5]; simpl; [done|].
  intros [= <- <- <-]. simpl.
  exists sourced, w1, tr1, wid, il, w2, w3, tr3.
  eexists. split; [|split; [done|split; [done|reflexivity]]].
  unfold sourceLists in Hsource. case_bool_decide as Hlen.
  - left. split; [by destruct (lists u)|].
    unfold wrapError in Hsource. rewrite exec_onError in Hsource.
    destruct (exec respond (cleanupLists (lists u)) w) as [[[ls|e|m e|] wa] ta];
      done.
  - right. split; [by destruct (lists u)|].
    simpl in Hsource.
    destruct (respond ImdbListsScrape w) as [[dps [e|]] wa]; simpl in Hsource;
      [done|]. by injection Hsource as -> -> <-.
Qed.

Lemma hydrated_lists {World : Type}
    (respond : forall c : call, World -> answer c * World)
    (u u' : user) (w w' : World) (tr : list event) :
  exec respond (hydrate u) w = (Returned u', w', tr) ->
  exists sourced init watchlistId imdbList traktWatchlist,
    lists u' = init ++ [DataPair.withTraktList
                          (watchlistPair watchlistId imdbList) traktWatchlist]
    /\ Forall2 (fun dp dp' => exists traktList,
                                dp' = DataPair.withTraktList dp traktList)
               sourced init
    /\ ((lists u <> [] /\ exists w1 tr1,
           exec respond (cleanupLists (lists u)) w = (Returned sourced, w1, tr1))
        \/ (lists u = [] /\ Ev ImdbListsScrape (sourced, None) ∈ tr)).
Proof.
  intros Hx. apply exec_hydrate in Hx
    as (sourced & w1 & tr1 & wid & il & w2 & w3 & tr3 & tr4 & Hsrc & Hwl & Hh & ->).
  apply exec_hydrateLists_shape in Hh.
  apply Forall2_app_inv_l in Hh as (init & last & Hinit & Hlast & Heq).
  apply Forall2_cons_inv_l in Hlast as (wl & rest & [tl ->] & Hrest & ->).
  apply Forall2_nil_inv_l in Hrest as ->.
  exists sourced, init, wid, il, tl. split; [done|]. split; [done|].
  destruct Hsrc as [[Hne Hc]|(Hnil & Hr & ->)].
  - left. eauto.
  - right. split; [done|]. apply list_elem_of_here.
Qed.





(** Whatever [hydrate] returned, [syncLists] on it deletes no mirror list
    named "watchlist". *)
Lemma syncLists_spares_watchlist {World World' : Type}
    (respond : forall c : call, World -> answer c * World)
    (respond' : forall c : call, World' -> answer c * World')
    (u u' : user) (w w1 : World) (tr1 : list event)
    (w' w2 : World') (o : outcome unit) (tr2 : list event) :
  exec respond (hydrate u) w = (Returned u', w1, tr1) ->
  exec respond' (syncLists u') w' = (o, w2, tr2) ->
  contains (lists u') "watchlist" = true
  /\ exists traktLists deleted,
       deleted `prefix_of` orphans (lists u') traktLists
       /\ deletedSlugs tr2 = slugOf <$> deleted
       /\ (deleted = [] \/ Ev TraktListsGet (traktLists, None) ∈ tr2)
       /\ Forall (fun traktList => TraktList.Name traktList <> "watchlist") deleted.
Proof.
  intros Hh Hs.
  apply hydrated_lists in Hh as (sourced & init & wid & il & tl & Heq & _ & _).
  assert (Hname : "watchlist" ∈ DataPair.ImdbListName <$> lists u').
  { rewrite Heq, fmap_app. apply elem_of_app. right. apply list_elem_of_here. }
  split; [by apply contains_spec|].
  apply exec_syncLists in Hs as (traktLists & deleted & Hpre & Hslugs & Hfetched & _).
  exists traktLists, deleted. split; [done|]. split; [done|]. split; [done|].
  apply Forall_forall. intros traktList Hin Hwl.
  destruct Hpre as [rest Hpre].
  assert (Ho : traktList ∈ orphans (lists u') traktLists)
    by (rewrite Hpre; apply elem_of_app; by left).
  apply list_elem_of_filter in Ho as [Hn _]. apply Hn. by rewrite Hwl.
Qed.

Lemma exec_hydrateLists_cons {World : Type}
    (respond : forall c : call, World -> answer c * World)
    (dp : DataPair.t) (post : list DataPair.t) (w : World) :
  exec respond (hydrateLists (dp :: post)) w =
    match exec respond (hydrateList dp) w with
    | (Returned dp', w1, t1) =>
        let '(o, w2, t2) := exec respond (hydrateLists post) w1 in
        (outcome_map (cons dp') o, w2, t1 ++ t2)
    | (Failed e, w1, t1) => (Failed e, w1, t1)
    | (Exited m e, w1, t1) => (Exited m e, w1, t1)
    | (Panicked, w1, t1) => (Panicked, w1, t1)
    end.
Proof.
  simpl. rewrite exec_bind.
  destruct (exec respond (hydrateList dp) w) as [[[dp'|e|m e|] w1] t1]; try done.
  rewrite exec_bind.
  destruct (exec respond (hydrateLists post) w1) as [[[post'|e|m e|] w2] t2];
    simpl; try done. by rewrite app_nil_r.
Qed.




(** ** Run *)

Lemma hydrate_never_deletes (u : user) : onlyCalls notListRemove (hydrate u).
Proof.
  unfold hydrate. apply onlyCalls_bind.
  - unfold sourceLists. case_bool_decide.
    + apply onlyCalls_onError; [|intros; constructor].
      apply onlyCalls_cleanupLoop; done.
    + simpl. constructor; [done|]. intros [dps [e|]]; simpl; constructor.
  - intros dps. constructor; [done|]. intros [[wid items] err]. simpl.
    destruct err; simpl; [constructor|].
    destruct wid as [wid|]; [|constructor].
    apply onlyCalls_bind; [apply onlyCalls_hydrateLists; done|].
    intros dps'. constructor; [done|]. intros [items' err]. simpl.
    destruct err; simpl; [constructor|].
    constructor; [done|]. intros [items'' err]. simpl.
    destruct err; simpl; constructor.
Qed.

Lemma onlyCalls_historyRemoveScan (P : call -> Prop) items acc :
  (forall itemType itemId, P (TraktHistoryGet itemType itemId)) ->
  onlyCalls P (historyRemoveScan items acc).
Proof.
  intros Hget. revert acc. induction items as [|item rest IH]; intros acc; simpl.
  - constructor.
  - destruct (GetItemId item) as [e|itemId]; [constructor|].
    constructor; [apply Hget|]. intros [history [e|]]; simpl; [constructor|].
    case_bool_decide; apply IH.
Qed.

Lemma syncRatings_never_deletes (u : user) :
  onlyCalls notListRemove (syncRatings u).
Proof.
  unfold syncRatings. apply onlyCalls_bind; [|intros _; apply onlyCalls_bind].
  - unfold syncRatingsAdd. case_bool_decide; [|constructor]. simpl.
    constructor; [done|]. intros [e|]; simpl; [constructor|].
    apply onlyCalls_bind; [by apply onlyCalls_historyAddScan|].
    intros batch. case_bool_decide; [|constructor]. simpl.
    constructor; [done|]. intros err. apply onlyCalls_check.
  - unfold syncRatingsRemove. case_bool_decide; [|constructor]. simpl.
    constructor; [done|]. intros [e|]; simpl; [constructor|].
    apply onlyCalls_bind; [by apply onlyCalls_historyRemoveScan|].
    intros batch. case_bool_decide; [|constructor]. simpl.
    constructor; [done|]. intros err. apply onlyCalls_check.
  - intros _. unfold syncRatingsUpdate. case_bool_decide; [|constructor]. simpl.
    constructor; [done|]. intros err. apply onlyCalls_check.
Qed.

Lemma deletedSlugs_onlyCalls {World : Type}
    (respond : forall c : call, World -> answer c * World)
    {A : Type} (p : Prog A) (w : World) :
  onlyCalls notListRemove p -> deletedSlugs (exec respond p w).2 = [].
Proof.
  intros Hp. apply deletedSlugs_none.
  by apply (onlyCalls_exec respond notListRemove).
Qed.

(** A run is [hydrate], then [syncLists] on what it returned, then calls
    that delete no list. *)
Lemma exec_Run {World : Type}
    (respond : forall c : call, World -> answer c * World)
    (u : user) (w w' : World) (o : outcome unit) (tr : list event) :
  exec respond (Run u) w = (o, w', tr) ->
  deletedSlugs tr = []
  \/ exists u' w1 t1 o2 w2 t2 t3,
       exec respond (hydrate u) w = (Returned u', w1, t1)
       /\ exec respond (syncLists u') w1 = (o2, w2, t2)
       /\ tr = t1 ++ t2 ++ t3
       /\ deletedSlugs tr = deletedSlugs t2.
Proof.
  unfold Run, orFatal. rewrite exec_bind, exec_onError.
  pose proof (deletedSlugs_onlyCalls respond (hydrate u) w
                (hydrate_never_deletes u)) as Hh.
  destruct (exec respond (hydrate u) w) as [[[u'|e|m e|] w1] t1]; simpl in *.
  2,3,4: intros [= <- <- <-]; left; by rewrite ?app_nil_r.
  rewrite exec_bind, exec_onError.
  destruct (exec respond (syncLists u') w1) as [[o2 w2] t2] eqn:Hs.
  intros Hrun. right. exists u', w1, t1, o2, w2, t2.
  destruct o2 as [[]|e|m e|]; simpl in Hrun.
  2,3,4: injection Hrun as <- <- <-; exists [];
         rewrite ?app_nil_r; (split; [done|]); (split; [done|]);
         (split; [done|]); by rewrite deletedSlugs_app, Hh.
  rewrite exec_bind, exec_onError in Hrun.
  pose proof (deletedSlugs_onlyCalls respond (syncRatings u') w2
                (syncRatings_never_deletes u')) as Hr.
  destruct (exec respond (syncRatings u') w2) as [[[[]|e|m e|] w3] t3];
    simpl in *.
  2,3,4: injection Hrun as <- <- <-; exists t3; rewrite ?app_nil_r;
         (split; [done|]); (split; [done|]); (split; [done|]);
         by rewrite !deletedSlugs_app, Hh, Hr, app_nil_r.
  destruct (respond (LoggerInfo _) w3) as [[] w4].
  injection Hrun as <- <- <-.
  exists (t3 ++ [Ev (LoggerInfo "successfully synced trakt with imdb") tt]).
  split; [done|]. split; [done|]. split; [done|].
  rewrite !deletedSlugs_app, Hh, Hr. simpl. by rewrite app_nil_r.
Qed.

(** C10: in any run, whatever its outcome, no [ListRemove] call is for a
    mirror list named "watchlist".  The lists deleted are among those
    [ListsGet] returned in this run and are orphans of the hydrated
    pairings; [hydrate] appended the pairing whose display name is the
    literal "watchlist", [contains] finds it, and it compares names only, so
    a mirror list of that name is spared, whatever list it is. *)
Theorem list_named_watchlist_is_never_deleted {World : Type}
    (respond : forall c : call, World -> answer c * World)
    (u : user) (w w' : World) (o : outcome unit) (tr : list event) :
  exec respond (Run u) w = (o, w', tr) ->
  exists traktLists deleted,
    deletedSlugs tr = slugOf <$> deleted
    /\ Forall (fun traktList => TraktList.Name traktList <> "watchlist") deleted
    /\ (deleted = []
        \/ Ev TraktListsGet (traktLists, None) ∈ tr
           /\ exists u' w1 t1,
                exec respond (hydrate u) w = (Returned u', w1, t1)
                /\ contains (lists u') "watchlist" = true
                /\ deleted `prefix_of` orphans (lists u') traktLists).
Proof.
  intros Hrun. apply exec_Run in Hrun
    as [Hnone|(u' & w1 & t1 & o2 & w2 & t2 & t3 & Hh & Hs & -> & Hdel)].
  { exists [], []. split; [done|]. split; [constructor|by left]. }
  destruct (syncLists_spares_watchlist respond respond u u' w w1 t1 w1 w2 o2 t2 Hh Hs)
    as (Hcontains & traktLists & deleted & Hpre & Hslugs & Hfetched & Hnames).
  exists traktLists, deleted. split; [by rewrite Hdel|]. split; [done|].
  destruct Hfetched as [->|Hev]; [by left|]. right. split.
  - apply elem_of_app. right. apply elem_of_app. by left.
  - exists u', w1, t1. done.
Qed.
(** ** The discipline of the programs *)

Lemma wraps_refl (e : error) : wraps e e.
Proof. destruct e; by left. Qed.

Lemma wraps_Wrapped (msg : string) (outer inner : error) :
  wraps outer inner -> wraps (Wrapped msg outer) inner.
Proof. intros H. by right. Qed.

(** [errors.As] finds in a wrapper what it finds in the error wrapped. *)
Lemma wraps_errorsAs (outer inner : error) :
  wraps outer inner -> errorsAs outer = errorsAs inner.
Proof.
  induction outer as [code|vars|msg|msg outer IH]; simpl;
    intros [<-|H]; try done. by apply IH.
Qed.

(** The goal of a call whose error is returned wrapped at once. *)
Local Ltac thrown :=
  eexists; split; [by left | apply wraps_Wrapped, wraps_refl].

Lemma disciplined_mono (exits exits' : list string) (P P' : call -> bool)
    {A : Type} (p : Prog A) :
  (forall c, P c = true -> P' c = true) ->
  (forall msg, msg ∈ exits -> msg ∈ exits') ->
  disciplined exits P p -> disciplined exits' P' p.
Proof.
  intros HP Hex Hp.
  induction Hp as [a|e|m e Hm|c k Hc Hk Hnil Hd IH].
  - constructor.
  - constructor.
  - constructor. by apply Hex.
  - constructor; [by apply HP| |done|done].
    intros r e He. destruct (Hk r e He) as (e' & [Hthrow|(m & Hm & Hfatal)] & Hw).
    + exists e'. split; [by left|done].
    + exists e'. split; [|done]. right. exists m. split; [by apply Hex|done].
Qed.

Lemma disciplined_bind (exits : list string) (P : call -> bool) {A B : Type}
    (p : Prog A) (f : A -> Prog B) :
  disciplined exits P p -> (forall a, disciplined exits P (f a)) ->
  disciplined exits P (p ≫= f).
Proof.
  intros Hp Hf. unfold mbind, Prog_bind.
  induction Hp as [a|e|m e Hm|c k Hc Hk Hnil Hd IH]; simpl.
  - apply Hf.
  - constructor.
  - by constructor.
  - constructor; [done| | |done].
    + intros r e He. destruct (Hk r e He) as (e' & [->|(m & Hm & ->)] & Hw).
      * exists e'. split; [by left|done].
      * exists e'. split; [|done]. right. by exists m.
    + intros r Hr. by rewrite (Hnil r Hr).
Qed.

Lemma disciplined_wrapError (exits : list string) (P : call -> bool) {A : Type}
    (msg : string) (p : Prog A) :
  disciplined exits P p -> disciplined exits P (wrapError msg p).
Proof.
  intros Hp. unfold wrapError.
  induction Hp as [a|e|m e Hm|c k Hc Hk Hnil Hd IH]; simpl.
  - constructor.
  - constructor.
  - by constructor.
  - constructor; [done| | |done].
    + intros r e He. destruct (Hk r e He) as (e' & [->|(m & Hm & ->)] & Hw).
      * exists (Wrapped msg e'). split; [by left|]. by apply wraps_Wrapped.
      * exists e'. split; [|done]. right. by exists m.
    + intros r Hr. by rewrite (Hnil r Hr).
Qed.

Lemma disciplined_orFatal (exits : list string) (P : call -> bool) {A : Type}
    (msg : string) (p : Prog A) :
  msg ∈ exits ->
  disciplined exits P p -> disciplined exits P (orFatal msg p).
Proof.
  intros Hmsg Hp. unfold orFatal.
  induction Hp as [a|e|m e Hm|c k Hc Hk Hnil Hd IH]; simpl.
  - constructor.
  - by constructor.
  - by constructor.
  - constructor; [done| | |done].
    + intros r e He. destruct (Hk r e He) as (e' & [->|(m & Hm & ->)] & Hw).
      * exists e'. split; [|done]. right. by exists msg.
      * exists e'. split; [|done]. right. by exists m.
    + intros r Hr. by rewrite (Hnil r Hr).
Qed.

Lemma disciplined_check (exits : list string) (P : call -> bool)
    (msg : string) (err : option error) :
  disciplined exits P (check msg err).
Proof. destruct err; constructor. Qed.

(** A call that has no nil answer. *)
Lemma disciplined_call (exits : list string) (P : call -> bool) {A : Type}
    (c : call) (k : answer c -> Prog A) :
  P c = true ->
  (forall r, nilAnswer (Ev c r) = false) ->
  (forall r e, fatalError (Ev c r) = Some e ->
               exists e', (k r = Throw e'
                           \/ exists msg, msg ∈ exits /\ k r = Fatal msg e')
                          /\ wraps e' e) ->
  (forall r, disciplined exits P (k r)) ->
  disciplined exits P (Do c k).
Proof.
  intros Hc Hnil Hk Hd. constructor; [done|done| |done].
  intros r Hr. by rewrite Hnil in Hr.
Qed.

(** What the discipline gives on every execution. *)
Lemma disciplined_exec {World : Type}
    (respond : forall c : call, World -> answer c * World)
    (exits : list string) (P : call -> bool) {A : Type}
    (p : Prog A) (w w' : World) (o : outcome A) (tr : list event) :
  disciplined exits P p ->
  exec respond p w = (o, w', tr) ->
  Forall (fun ev => P (ev_call ev) = true) tr
  /\ (forall m e, o = Exited m e -> m ∈ exits)
  /\ Forall (fun ev => fatalError ev = None /\ nilAnswer ev = false)
            (removelast tr)
  /\ (forall ev e, ev ∈ tr -> fatalError ev = Some e ->
        exists e', (o = Failed e' \/ exists m, o = Exited m e') /\ wraps e' e)
  /\ (forall ev, ev ∈ tr -> nilAnswer ev = true -> o = Panicked)
  /\ (o = Panicked -> exists ev, last tr = Some ev /\ nilAnswer ev = true).
Proof.
  intros Hp. revert w w' o tr.
  induction Hp as [a|e|m e Hm|c k Hc Hk Hnil Hd IH]; intros w w' o tr; simpl.
  - intros [= <- <- <-]. repeat split; try done.
    + intros ev e Hin. by apply elem_of_nil in Hin.
    + intros ev Hin. by apply elem_of_nil in Hin.
  - intros [= <- <- <-]. repeat split; try done.
    + intros ev e0 Hin. by apply elem_of_nil in Hin.
    + intros ev Hin. by apply elem_of_nil in Hin.
  - intros [= <- <- <-]. repeat split; try done.
    + by intros m0 e0 [= <- _].
    + intros ev e0 Hin. by apply elem_of_nil in Hin.
    + intros ev Hin. by apply elem_of_nil in Hin.
  - destruct (respond c w) as [r w1].
    destruct (exec respond (k r) w1) as [[o1 w2] tr1] eqn:Hx.
    intros [= <- <- <-].
    assert (Hstop : forall e, fatalError (Ev c r) = Some e ->
              tr1 = []
              /\ exists e', (o1 = Failed e' \/ exists m, m ∈ exits /\ o1 = Exited m e')
                            /\ wraps e' e).
    { intros e He. destruct (Hk r e He) as (e' & [Hthrow|(m & Hm & Hthrow)] & Hw);
        rewrite Hthrow in Hx; simpl in Hx; injection Hx as <- _ <-.
      - split; [done|]. exists e'. split; [by left|done].
      - split; [done|]. exists e'. split; [|done]. right. by exists m. }
    destruct (nilAnswer (Ev c r)) eqn:Hr.
    { rewrite (Hnil r Hr) in Hx. simpl in Hx. injection Hx as <- _ <-.
      split; [by repeat constructor|]. split; [done|]. split; [constructor|].
      split; [|split].
      - intros ev e [->|Hin%elem_of_nil]%elem_of_cons He; [|done].
        by destruct (Hstop e He) as (_ & e' & [?|(? & ? & ?)] & _).
      - done.
      - intros _. by exists (Ev c r). }
    destruct (IH r Hr _ _ _ _ Hx)
      as (Hcalls & Hexit & Hquiet & Hfatal & Hnils & Hpanic).
    split; [by constructor|]. split; [done|].
    split; [|split; [|split]].
    + destruct tr1 as [|ev1 tr1]; [constructor|].
      change (removelast (Ev c r :: ev1 :: tr1))
        with (Ev c r :: removelast (ev1 :: tr1)).
      constructor; [|done]. split; [|done].
      destruct (fatalError (Ev c r)) as [e|] eqn:He; [|done].
      by destruct (Hstop e eq_refl) as [? _].
    + intros ev e [->|Hin]%elem_of_cons He.
      * destruct (Hstop e He) as (_ & e' & [?|(m & _ & ?)] & ?).
        -- exists e'. split; [by left|done].
        -- exists e'. split; [|done]. right. by exists m.
      * by apply (Hfatal ev e).
    + intros ev [->|Hin]%elem_of_cons Hev; [congruence|]. by apply (Hnils ev).
    + intros Ho. destruct (Hpanic Ho) as (ev & Hlast & Hev).
      exists ev. split; [|done]. destruct tr1; [done|]. done.
Qed.
(** A silenced answer: a list fetch answered not-found. *)
Lemma fatalError_listFetch (c : call) (r : answer c) (e e' : error) :
  isListFetch c = true -> answerError (Ev c r) = Some e ->
  fatalError (Ev c r) = Some e' -> isNotFound e = false /\ e' = e.
Proof.
  intros Hc Hr. unfold fatalError. rewrite Hr. simpl. rewrite Hc. simpl.
  destruct (isNotFound e); [done|]. by intros [= ->].
Qed.

Lemma disciplined_cleanupLoop (exits : list string) todo seen slots n :
  (n + length todo <= length slots)%nat ->
  disciplined exits isHydrateCall (cleanupLoop todo seen slots n).
Proof.
  revert seen slots n. induction todo as [|dp rest IH]; intros seen slots n Hn; simpl.
  - constructor.
  - simpl in Hn. destruct (seen !! DataPair.ImdbListId dp); [apply IH; lia|].
    simpl. constructor; [done| | |].
    + intros [[name items] [e|]] e' He; [|done].
      apply (fatalError_listFetch _ _ e) in He as [Hnf ->]; [|done..]. simpl.
      unfold isNotFound in Hnf.
      destruct (errorsAs e) as [code|].
      * rewrite Hnf. thrown.
      * thrown.
    + by intros [[[name|] items] [e|]] Hr.
    + intros [[name items] [e|]] Hr; simpl.
      * destruct (errorsAs e) as [code|]; [|constructor].
        case_bool_decide; [|constructor].
        apply disciplined_call; [done|done|done|]. intros []. simpl. apply IH. lia.
      * destruct name as [name|]; [|done].
        rewrite bool_decide_eq_true_2 by lia.
        apply IH. rewrite length_insert. lia.
Qed.

Lemma disciplined_sourceLists (exits : list string) (u : user) :
  disciplined exits isHydrateCall (sourceLists u).
Proof.
  unfold sourceLists. case_bool_decide.
  - apply disciplined_wrapError. unfold cleanupLists.
    apply disciplined_cleanupLoop. rewrite length_replicate. lia.
  - simpl. apply disciplined_call; [done|done| |].
    + intros [dps [e|]] e' [= <-]. thrown.
    + intros [dps [e|]]; simpl; constructor.
Qed.

Lemma disciplined_hydrateList (exits : list string) (dp : DataPair.t) :
  disciplined exits isHydrateCall (hydrateList dp).
Proof.
  unfold hydrateList. destruct (DataPair.IsWatchlist dp); simpl.
  - apply disciplined_call; [done|done| |].
    + intros [items [e|]] e' [= <-]. thrown.
    + intros [items [e|]]; simpl; constructor.
  - apply disciplined_call; [done|done| |].
    + intros [items [e|]] e' He; [|done].
      apply (fatalError_listFetch _ _ e) in He as [Hnf ->]; [|done..]. simpl.
      unfold isNotFound in Hnf.
      destruct (errorsAs e) as [code|].
      * rewrite Hnf. thrown.
      * thrown.
    + intros [items [e|]]; simpl; [|constructor].
      destruct (errorsAs e) as [code|]; [|constructor].
      case_bool_decide; [|constructor].
      apply disciplined_call; [done|done|done|]. intros []. simpl.
      apply disciplined_call; [done|done| |].
      * intros [e1|] e' [= <-]. thrown.
      * intros [e1|]; simpl; constructor.
Qed.

Lemma disciplined_hydrateLists (exits : list string) (dps : list DataPair.t) :
  disciplined exits isHydrateCall (hydrateLists dps).
Proof.
  induction dps as [|dp rest IH]; simpl; [constructor|].
  apply disciplined_bind; [apply disciplined_hydrateList|]. intros dp'.
  apply disciplined_bind; [apply IH|]. intros dps'. constructor.
Qed.

Lemma disciplined_hydrate (exits : list string) (u : user) :
  disciplined exits isHydrateCall (hydrate u).
Proof.
  unfold hydrate. apply disciplined_bind; [apply disciplined_sourceLists|].
  intros dps. simpl. constructor; [done| | |].
  - intros [[wid items] [e|]] e' [= <-]. thrown.
  - by intros [[[wid|] items] [e|]] Hr.
  - intros [[wid items] [e|]] Hr; simpl.
    + constructor.
    + destruct wid as [wid|]; [|done].
      apply disciplined_bind; [apply disciplined_hydrateLists|].
      intros dps'. simpl. apply disciplined_call; [done|done| |].
      * intros [items1 [e|]] e' [= <-]. thrown.
      * intros [items1 [e|]]; simpl; [constructor|].
        apply disciplined_call; [done|done| |].
        -- intros [items2 [e|]] e' [= <-]. thrown.
        -- intros [items2 [e|]]; simpl; constructor.
Qed.

Lemma disciplined_syncList (exits : list string) (dp : DataPair.t) :
  disciplined exits isListsCall (syncList dp).
Proof.
  unfold syncList.
  destruct (DataPair.IsWatchlist dp).
  - apply disciplined_bind.
    + case_bool_decide; [|constructor]. simpl.
      apply disciplined_call; [done|done| |].
      * intros [e|] e' [= <-]. thrown.
      * intros [e|]; simpl; constructor.
    + intros _. case_bool_decide; [|constructor]. simpl.
      apply disciplined_call; [done|done| |].
      * intros [e|] e' [= <-]. thrown.
      * intros [e|]; simpl; constructor.
  - apply disciplined_bind.
    + case_bool_decide; [|constructor]. simpl.
      apply disciplined_call; [done|done| |].
      * intros [e|] e' [= <-]. thrown.
      * intros [e|]; simpl; constructor.
    + intros _. case_bool_decide; [|constructor]. simpl.
      apply disciplined_call; [done|done| |].
      * intros [e|] e' [= <-]. thrown.
      * intros [e|]; simpl; constructor.
Qed.

Lemma disciplined_syncListsLoop (exits : list string) (dps : list DataPair.t) :
  disciplined exits isListsCall (syncListsLoop dps).
Proof.
  induction dps as [|dp rest IH]; simpl; [constructor|].
  apply disciplined_bind; [apply disciplined_syncList|]. by intros _.
Qed.

Lemma disciplined_removeOrphans (exits : list string) (dps : list DataPair.t) (traktLists : list TraktList.t) :
  disciplined exits isListsCall (removeOrphans dps traktLists).
Proof.
  induction traktLists as [|traktList rest IH]; simpl; [constructor|].
  destruct (contains dps (TraktList.Name traktList)); simpl; [done|].
  apply disciplined_call; [done|done| |].
  - intros [e|] e' [= <-]. thrown.
  - intros [e|]; simpl; [constructor|done].
Qed.

Lemma disciplined_syncLists (exits : list string) (u : user) :
  disciplined exits isListsCall (syncLists u).
Proof.
  unfold syncLists. apply disciplined_bind; [apply disciplined_syncListsLoop|].
  intros _. simpl. apply disciplined_call; [done|done| |].
  - intros [traktLists [e|]] e' [= <-]. thrown.
  - intros [traktLists [e|]]; simpl; [constructor|].
    apply disciplined_removeOrphans.
Qed.

Lemma disciplined_historyAddScan (exits : list string) (items acc : list TraktItem.t) :
  disciplined exits isRatingsCall (historyAddScan items acc).
Proof.
  revert acc. induction items as [|item rest IH]; intros acc; simpl; [constructor|].
  destruct (GetItemId item) as [e|itemId]; [constructor|]. simpl.
  apply disciplined_call; [done|done| |].
  - intros [history [e|]] e' [= <-]. thrown.
  - intros [history [e|]]; simpl; [constructor|]. case_bool_decide; apply IH.
Qed.

Lemma disciplined_historyRemoveScan (exits : list string) (items acc : list TraktItem.t) :
  disciplined exits isRatingsCall (historyRemoveScan items acc).
Proof.
  revert acc. induction items as [|item rest IH]; intros acc; simpl; [constructor|].
  destruct (GetItemId item) as [e|itemId]; [constructor|]. simpl.
  apply disciplined_call; [done|done| |].
  - intros [history [e|]] e' [= <-]. thrown.
  - intros [history [e|]]; simpl; [constructor|]. case_bool_decide; apply IH.
Qed.

Lemma disciplined_syncRatings (exits : list string) (u : user) :
  disciplined exits isRatingsCall (syncRatings u).
Proof.
  unfold syncRatings. cbv zeta.
  apply disciplined_bind; [|intros _; apply disciplined_bind].
  - unfold syncRatingsAdd. case_bool_decide; [|constructor]. simpl.
    apply disciplined_call; [done|done| |].
    + intros [e|] e' [= <-]. thrown.
    + intros [e|]; simpl; [constructor|].
      apply disciplined_bind; [apply disciplined_historyAddScan|].
      intros batch. case_bool_decide; [|constructor]. simpl.
      apply disciplined_call; [done|done| |].
      * intros [e|] e' [= <-]. thrown.
      * intros [e|]; simpl; constructor.
  - unfold syncRatingsRemove. case_bool_decide; [|constructor]. simpl.
    apply disciplined_call; [done|done| |].
    + intros [e|] e' [= <-]. thrown.
    + intros [e|]; simpl; [constructor|].
      apply disciplined_bind; [apply disciplined_historyRemoveScan|].
      intros batch. case_bool_decide; [|constructor]. simpl.
      apply disciplined_call; [done|done| |].
      * intros [e|] e' [= <-]. thrown.
      * intros [e|]; simpl; constructor.
  - intros _. unfold syncRatingsUpdate. cbv zeta.
    case_bool_decide; [|constructor]. simpl.
    apply disciplined_call; [done|done| |].
    + intros [e|] e' [= <-]. thrown.
    + intros [e|]; simpl; constructor.
Qed.
(** ** The run as a whole *)

Lemma isRunCall_hydrate (c : call) : isHydrateCall c = true -> isRunCall c = true.
Proof. by destruct c. Qed.

Lemma isRunCall_lists (c : call) : isListsCall c = true -> isRunCall c = true.
Proof. by destruct c. Qed.

Lemma isRunCall_ratings (c : call) : isRatingsCall c = true -> isRunCall c = true.
Proof. by destruct c. Qed.

Lemma disciplined_Run (u : user) : disciplined runExits isRunCall (Run u).
Proof.
  unfold Run. apply disciplined_bind.
  { apply disciplined_orFatal; [by repeat constructor|].
    apply (disciplined_mono runExits runExits isHydrateCall);
      [apply isRunCall_hydrate|done|apply disciplined_hydrate]. }
  intros u1. apply disciplined_bind.
  { apply disciplined_orFatal; [by repeat constructor|].
    apply (disciplined_mono runExits runExits isListsCall);
      [apply isRunCall_lists|done|apply disciplined_syncLists]. }
  intros _. apply disciplined_bind.
  { apply disciplined_orFatal; [by repeat constructor|].
    apply (disciplined_mono runExits runExits isRatingsCall);
      [apply isRunCall_ratings|done|apply disciplined_syncRatings]. }
  intros _. apply disciplined_call; [done|done|done|]. intros []. constructor.
Qed.

(** [Run] stage by stage: each stage runs in the world the one before left,
    [syncLists] and [syncRatings] on the user [hydrate] returned; an error
    of a stage exits the process under the message of that stage. *)
Lemma exec_Run_stages {World : Type}
    (respond : forall c : call, World -> answer c * World)
    (u : user) (w : World) :
  exec respond (Run u) w =
    match exec respond (hydrate u) w with
    | (Returned u1, w1, t1) =>
        match exec respond (syncLists u1) w1 with
        | (Returned _, w2, t2) =>
            match exec respond (syncRatings u1) w2 with
            | (Returned _, w3, t3) =>
                (Returned tt,
                 (respond (LoggerInfo "successfully synced trakt with imdb") w3).2,
                 t1 ++ t2 ++ t3
                 ++ [Ev (LoggerInfo "successfully synced trakt with imdb") tt])
            | (Failed e, w3, t3) =>
                (Exited "failure syncing ratings" e, w3, t1 ++ t2 ++ t3)
            | (Exited m e, w3, t3) => (Exited m e, w3, t1 ++ t2 ++ t3)
            | (Panicked, w3, t3) => (Panicked, w3, t1 ++ t2 ++ t3)
            end
        | (Failed e, w2, t2) => (Exited "failure syncing lists" e, w2, t1 ++ t2)
        | (Exited m e, w2, t2) => (Exited m e, w2, t1 ++ t2)
        | (Panicked, w2, t2) => (Panicked, w2, t1 ++ t2)
        end
    | (Failed e, w1, t1) => (Exited "failure hydrating imdb client" e, w1, t1)
    | (Exited m e, w1, t1) => (Exited m e, w1, t1)
    | (Panicked, w1, t1) => (Panicked, w1, t1)
    end.
Proof.
  unfold Run, orFatal. rewrite exec_bind, exec_onError.
  destruct (exec respond (hydrate u) w) as [[[u1|e|m e|] w1] t1]; simpl;
    rewrite ?app_nil_r; try reflexivity.
  rewrite exec_bind, exec_onError.
  destruct (exec respond (syncLists u1) w1) as [[[[]|e|m e|] w2] t2]; simpl;
    rewrite ?app_nil_r; try reflexivity.
  rewrite exec_bind, exec_onError.
  destruct (exec respond (syncRatings u1) w2) as [[[[]|e|m e|] w3] t3]; simpl;
    rewrite ?app_nil_r; try reflexivity.
  destruct (respond (LoggerInfo "successfully synced trakt with imdb") w3)
    as [[] w4].
  reflexivity.
Qed.

Lemma disciplined_onlyCalls_exec {World : Type}
    (respond : forall c : call, World -> answer c * World)
    (exits : list string) (P : call -> bool) {A : Type} (p : Prog A) (w : World) :
  disciplined exits P p ->
  Forall (fun ev => P (ev_call ev) = true) (exec respond p w).2.
Proof.
  intros Hp. destruct (exec respond p w) as [[o w'] tr] eqn:Hx.
  by destruct (disciplined_exec respond exits P p w w' o tr Hp Hx).
Qed.

(** The stages never exit the process themselves. *)
Lemma stage_never_exits {World : Type}
    (respond : forall c : call, World -> answer c * World)
    (P : call -> bool) {A : Type} (p : Prog A) (w w' : World)
    (m : string) (e : error) (tr : list event) :
  disciplined [] P p -> exec respond p w <> (Exited m e, w', tr).
Proof.
  intros Hp Hx.
  destruct (disciplined_exec respond [] P p w w' _ tr Hp Hx) as (_ & Hexit & _).
  specialize (Hexit m e eq_refl). by apply elem_of_nil in Hexit.
Qed.

Lemma elem_of_removelast_or_last {A : Type} (l : list A) (x : A) :
  x ∈ l -> x ∈ removelast l \/ last l = Some x.
Proof.
  induction l as [|a l IH]; intros Hin; [by apply elem_of_nil in Hin|].
  destruct l as [|b l].
  - apply list_elem_of_singleton in Hin as ->. by right.
  - change (removelast (a :: b :: l)) with (a :: removelast (b :: l)).
    change (last (a :: b :: l)) with (last (b :: l)).
    apply elem_of_cons in Hin as [->|Hin].
    + left. apply list_elem_of_here.
    + destruct (IH Hin) as [?|?]; [left|by right].
      by apply list_elem_of_further.
Qed.

(** X1: [Run] stops at the first error.  In any run, whatever the
    environment answers, every call but the last was answered without an
    error, a not-found answer to a fetch of a list by its identifier put
    aside (the two that [cleanupLists] and [hydrate] silence); and when the
    last call is answered with an error, the process exits under the
    message of a stage, with an error that wraps the one answered, in which
    [errors.As] finds the same API error. *)
Theorem Run_stops_at_the_first_error {World : Type}
    (respond : forall c : call, World -> answer c * World)
    (u : user) (w w' : World) (o : outcome unit) (tr : list event) :
  exec respond (Run u) w = (o, w', tr) ->
  Forall (fun ev => fatalError ev = None) (removelast tr)
  /\ (forall pre ev post,
        tr = pre ++ ev :: post -> post <> [] -> fatalError ev = None)
  /\ (forall ev e,
        ev ∈ tr -> fatalError ev = Some e ->
        last tr = Some ev
        /\ exists m e', m ∈ runExits /\ o = Exited m e' /\ wraps e' e
                        /\ errorsAs e' = errorsAs e)
  /\ (o = Returned tt -> Forall (fun ev => fatalError ev = None) tr).
Proof.
  intros Hrun.
  destruct (disciplined_exec respond _ _ _ _ _ _ _ (disciplined_Run u) Hrun)
    as (_ & Hexit & Hquiet & Hfatal & _).
  assert (Hq : Forall (fun ev => fatalError ev = None) (removelast tr)).
  { eapply Forall_impl; [exact Hquiet|]. by intros ev [? _]. }
  assert (Hstop : forall ev e, ev ∈ tr -> fatalError ev = Some e ->
            last tr = Some ev
            /\ exists m e', m ∈ runExits /\ o = Exited m e' /\ wraps e' e
                            /\ errorsAs e' = errorsAs e).
  { intros ev e Hin He. split.
    - destruct (elem_of_removelast_or_last tr ev Hin) as [Hmid|Hlast]; [|done].
      rewrite Forall_forall in Hq. specialize (Hq ev Hmid). congruence.
    - destruct (Hfatal ev e Hin He) as (e' & [->|(m & ->)] & Hw).
      + rewrite exec_Run_stages in Hrun.
        destruct (exec respond (hydrate u) w) as [[[u1|?|? ?|] w1] t1]; [|done..].
        destruct (exec respond (syncLists u1) w1) as [[[[]|?|? ?|] w2] t2];
          [|done..].
        by destruct (exec respond (syncRatings u1) w2) as [[[[]|?|? ?|] w3] t3].
      + exists m, e'. split; [by apply (Hexit m e')|].
        split; [done|]. split; [done|]. by apply wraps_errorsAs. }
  split; [done|]. split; [|split; [done|]].
  - intros pre ev post -> Hpost.
    rewrite removelast_app in Hq by done. apply Forall_app in Hq as [_ Hq].
    destruct post as [|ev1 post]; [done|].
    change (removelast (ev :: ev1 :: post))
      with (ev :: removelast (ev1 :: post)) in Hq.
    by apply Forall_cons in Hq as [? _].
  - intros ->. apply Forall_forall. intros ev Hin.
    destruct (fatalError ev) as [e|] eqn:He; [|done].
    by destruct (Hstop ev e Hin He) as (_ & m & e' & _ & ? & _).
Qed.

(** A goal that tells of another stage than the one the run ended in. *)
Local Ltac other_stage :=
  intros;
  repeat match goal with
         | H : ex _ |- _ => destruct H as [? H]
         | H : _ /\ _ |- _ => destruct H as [? H]
         end;
  simplify_eq; first [done | congruence].

(** X2: [Run] never returns an error, and the message it exits under names
    the stage that failed.  An error of [hydrate] exits the process under
    "failure hydrating imdb client" before any call of [syncLists]; an
    error of [syncLists], on the hydrated user, under "failure syncing
    lists" before any call of [syncRatings]; an error of [syncRatings]
    under "failure syncing ratings"; and the closing message is logged
    exactly when the three stages returned. *)
Theorem Run_exits_under_the_message_of_the_failed_stage {World : Type}
    (respond : forall c : call, World -> answer c * World)
    (u : user) (w w' : World) (o : outcome unit) (tr : list event) :
  exec respond (Run u) w = (o, w', tr) ->
  (forall e, o <> Failed e)
  /\ (forall m e, o = Exited m e -> m ∈ runExits)
  /\ (forall e, o = Exited "failure hydrating imdb client" e <->
                exec respond (hydrate u) w = (Failed e, w', tr))
  /\ (forall e, o = Exited "failure syncing lists" e <->
                exists u1 w1 t1 t2,
                  exec respond (hydrate u) w = (Returned u1, w1, t1)
                  /\ exec respond (syncLists u1) w1 = (Failed e, w', t2)
                  /\ tr = t1 ++ t2)
  /\ (forall e, o = Exited "failure syncing ratings" e <->
                exists u1 w1 t1 w2 t2 t3,
                  exec respond (hydrate u) w = (Returned u1, w1, t1)
                  /\ exec respond (syncLists u1) w1 = (Returned tt, w2, t2)
                  /\ exec respond (syncRatings u1) w2 = (Failed e, w', t3)
                  /\ tr = t1 ++ t2 ++ t3)
  /\ (o = Returned tt <->
      Ev (LoggerInfo "successfully synced trakt with imdb") tt ∈ tr)
  /\ (o = Returned tt ->
      last tr = Some (Ev (LoggerInfo "successfully synced trakt with imdb") tt)).
Proof.
  intros Hrun.
  destruct (disciplined_exec respond _ _ _ _ _ _ _ (disciplined_Run u) Hrun)
    as (_ & Hexit & _).
  rewrite exec_Run_stages in Hrun.
  split; [|split; [done|]].
  { intros e ->.
    destruct (exec respond (hydrate u) w) as [[[u1|?|? ?|] w1] t1]; [|done..].
    destruct (exec respond (syncLists u1) w1) as [[[[]|?|? ?|] w2] t2]; [|done..].
    by destruct (exec respond (syncRatings u1) w2) as [[[[]|?|? ?|] w3] t3]. }
  pose proof (disciplined_onlyCalls_exec respond [] isHydrateCall (hydrate u) w
                (disciplined_hydrate [] u)) as Hc1.
  destruct (exec respond (hydrate u) w) as [[o1 w1] t1] eqn:Hh. simpl in Hc1.
  assert (Hinfo : forall P (t : list event),
             P (LoggerInfo "successfully synced trakt with imdb") = false ->
             Forall (fun ev => P (ev_call ev) = true) t ->
             Ev (LoggerInfo "successfully synced trakt with imdb") tt ∉ t).
  { intros P t HP Ht Hin. rewrite Forall_forall in Ht.
    specialize (Ht _ Hin). simpl in Ht. congruence. }
  assert (Hno1 := Hinfo isHydrateCall t1 eq_refl Hc1).
  destruct o1 as [u1|e1|m1 e1|].
  2:{ injection Hrun as <- <- <-. repeat split; try done; try other_stage. }
  2:{ by apply (stage_never_exits respond isHydrateCall) in Hh;
        [|apply disciplined_hydrate]. }
  2:{ injection Hrun as <- <- <-. repeat split; try done; try other_stage. }
  pose proof (disciplined_onlyCalls_exec respond [] isListsCall (syncLists u1) w1
                (disciplined_syncLists [] u1)) as Hc2.
  destruct (exec respond (syncLists u1) w1) as [[o2 w2] t2] eqn:Hs. simpl in Hc2.
  assert (Hno2 : Ev (LoggerInfo "successfully synced trakt with imdb") tt
                 ∉ t1 ++ t2).
  { intros [Hin|Hin]%elem_of_app; [done|].
    by apply (Hinfo isListsCall) in Hin. }
  destruct o2 as [[]|e2|m2 e2|].
  2:{ injection Hrun as <- <- <-. repeat split; try done; try other_stage.
      intros [= <-]. by exists u1, w1, t1, t2. }
  2:{ by apply (stage_never_exits respond isListsCall) in Hs;
        [|apply disciplined_syncLists]. }
  2:{ injection Hrun as <- <- <-. repeat split; try done; try other_stage. }
  pose proof (disciplined_onlyCalls_exec respond [] isRatingsCall (syncRatings u1) w2
                (disciplined_syncRatings [] u1)) as Hc3.
  destruct (exec respond (syncRatings u1) w2) as [[o3 w3] t3] eqn:Hr.
  simpl in Hc3.
  assert (Hno3 : Ev (LoggerInfo "successfully synced trakt with imdb") tt
                  ∉ t1 ++ t2 ++ t3).
  { rewrite app_assoc. intros [Hin|Hin]%elem_of_app; [done|].
    by apply (Hinfo isRatingsCall) in Hin. }
  destruct o3 as [[]|e3|m3 e3|].
  - injection Hrun as <- <- <-. repeat split; try done; try other_stage.
    + intros _. rewrite !app_assoc. apply elem_of_app. right.
      apply list_elem_of_here.
    + rewrite !app_assoc. by rewrite last_snoc.
  - injection Hrun as <- <- <-. repeat split; try done; try other_stage.
    intros [= <-]. by exists u1, w1, t1, w2, t2, t3.
  - by apply (stage_never_exits respond isRatingsCall) in Hr;
      [|apply disciplined_syncRatings].
  - injection Hrun as <- <- <-. repeat split; try done; try other_stage.
Qed.
Lemma stage_calls_apart (c : call) :
  isHydrateCall c = true ->
  isListsCall c = false /\ isRatingsCall c = false.
Proof. by destruct c. Qed.

(** X3: a run is three phases in order.  Its calls are those of [hydrate]
    (reads, warnings and the creation of missing mirror lists), then those
    of [syncLists] (items of the watchlist and of the lists, the fetch of
    the mirror lists and their removal), then those of [syncRatings]
    (ratings and history) and the closing message.  A call of [syncLists]
    is issued only once [hydrate] has returned, a call of [syncRatings]
    only once [syncLists] has returned on the hydrated user. *)
Theorem Run_hydrates_then_syncs_lists_then_ratings {World : Type}
    (respond : forall c : call, World -> answer c * World)
    (u : user) (w w' : World) (o : outcome unit) (tr : list event) :
  exec respond (Run u) w = (o, w', tr) ->
  exists t1 t2 t3,
    tr = t1 ++ t2 ++ t3
    /\ Forall (fun ev => isHydrateCall (ev_call ev) = true) t1
    /\ Forall (fun ev => isListsCall (ev_call ev) = true) t2
    /\ Forall (fun ev => isRatingsCall (ev_call ev) = true
                         \/ ev_call ev
                            = LoggerInfo "successfully synced trakt with imdb") t3
    /\ (t2 <> [] \/ t3 <> [] ->
        exists u1 w1,
          exec respond (hydrate u) w = (Returned u1, w1, t1)
          /\ (t3 <> [] ->
              exists w2, exec respond (syncLists u1) w1 = (Returned tt, w2, t2)))
    /\ (forall ev,
          ev ∈ tr ->
          isListsCall (ev_call ev) = true \/ isRatingsCall (ev_call ev) = true ->
          exists u1 w1, exec respond (hydrate u) w = (Returned u1, w1, t1)).
Proof.
  intros Hrun. rewrite exec_Run_stages in Hrun.
  pose proof (disciplined_onlyCalls_exec respond [] isHydrateCall (hydrate u) w
                (disciplined_hydrate [] u)) as Hc1.
  destruct (exec respond (hydrate u) w) as [[o1 w1] t1] eqn:Hh. simpl in Hc1.
  assert (Hearly : forall o' : outcome unit,
             (forall u1, o1 <> Returned u1) -> (o', w1, t1) = (o, w', tr) ->
             exists t1' t2 t3,
               tr = t1' ++ t2 ++ t3
               /\ Forall (fun ev => isHydrateCall (ev_call ev) = true) t1'
               /\ Forall (fun ev => isListsCall (ev_call ev) = true) t2
               /\ Forall (fun ev => isRatingsCall (ev_call ev) = true
                                    \/ ev_call ev
                                       = LoggerInfo "successfully synced trakt with imdb") t3
               /\ (t2 <> [] \/ t3 <> [] ->
                   exists u1 w1',
                     (o1, w1, t1) = (Returned u1, w1', t1')
                     /\ (t3 <> [] ->
                         exists w2, exec respond (syncLists u1) w1'
                                    = (Returned tt, w2, t2)))
               /\ (forall ev,
                     ev ∈ tr ->
                     isListsCall (ev_call ev) = true
                     \/ isRatingsCall (ev_call ev) = true ->
                     exists u1 w1', (o1, w1, t1) = (Returned u1, w1', t1'))).
  { intros o' Hne [= <- <- <-]. exists t1, [], []. rewrite app_nil_r.
    split; [done|]. split; [done|]. split; [constructor|].
    split; [constructor|]. split; [by intros [?|?]|].
    intros ev Hin Hev. rewrite Forall_forall in Hc1.
    specialize (Hc1 ev Hin). apply stage_calls_apart in Hc1 as [? ?].
    destruct Hev; congruence. }
  destruct o1 as [u1|e1|m1 e1|]; [|by eapply Hearly..].
  clear Hearly.
  pose proof (disciplined_onlyCalls_exec respond [] isListsCall (syncLists u1) w1
                (disciplined_syncLists [] u1)) as Hc2.
  destruct (exec respond (syncLists u1) w1) as [[o2 w2] t2] eqn:Hs. simpl in Hc2.
  assert (Hmid : forall o' : outcome unit,
             o2 <> Returned tt -> (o', w2, t1 ++ t2) = (o, w', tr) ->
             exists t1' t2' t3,
               tr = t1' ++ t2' ++ t3
               /\ Forall (fun ev => isHydrateCall (ev_call ev) = true) t1'
               /\ Forall (fun ev => isListsCall (ev_call ev) = true) t2'
               /\ Forall (fun ev => isRatingsCall (ev_call ev) = true
                                    \/ ev_call ev
                                       = LoggerInfo "successfully synced trakt with imdb") t3
               /\ (t2' <> [] \/ t3 <> [] ->
                   exists u1' w1',
                     (Returned u1, w1, t1) = (Returned u1', w1', t1')
                     /\ (t3 <> [] ->
                         exists w2', exec respond (syncLists u1') w1'
                                     = (Returned tt, w2', t2')))
               /\ (forall ev,
                     ev ∈ tr ->
                     isListsCall (ev_call ev) = true
                     \/ isRatingsCall (ev_call ev) = true ->
                     exists u1' w1',
                       (Returned u1, w1, t1) = (Returned u1', w1', t1'))).
  { intros o' Hne [= <- <- <-]. exists t1, t2, []. rewrite app_nil_r.
    split; [done|]. split; [done|]. split; [done|]. split; [constructor|].
    split; [|by exists u1, w1]. intros _. exists u1, w1. by split. }
  destruct o2 as [[]|e2|m2 e2|]; [|by eapply Hmid..].
  clear Hmid.
  pose proof (disciplined_onlyCalls_exec respond [] isRatingsCall (syncRatings u1) w2
                (disciplined_syncRatings [] u1)) as Hc3.
  destruct (exec respond (syncRatings u1) w2) as [[o3 w3] t3] eqn:Hr.
  simpl in Hc3.
  assert (Hc3' : Forall (fun ev => isRatingsCall (ev_call ev) = true
                                   \/ ev_call ev
                                      = LoggerInfo "successfully synced trakt with imdb") t3).
  { eapply Forall_impl; [exact Hc3|]. intros ev ?. by left. }
  destruct o3 as [[]|e3|m3 e3|]; injection Hrun as <- <- <-.
  1: exists t1, t2,
       (t3 ++ [Ev (LoggerInfo "successfully synced trakt with imdb") tt]).
  2,3,4: exists t1, t2, t3.
  all: split; [done|]; split; [done|]; split; [done|].
  all: split; [try done|].
  all: try (apply Forall_app; split; [done|]; constructor; [by right|constructor]).
  all: split; [intros _; exists u1, w1; split; [done|]; intros _; by exists w2|].
  all: intros; by exists u1, w1.
Qed.

Lemma nilAnswer_spec (ev : event) :
  nilAnswer ev = true ->
  (exists items, ev = Ev ImdbWatchlistGet (None, items, None))
  \/ exists listId items, ev = Ev (ImdbListItemsGet listId) (None, items, None).
Proof.
  destruct ev as [c r]. destruct c; try done.
  - destruct r as [[[name|] items] [e|]]; try done. intros _. left. by exists items.
  - destruct r as [[[name|] items] [e|]]; try done. intros _. right.
    by exists listId, items.
Qed.

(** X4: [Run] panics after a nil answer, and then only.  The process
    panics exactly when the source answers the fetch of the watchlist
    without an identifier, or a fetch of a list without a name, and without
    an error either (the pointers [hydrate] and [cleanupLists] dereference);
    that answer is the last of the run.  No write to the slice of
    [cleanupLists] is out of range. *)
Theorem Run_panics_after_a_nil_answer_only {World : Type}
    (respond : forall c : call, World -> answer c * World)
    (u : user) (w w' : World) (o : outcome unit) (tr : list event) :
  exec respond (Run u) w = (o, w', tr) ->
  (o = Panicked <-> exists ev, ev ∈ tr /\ nilAnswer ev = true)
  /\ (forall ev,
        ev ∈ tr -> nilAnswer ev = true ->
        last tr = Some ev
        /\ ((exists items, ev = Ev ImdbWatchlistGet (None, items, None))
            \/ exists listId items,
                 ev = Ev (ImdbListItemsGet listId) (None, items, None))).
Proof.
  intros Hrun.
  destruct (disciplined_exec respond _ _ _ _ _ _ _ (disciplined_Run u) Hrun)
    as (_ & _ & Hquiet & _ & Hnils & Hpanic).
  split; [split|].
  - intros Ho. destruct (Hpanic Ho) as (ev & Hlast & Hev). exists ev.
    split; [|done]. apply last_Some in Hlast as [pre ->].
    apply elem_of_app. right. apply list_elem_of_here.
  - intros (ev & Hin & Hev). by apply (Hnils ev).
  - intros ev Hin Hev. split; [|by apply nilAnswer_spec].
    destruct (elem_of_removelast_or_last tr ev Hin) as [Hmid|Hlast]; [|done].
    rewrite Forall_forall in Hquiet. destruct (Hquiet ev Hmid). congruence.
Qed.

(** ** NewSyncer *)

Lemma Ev_call_inj (c c' : call) (r : answer c) (r' : answer c') :
  Ev c r = Ev c' r' -> c = c'.
Proof. intros H. exact (f_equal ev_call H). Qed.

Lemma validateEnvVars_None (env : gmap string string) (key : string) :
  validateEnvVars env = None -> key ∈ requiredEnvVarKeys ->
  LookupEnv env key = Some (Getenv env key).
Proof.
  rewrite validateEnvVars_filter. intros Hv Hkey.
  destruct (filter _ requiredEnvVarKeys) as [|k ks] eqn:Hf; [|done].
  unfold Getenv, LookupEnv in *. destruct (env !! key) as [v|] eqn:Hk; [done|].
  assert (Hin : key ∈ filter (fun key => env !! key = None) requiredEnvVarKeys)
    by (by apply list_elem_of_filter).
  rewrite Hf in Hin. by apply elem_of_nil in Hin.
Qed.

(** X5: [NewSyncer] builds the clients from variables that are set.  It
    never returns an error and never panics: it returns the syncer or exits
    the process.  No client is built when the validation fails; every
    field of the two configurations but the user id holds the value of a
    variable that is set (only [IMDB_USER_ID] can be defaulted to the empty
    string); the Trakt client is built only once the IMDb client was built
    without an error; and an error of either constructor exits the process
    with that very error. *)
Theorem NewSyncer_builds_the_clients_from_set_variables {World : Type}
    (respond : forall c : call, World -> answer c * World)
    (env : gmap string string) (w w' : World) (o : outcome user)
    (tr : list event) :
  exec respond (NewSyncer env) w = (o, w', tr) ->
  ((exists u', o = Returned u') \/ exists m e, m ∈ newSyncerExits /\ o = Exited m e)
  /\ (validateEnvVars env <> None -> tr = [])
  /\ (forall cfg r,
        Ev (NewImdbClient cfg) r ∈ tr ->
        LookupEnv env EnvVarKeyCookieAtMain = Some (CookieAtMain cfg)
        /\ LookupEnv env EnvVarKeyCookieUbidMain = Some (CookieUbidMain cfg)
        /\ UserId cfg = default "" (LookupEnv env EnvVarKeyUserId))
  /\ (forall cfg r,
        Ev (NewTraktClient cfg) r ∈ tr ->
        LookupEnv env EnvVarKeyClientId = Some (ClientId cfg)
        /\ LookupEnv env EnvVarKeyClientSecret = Some (ClientSecret cfg)
        /\ LookupEnv env EnvVarKeyUsername = Some (Username cfg)
        /\ LookupEnv env EnvVarKeyPassword = Some (Password cfg)
        /\ exists cfgI, tr = [Ev (NewImdbClient cfgI) None; Ev (NewTraktClient cfg) r])
  /\ (forall ev e,
        ev ∈ tr -> answerError ev = Some e ->
        last tr = Some ev /\ exists m, o = Exited m e)
  /\ (forall u', o = Returned u' ->
        ratings u' = DataPair.zero
        /\ length tr = 2%nat
        /\ Forall (fun ev => answerError ev = None) tr).
Proof.
  unfold NewSyncer. destruct (validateEnvVars env) as [err|] eqn:Hv; simpl.
  { intros [= <- <- <-]. split; [right; eexists _, _; split; [|done];
                                  by repeat constructor|].
    split; [done|].
    split; [intros cfg r Hin; by apply elem_of_nil in Hin|].
    split; [intros cfg r Hin; by apply elem_of_nil in Hin|].
    split; [intros ev e Hin; by apply elem_of_nil in Hin|]. done. }
  pose proof (validateEnvVars_None env EnvVarKeyCookieAtMain Hv
                ltac:(by repeat constructor)) as H1.
  pose proof (validateEnvVars_None env EnvVarKeyCookieUbidMain Hv
                ltac:(by repeat constructor)) as H2.
  pose proof (validateEnvVars_None env EnvVarKeyClientId Hv
                ltac:(by repeat constructor)) as H3.
  pose proof (validateEnvVars_None env EnvVarKeyClientSecret Hv
                ltac:(by repeat constructor)) as H4.
  pose proof (validateEnvVars_None env EnvVarKeyUsername Hv
                ltac:(by repeat constructor)) as H5.
  pose proof (validateEnvVars_None env EnvVarKeyPassword Hv
                ltac:(by repeat constructor)) as H6.
  assert (Himdb : forall cfg (r r' : option error),
             Ev (NewImdbClient cfg) r
             = Ev (NewImdbClient
                     {| CookieAtMain := Getenv env EnvVarKeyCookieAtMain;
                        CookieUbidMain := Getenv env EnvVarKeyCookieUbidMain;
                        UserId := Getenv env EnvVarKeyUserId |}) r' ->
             LookupEnv env EnvVarKeyCookieAtMain = Some (CookieAtMain cfg)
             /\ LookupEnv env EnvVarKeyCookieUbidMain = Some (CookieUbidMain cfg)
             /\ UserId cfg = default "" (LookupEnv env EnvVarKeyUserId)).
  { intros cfg r r' Hev. apply Ev_call_inj in Hev. by injection Hev as ->. }
  assert (Htrakt : forall cfg (r r' : option error),
             Ev (NewTraktClient cfg) r
             = Ev (NewTraktClient
                     {| ClientId := Getenv env EnvVarKeyClientId;
                        ClientSecret := Getenv env EnvVarKeyClientSecret;
                        Username := Getenv env EnvVarKeyUsername;
                        Password := Getenv env EnvVarKeyPassword |}) r' ->
             LookupEnv env EnvVarKeyClientId = Some (ClientId cfg)
             /\ LookupEnv env EnvVarKeyClientSecret = Some (ClientSecret cfg)
             /\ LookupEnv env EnvVarKeyUsername = Some (Username cfg)
             /\ LookupEnv env EnvVarKeyPassword = Some (Password cfg)).
  { intros cfg r r' Hev. apply Ev_call_inj in Hev. by injection Hev as ->. }
  destruct (respond (NewImdbClient _) w) as [[e1|] w1]; simpl.
  { intros [= <- <- <-]. split; [right; eexists _, _; split; [|done];
                                  by repeat constructor|].
    split; [done|].
    split.
    { intros cfg r [Hev|Hin%elem_of_nil]%elem_of_cons; [|done].
      by apply (Himdb cfg r (Some e1)). }
    split.
    { intros cfg r [Hev%Ev_call_inj|Hin%elem_of_nil]%elem_of_cons; done. }
    split; [|done].
    intros ev e [->|Hin%elem_of_nil]%elem_of_cons; [|done].
    intros [= <-]. split; [done|]. by eexists. }
  destruct (respond (NewTraktClient _) w1) as [[e2|] w2]; simpl.
  { intros [= <- <- <-]. split; [right; eexists _, _; split; [|done];
                                  by repeat constructor|].
    split; [done|].
    split.
    { intros cfg r [Hev|[Hev%Ev_call_inj|Hin%elem_of_nil]%elem_of_cons]%elem_of_cons;
        [|done..].
      by apply (Himdb cfg r None). }
    split.
    { intros cfg r [Hev%Ev_call_inj|[Hev|Hin%elem_of_nil]%elem_of_cons]%elem_of_cons;
        [done| |done].
      destruct (Htrakt cfg r (Some e2) Hev) as (? & ? & ? & ?).
      repeat split; try done. eexists. by rewrite Hev. }
    split; [|done].
    intros ev e [->|[->|Hin%elem_of_nil]%elem_of_cons]%elem_of_cons; [done| |done].
    intros [= <-]. split; [done|]. by eexists. }
  intros [= <- <- <-]. split; [left; by eexists|].
  split; [done|].
  split.
  { intros cfg r [Hev|[Hev%Ev_call_inj|Hin%elem_of_nil]%elem_of_cons]%elem_of_cons;
      [|done..].
    by apply (Himdb cfg r None). }
  split.
  { intros cfg r [Hev%Ev_call_inj|[Hev|Hin%elem_of_nil]%elem_of_cons]%elem_of_cons;
      [done| |done].
    destruct (Htrakt cfg r None Hev) as (? & ? & ? & ?).
    repeat split; try done. eexists. by rewrite Hev. }
  split.
  { by intros ev e [->|[->|Hin%elem_of_nil]%elem_of_cons]%elem_of_cons. }
  intros u' [= <-]. split; [done|]. split; [done|]. by repeat constructor.
Qed.
(** ** Ratings: the remove phase *)

Lemma exec_historyRemoveScan {World : Type}
    (respond : forall c : call, World -> answer c * World)
    (items acc : list TraktItem.t) (w w' : World) (batch : list TraktItem.t)
    (tr : list event) :
  exec respond (historyRemoveScan items acc) w = (Returned batch, w', tr) ->
  exists histories,
    length histories = length items
    /\ tr = historyQueries items histories
    /\ batch = acc ++ watched items histories.
Proof.
  revert acc w tr. induction items as [|item rest IH]; intros acc w tr; simpl.
  - intros [= <- <- <-]. exists []. by rewrite app_nil_r.
  - destruct (GetItemId item) as [e|itemId] eqn:Hid; [done|]. simpl.
    destruct (respond (TraktHistoryGet _ itemId) w) as [[history [e|]] w1] eqn:Hr;
      simpl; [done|].
    destruct (exec respond _ w1) as [[o w2] tr1] eqn:Hx.
    intros [= -> -> <-].
    destruct history as [|h history]; simpl in Hx.
    + apply IH in Hx as (histories & Hlen & -> & ->).
      exists ([] :: histories). simpl. rewrite Hlen.
      split; [done|]. split; [by unfold historyQuery; rewrite Hid|done].
    + apply IH in Hx as (histories & Hlen & -> & ->).
      exists ((h :: history) :: histories). simpl. rewrite Hlen.
      split; [done|]. split; [by unfold historyQuery; rewrite Hid|].
      by rewrite <- app_assoc.
Qed.

Lemma watched_lookup (items : list TraktItem.t)
    (histories : list (list TraktItem.t)) (item : TraktItem.t) :
  item ∈ watched items histories ->
  exists j history,
    items !! j = Some item /\ histories !! j = Some history /\ history <> [].
Proof.
  revert histories. induction items as [|x rest IH]; intros [|h hs]; simpl;
    try (by intros ?%elem_of_nil).
  destruct (decide (h = [])) as [->|Hh].
  - intros Hin. apply IH in Hin as (j & history & ? & ? & ?).
    by exists (S j), history.
  - intros [->|Hin]%elem_of_cons; [by exists 0%nat, h|].
    apply IH in Hin as (j & history & ? & ? & ?). by exists (S j), history.
Qed.

Lemma watched_excludes (items : list TraktItem.t)
    (histories : list (list TraktItem.t)) (i : nat) (item : TraktItem.t) :
  NoDup items -> items !! i = Some item -> histories !! i = Some [] ->
  item ∉ watched items histories.
Proof.
  intros Hnd Hi Hh (j & history & Hj & Hhj & Hne)%watched_lookup.
  assert (i = j) as -> by (eapply NoDup_lookup; eauto). congruence.
Qed.

Lemma historyQueries_not_remove (items : list TraktItem.t)
    (histories : list (list TraktItem.t)) (ev : event) (batch : list TraktItem.t) :
  ev ∈ historyQueries items histories -> ev_call ev <> TraktHistoryRemove batch.
Proof.
  revert histories. induction items as [|x rest IH]; intros [|h hs]; simpl;
    try (by intros ?%elem_of_nil).
  intros [->|Hin]%elem_of_cons; [done|]. by apply (IH hs).
Qed.

(** X6: the remove phase of [syncRatings] (lines 227-251).  When there is
    nothing to remove no call is issued.  Otherwise [RatingsRemove] is
    called once with the whole batch, then the history of every item of the
    batch is queried, in order, by type and identifier; a [HistoryRemove]
    call is the last call, its batch is not empty and holds exactly the
    items whose query answered some entry, in order: an item with no entry
    in the history is not removed from it. *)
Theorem history_remove_takes_items_in_history {World : Type}
    (respond : forall c : call, World -> answer c * World)
    (toRemove : list TraktItem.t) (w w' : World) (o : outcome unit)
    (tr : list event) :
  exec respond (syncRatingsRemove toRemove) w = (o, w', tr) ->
  (toRemove = [] -> o = Returned tt /\ tr = [])
  /\ (toRemove <> [] ->
      exists err rest, tr = Ev (TraktRatingsRemove toRemove) err :: rest)
  /\ (forall ev batch,
        ev ∈ tr -> ev_call ev = TraktHistoryRemove batch ->
        batch <> []
        /\ exists histories,
             length histories = length toRemove
             /\ batch = watched toRemove histories
             /\ tr = Ev (TraktRatingsRemove toRemove) None
                     :: historyQueries toRemove histories ++ [ev]
             /\ (forall item, item ∈ batch ->
                   exists j history,
                     toRemove !! j = Some item
                     /\ histories !! j = Some history /\ history <> [])
             /\ (forall i item,
                   NoDup toRemove -> toRemove !! i = Some item ->
                   histories !! i = Some [] -> item ∉ batch))
  /\ (o = Returned tt ->
      exists histories,
        length histories = length toRemove
        /\ tr = match toRemove with
                | [] => []
                | _ => Ev (TraktRatingsRemove toRemove) None
                       :: historyQueries toRemove histories
                       ++ match watched toRemove histories with
                          | [] => []
                          | batch => [Ev (TraktHistoryRemove batch) None]
                          end
                end).
Proof.
  unfold syncRatingsRemove. destruct (decide (toRemove = [])) as [->|Hne].
  { simpl. intros [= <- <- <-]. split; [done|]. split; [done|]. split.
    - intros ev batch Hin. by apply elem_of_nil in Hin.
    - intros _. exists []. done. }
  rewrite bool_decide_eq_true_2 by (destruct toRemove; simpl; [done|lia]). simpl.
  destruct (respond (TraktRatingsRemove toRemove) w) as [[e|] w1]; simpl.
  { intros [= <- <- <-]. split; [done|]. split; [by eexists _, _|].
    split; [|done].
    intros ev batch [->|Hin%elem_of_nil]%elem_of_cons; done. }
  rewrite exec_bind.
  destruct (exec respond (historyRemoveScan toRemove []) w1) as [[o1 w2] tr1] eqn:Hscan.
  pose proof (onlyCalls_exec respond
                (fun c => forall batch, c <> TraktHistoryRemove batch)
                (historyRemoveScan toRemove []) w1) as Hnone.
  rewrite Hscan in Hnone. simpl in Hnone.
  assert (Hscanned : onlyCalls (fun c => forall batch, c <> TraktHistoryRemove batch)
                       (historyRemoveScan toRemove []))
    by (by apply onlyCalls_historyRemoveScan).
  specialize (Hnone Hscanned).
  rewrite Forall_forall in Hnone.
  destruct o1 as [batch|e|m e|]; simpl.
  2,3,4: intros [= <- <- <-]; (split; [done|]); (split; [by eexists _, _|]);
         (split; [|done]);
         intros ev b [->|Hin]%elem_of_cons; [done|];
         intros Hcall; by destruct (Hnone _ Hin b).
  apply exec_historyRemoveScan in Hscan as (histories & Hlen & -> & Hb).
  simpl in Hb. subst batch.
  destruct (watched toRemove histories) as [|b bs] eqn:Hw.
  - simpl. intros [= <- <- <-]. split; [done|]. split; [by eexists _, _|]. split.
    + intros ev b [->|Hin]%elem_of_cons; [done|].
      rewrite app_nil_r in Hin. apply (historyQueries_not_remove _ _ _ b) in Hin.
      done.
    + intros _. exists histories. rewrite Hw. by destruct toRemove.
  - rewrite bool_decide_eq_true_2 by (simpl; lia). simpl.
    destruct (respond (TraktHistoryRemove (b :: bs)) w2) as [err w3].
    assert (Hshape : forall o2,
               (o2, w3, Ev (TraktRatingsRemove toRemove) None
                        :: historyQueries toRemove histories
                        ++ [Ev (TraktHistoryRemove (b :: bs)) err]) = (o, w', tr) ->
               forall ev batch, ev ∈ tr -> ev_call ev = TraktHistoryRemove batch ->
               batch <> []
               /\ exists hs, length hs = length toRemove
                    /\ batch = watched toRemove hs
                    /\ tr = Ev (TraktRatingsRemove toRemove) None
                            :: historyQueries toRemove hs ++ [ev]
                    /\ (forall item, item ∈ batch ->
                          exists j history,
                            toRemove !! j = Some item
                            /\ hs !! j = Some history /\ history <> [])
                    /\ (forall i item,
                          NoDup toRemove -> toRemove !! i = Some item ->
                          hs !! i = Some [] -> item ∉ batch)).
    { intros o2 [= <- <- <-] ev batch Hin Hcall.
      apply elem_of_cons in Hin as [->|Hin]; [done|].
      apply elem_of_app in Hin as [Hin|Hin].
      { by apply (historyQueries_not_remove _ _ _ batch) in Hin. }
      apply list_elem_of_singleton in Hin as ->. simpl in Hcall.
      injection Hcall as <-. split; [done|].
      exists histories. rewrite Hw. split; [done|]. split; [done|].
      split; [done|]. split.
      - intros item Hitem. rewrite <- Hw in Hitem.
        by apply watched_lookup in Hitem.
      - intros i item Hnd Hi Hh. rewrite <- Hw.
        by eapply watched_excludes. }
    destruct err as [e|]; simpl; intros Heq.
    + split; [done|]. split; [injection Heq as _ _ <-; by eexists _, _|].
      split; [by apply (Hshape _ Heq)|]. by injection Heq as <- _ _.
    + split; [done|]. split; [injection Heq as _ _ <-; by eexists _, _|].
      split; [by apply (Hshape _ Heq)|]. intros _.
      injection Heq as _ _ <-. exists histories. rewrite Hw. by destruct toRemove.
Qed.
(** ** Hydration: the state it leaves *)

Lemma exec_hydrateList_calls {World : Type}
    (respond : forall c : call, World -> answer c * World)
    (dp dp' : DataPair.t) (w w' : World) (tr : list event) :
  exec respond (hydrateList dp) w = (Returned dp', w', tr) ->
  dp' = DataPair.withTraktList dp (DataPair.TraktList dp')
  /\ hydrationCalls dp' tr.
Proof.
  unfold hydrateList, hydrationCalls.
  destruct (DataPair.IsWatchlist dp) eqn:Hwl; simpl.
  - destruct (respond TraktWatchlistItemsGet w) as [[items [e|]] w1]; simpl; [done|].
    intros [= <- <- <-]. simpl. by rewrite Hwl.
  - destruct (respond (TraktListItemsGet _) w) as [[items [e|]] w1]; simpl.
    + destruct (errorsAs e) as [code|] eqn:Has; [|done].
      case_bool_decide as Hcode; [|done]. subst code. simpl.
      destruct (respond (LoggerWarn _ _) w1) as [[] w2].
      destruct (respond (TraktListAdd _ _) w2) as [[e'|] w3]; simpl; [done|].
      intros [= <- <- <-]. simpl. rewrite Hwl. split; [done|]. right.
      by exists e.
    + intros [= <- <- <-]. simpl. rewrite Hwl. split; [done|]. by left.
Qed.

Lemma exec_hydrateLists_calls {World : Type}
    (respond : forall c : call, World -> answer c * World)
    (dps dps' : list DataPair.t) (w w' : World) (tr : list event) :
  exec respond (hydrateLists dps) w = (Returned dps', w', tr) ->
  Forall2 (fun dp dp' => dp' = DataPair.withTraktList dp (DataPair.TraktList dp'))
          dps dps'
  /\ exists fetches,
       Forall2 hydrationCalls dps' fetches /\ tr = concat fetches.
Proof.
  revert dps' w tr. induction dps as [|dp rest IH]; intros dps' w tr; simpl.
  - intros [= <- <- <-]. split; [constructor|]. exists []. by split; [constructor|].
  - rewrite exec_bind.
    destruct (exec respond (hydrateList dp) w) as [[[dp'|e|m e|] w1] tr1] eqn:Hdp;
      try done.
    rewrite exec_bind.
    destruct (exec respond (hydrateLists rest) w1) as [[[rest'|e|m e|] w2] tr2] eqn:Hrest;
      try done.
    simpl. intros [= <- <- <-]. rewrite app_nil_r.
    apply exec_hydrateList_calls in Hdp as [Hdp Hcalls].
    apply IH in Hrest as (Hrest & fetches & Hfetches & ->).
    split; [by constructor|]. exists (tr1 :: fetches).
    split; [by constructor|done].
Qed.

(** X7: the state [hydrate] returns is what the services answered (lines
    108-155).  The pairings are those of the source, in order, followed by
    the watchlist pairing built from the answer of [WatchlistGet], and
    hydration changes nothing of a pairing but its mirror side.  The calls
    of the run are those of the sourcing, the fetch of the watchlist, then
    for every pairing in order its own calls, then the two [RatingsGet]
    calls; the mirror side of the pairing at a position is the answer of
    the fetch at that position, the watchlist through [WatchlistItemsGet],
    a list through [ListItemsGet] on its mirror identifier (answered
    without an error, or not-found and then created); the ratings pairing
    holds the answers of the two [RatingsGet] calls, and nothing else. *)
Theorem hydrate_returns_what_the_services_answered {World : Type}
    (respond : forall c : call, World -> answer c * World)
    (u u' : user) (w w' : World) (tr : list event) :
  exec respond (hydrate u) w = (Returned u', w', tr) ->
  exists sourced w1 tr1 watchlistId imdbList fetches,
    exec respond (sourceLists u) w = (Returned sourced, w1, tr1)
    /\ Forall2 (fun dp dp' =>
                  dp' = DataPair.withTraktList dp (DataPair.TraktList dp'))
               (sourced ++ [watchlistPair watchlistId imdbList]) (lists u')
    /\ Forall2 hydrationCalls (lists u') fetches
    /\ tr = tr1
            ++ Ev ImdbWatchlistGet (Some watchlistId, imdbList, None)
            :: concat fetches
            ++ [Ev ImdbRatingsGet (DataPair.ImdbList (ratings u'), None);
                Ev TraktRatingsGet (DataPair.TraktList (ratings u'), None)]
    /\ ratings u'
       = {| DataPair.ImdbList := DataPair.ImdbList (ratings u');
            DataPair.ImdbListId := ""; DataPair.ImdbListName := "";
            DataPair.TraktList := DataPair.TraktList (ratings u');
            DataPair.TraktListId := ""; DataPair.IsWatchlist := false |}.
Proof.
  unfold hydrate. rewrite exec_bind.
  destruct (exec respond (sourceLists u) w) as [[[sourced|e|m e|] w1] tr1] eqn:Hsource;
    try done.
  simpl.
  destruct (respond ImdbWatchlistGet w1) as [[[[wid|] il] [e|]] w2] eqn:Hwl;
    simpl; try done.
  rewrite exec_bind.
  destruct (exec respond (hydrateLists _) w2) as [[[hydrated|e|m e|] w3] tr3] eqn:Hh;
    try done.
  simpl.
  destruct (respond ImdbRatingsGet w3) as [[ir [e|]] w4]; simpl; [done|].
  destruct (respond TraktRatingsGet w4) as [[trk [e|]] w5]; simpl; [done|].
  intros [= <- <- <-]. simpl.
  apply exec_hydrateLists_calls in Hh as (Hshape & fetches & Hfetches & ->).
  exists sourced, w1, tr1, wid, il, fetches. done.
Qed.

(** ** Hydration: when a mirror list is created *)

Lemma exec_hydrateList_creates {World : Type}
    (respond : forall c : call, World -> answer c * World)
    (dp : DataPair.t) (w w' : World) (o : outcome DataPair.t) (tr : list event)
    (ev : event) (listId listName : string) :
  exec respond (hydrateList dp) w = (o, w', tr) ->
  ev ∈ tr -> ev_call ev = TraktListAdd listId listName ->
  exists items e code,
    tr = [ Ev (TraktListItemsGet listId) (items, Some e);
           Ev (LoggerWarn
                 "silencing not found error while hydrating the syncer with trakt lists"
                 (ApiError code)) tt;
           ev ]
    /\ isNotFound e = true /\ errorsAs e = Some code
    /\ DataPair.IsWatchlist dp = false
    /\ listId = DataPair.TraktListId dp /\ listName = DataPair.ImdbListName dp.
Proof.
  unfold hydrateList. destruct (DataPair.IsWatchlist dp) eqn:Hwl; simpl.
  - destruct (respond TraktWatchlistItemsGet w) as [[items [e|]] w1]; simpl;
      intros [= <- <- <-] [->|Hin%elem_of_nil]%elem_of_cons; done.
  - destruct (respond (TraktListItemsGet _) w) as [[items [e|]] w1]; simpl.
    2:{ intros [= <- <- <-] [->|Hin%elem_of_nil]%elem_of_cons; done. }
    destruct (errorsAs e) as [code|] eqn:Has.
    2:{ intros [= <- <- <-] [->|Hin%elem_of_nil]%elem_of_cons; done. }
    case_bool_decide as Hcode.
    2:{ intros [= <- <- <-] [->|Hin%elem_of_nil]%elem_of_cons; done. }
    simpl. destruct (respond (LoggerWarn _ _) w1) as [[] w2].
    destruct (respond (TraktListAdd _ _) w2) as [err w3].
    assert (Hshape : forall o',
              (o', w3,
               [ Ev (TraktListItemsGet (DataPair.TraktListId dp)) (items, Some e);
                 Ev (LoggerWarn
                       "silencing not found error while hydrating the syncer with trakt lists"
                       (ApiError code)) tt;
                 Ev (TraktListAdd (DataPair.TraktListId dp)
                                  (DataPair.ImdbListName dp)) err ])
              = (o, w', tr) ->
              ev ∈ tr -> ev_call ev = TraktListAdd listId listName ->
              exists items e code,
                tr = [ Ev (TraktListItemsGet listId) (items, Some e);
                       Ev (LoggerWarn
                             "silencing not found error while hydrating the syncer with trakt lists"
                             (ApiError code)) tt;
                       ev ]
                /\ isNotFound e = true /\ errorsAs e = Some code
                /\ false = false
                /\ listId = DataPair.TraktListId dp
                /\ listName = DataPair.ImdbListName dp).
    { intros o' [= <- <- <-]
        [->|[->|[->|Hin%elem_of_nil]%elem_of_cons]%elem_of_cons]%elem_of_cons;
        try done.
      simpl. intros [= <- <-]. exists items, e, code.
      split; [done|]. split; [|done].
      unfold isNotFound. rewrite Has. by apply bool_decide_eq_true_2. }
    destruct err as [e'|]; simpl; apply Hshape.
Qed.

Lemma exec_hydrateLists_creates {World : Type}
    (respond : forall c : call, World -> answer c * World)
    (dps : list DataPair.t) (w w' : World) (o : outcome (list DataPair.t))
    (tr : list event) (ev : event) (listId listName : string) :
  exec respond (hydrateLists dps) w = (o, w', tr) ->
  ev ∈ tr -> ev_call ev = TraktListAdd listId listName ->
  exists pre post items e code dp,
    tr = pre
         ++ Ev (TraktListItemsGet listId) (items, Some e)
         :: Ev (LoggerWarn
                  "silencing not found error while hydrating the syncer with trakt lists"
                  (ApiError code)) tt
         :: ev :: post
    /\ isNotFound e = true /\ errorsAs e = Some code
    /\ dp ∈ dps /\ DataPair.IsWatchlist dp = false
    /\ listId = DataPair.TraktListId dp /\ listName = DataPair.ImdbListName dp.
Proof.
  revert w o tr. induction dps as [|dp rest IH]; intros w o tr.
  - simpl. intros [= <- <- <-] Hin. by apply elem_of_nil in Hin.
  - rewrite exec_hydrateLists_cons.
    destruct (exec respond (hydrateList dp) w) as [[o1 w1] t1] eqn:Hdp.
    assert (Hhere : ev ∈ t1 -> ev_call ev = TraktListAdd listId listName ->
              forall t2,
              exists pre post items e code dp0,
                t1 ++ t2 = pre
                     ++ Ev (TraktListItemsGet listId) (items, Some e)
                     :: Ev (LoggerWarn
                              "silencing not found error while hydrating the syncer with trakt lists"
                              (ApiError code)) tt
                     :: ev :: post
                /\ isNotFound e = true /\ errorsAs e = Some code
                /\ dp0 ∈ dp :: rest /\ DataPair.IsWatchlist dp0 = false
                /\ listId = DataPair.TraktListId dp0
                /\ listName = DataPair.ImdbListName dp0).
    { intros Hin Hcall t2.
      destruct (exec_hydrateList_creates respond dp w w1 o1 t1 ev listId listName
                  Hdp Hin Hcall) as (items & e & code & -> & ? & ? & ? & ? & ?).
      exists [], t2, items, e, code, dp. split; [done|].
      repeat split; try done. apply list_elem_of_here. }
    destruct o1 as [dp'|e1|m1 e1|].
    2,3,4: intros [= <- <- <-] Hin Hcall;
           destruct (Hhere Hin Hcall []) as (pre & post & Hrest);
           rewrite app_nil_r in Hrest; by exists pre, post.
    destruct (exec respond (hydrateLists rest) w1) as [[o2 w2] t2] eqn:Hrest.
    intros [= <- <- <-] [Hin|Hin]%elem_of_app Hcall; [by apply Hhere|].
    destruct (IH _ _ _ Hrest Hin Hcall)
      as (pre & post & items & e & code & dp0 & -> & ? & ? & ? & ? & ? & ?).
    exists (t1 ++ pre), post, items, e, code, dp0.
    split; [by rewrite <- app_assoc|]. repeat split; try done.
    by apply list_elem_of_further.
Qed.

(** The calls that create no mirror list. *)
Lemma sourceLists_creates_nothing (u : user) :
  onlyCalls (fun c => forall listId listName, c <> TraktListAdd listId listName)
            (sourceLists u).
Proof.
  unfold sourceLists. case_bool_decide.
  - apply onlyCalls_onError; [|intros; constructor].
    apply onlyCalls_cleanupLoop; done.
  - simpl. constructor; [done|]. intros [dps [e|]]; simpl; constructor.
Qed.

(** X8: a mirror list is created only when its fetch answered not-found.
    In any execution of [hydrate], whatever its outcome, every [ListAdd]
    call comes right after the warning that follows a [ListItemsGet] call
    for the same mirror identifier answered with a not-found error; the
    list is created under the mirror identifier and the display name of a
    pairing that is not the watchlist.  So no list is created for the
    watchlist, for a list whose fetch succeeded, or after any other
    error. *)
Theorem mirror_list_is_created_only_after_not_found {World : Type}
    (respond : forall c : call, World -> answer c * World)
    (u : user) (w w' : World) (o : outcome user) (tr : list event)
    (ev : event) (listId listName : string) :
  exec respond (hydrate u) w = (o, w', tr) ->
  ev ∈ tr -> ev_call ev = TraktListAdd listId listName ->
  exists pre post items e code,
    tr = pre
         ++ Ev (TraktListItemsGet listId) (items, Some e)
         :: Ev (LoggerWarn
                  "silencing not found error while hydrating the syncer with trakt lists"
                  (ApiError code)) tt
         :: ev :: post
    /\ isNotFound e = true /\ errorsAs e = Some code
    /\ exists sourced w1 tr1 dp,
         exec respond (sourceLists u) w = (Returned sourced, w1, tr1)
         /\ dp ∈ sourced /\ DataPair.IsWatchlist dp = false
         /\ listId = DataPair.TraktListId dp
         /\ listName = DataPair.ImdbListName dp.
Proof.
  unfold hydrate. rewrite exec_bind.
  pose proof (onlyCalls_exec respond _ (sourceLists u) w
                (sourceLists_creates_nothing u)) as Hnone.
  destruct (exec respond (sourceLists u) w) as [[o1 w1] tr1] eqn:Hsource.
  simpl in Hnone. rewrite Forall_forall in Hnone.
  assert (Hfirst : ev ∈ tr1 -> ev_call ev = TraktListAdd listId listName -> False).
  { intros Hin Hcall. by apply (Hnone ev Hin listId listName). }
  destruct o1 as [sourced|e1|m1 e1|];
    [|by intros [= <- <- <-] Hin Hcall; destruct (Hfirst Hin Hcall)..].
  simpl.
  destruct (respond ImdbWatchlistGet w1) as [[[wid il] err] w2] eqn:Hwl; simpl.
  destruct err as [e|]; simpl.
  { intros [= <- <- <-] [Hin|[->|Hin%elem_of_nil]%elem_of_cons]%elem_of_app Hcall;
      [by destruct (Hfirst Hin Hcall)|done|done]. }
  destruct wid as [wid|]; simpl.
  2:{ intros [= <- <- <-] [Hin|[->|Hin%elem_of_nil]%elem_of_cons]%elem_of_app Hcall;
        [by destruct (Hfirst Hin Hcall)|done|done]. }
  rewrite exec_bind.
  destruct (exec respond (hydrateLists _) w2) as [[o3 w3] tr3] eqn:Hh.
  assert (Hlists : ev ∈ tr3 -> ev_call ev = TraktListAdd listId listName ->
            forall t4,
            exists pre post items e code,
              tr1 ++ Ev ImdbWatchlistGet (Some wid, il, None) :: tr3 ++ t4
              = pre
                ++ Ev (TraktListItemsGet listId) (items, Some e)
                :: Ev (LoggerWarn
                         "silencing not found error while hydrating the syncer with trakt lists"
                         (ApiError code)) tt
                :: ev :: post
              /\ isNotFound e = true /\ errorsAs e = Some code
              /\ exists sourced' w1' tr1' dp,
                   (Returned sourced, w1, tr1) = (Returned sourced', w1', tr1')
                   /\ dp ∈ sourced' /\ DataPair.IsWatchlist dp = false
                   /\ listId = DataPair.TraktListId dp
                   /\ listName = DataPair.ImdbListName dp).
  { intros Hin Hcall t4.
    destruct (exec_hydrateLists_creates respond _ _ _ _ _ ev listId listName
                Hh Hin Hcall)
      as (pre & post & items & e & code & dp & -> & ? & ? & Hdp & Hnw & ? & ?).
    exists (tr1 ++ Ev ImdbWatchlistGet (Some wid, il, None) :: pre), (post ++ t4),
      items, e, code.
    split; [by rewrite <- !app_assoc|]. split; [done|]. split; [done|].
    exists sourced, w1, tr1, dp. split; [done|].
    apply elem_of_app in Hdp as [Hdp|Hdp]; [done|].
    apply list_elem_of_singleton in Hdp as ->. done. }
  destruct o3 as [hydrated|e3|m3 e3|]; simpl.
  2,3,4: intros [= <- <- <-] [Hin|[->|Hin]%elem_of_cons]%elem_of_app Hcall;
         [by destruct (Hfirst Hin Hcall)|done|];
         destruct (Hlists Hin Hcall []) as (pre & post & Hrest);
         rewrite app_nil_r in Hrest; by exists pre, post.
  destruct (respond ImdbRatingsGet w3) as [[ir err] w4]; simpl.
  destruct err as [e|]; simpl.
  { intros [= <- <- <-] [Hin|[->|Hin]%elem_of_cons]%elem_of_app Hcall;
      [by destruct (Hfirst Hin Hcall)|done|].
    apply elem_of_app in Hin as [Hin|[->|Hin%elem_of_nil]%elem_of_cons];
      [|done|done].
    by apply Hlists. }
  destruct (respond TraktRatingsGet w4) as [[trk err] w5]; simpl.
  assert (Hlast : forall o',
            (o', w5,
             tr1 ++ Ev ImdbWatchlistGet (Some wid, il, None)
                 :: tr3 ++ [Ev ImdbRatingsGet (ir, None); Ev TraktRatingsGet (trk, err)])
            = (o, w', tr) ->
            ev ∈ tr -> ev_call ev = TraktListAdd listId listName ->
            exists pre post items e code,
              tr = pre
                ++ Ev (TraktListItemsGet listId) (items, Some e)
                :: Ev (LoggerWarn
                         "silencing not found error while hydrating the syncer with trakt lists"
                         (ApiError code)) tt
                :: ev :: post
              /\ isNotFound e = true /\ errorsAs e = Some code
              /\ exists sourced' w1' tr1' dp,
                   (Returned sourced, w1, tr1) = (Returned sourced', w1', tr1')
                   /\ dp ∈ sourced' /\ DataPair.IsWatchlist dp = false
                   /\ listId = DataPair.TraktListId dp
                   /\ listName = DataPair.ImdbListName dp).
  { intros o' [= <- <- <-] [Hin|[->|Hin]%elem_of_cons]%elem_of_app Hcall;
      [by destruct (Hfirst Hin Hcall)|done|].
    apply elem_of_app in Hin
      as [Hin|[->|[->|Hin%elem_of_nil]%elem_of_cons]%elem_of_cons];
      [|done|done|done].
    by apply Hlists. }
  destruct err as [e|]; simpl; apply Hlast.
Qed.
(** ** The identifiers seeded from the configuration *)

Lemma length_Split (s : string) (sep : ascii) :
  length (Split s sep) = S (length (filter (fun c => c = sep) (bytes s))).
Proof.
  induction s as [|c rest IH]; simpl; [done|].
  rewrite filter_cons. destruct (Ascii.eqb_spec c sep) as [->|Hne].
  - rewrite decide_True by done. simpl. by rewrite IH.
  - rewrite decide_False by done. rewrite <- IH.
    by destruct (Split rest sep).
Qed.

Lemma Split_snoc_sep (s : string) (sep : ascii) :
  Split (s +:+ String sep "") sep = Split s sep ++ [""].
Proof.
  induction s as [|c rest IH]; simpl.
  - by rewrite Ascii.eqb_refl.
  - rewrite IH. destruct (Ascii.eqb c sep); [done|].
    pose proof (Split_nonempty rest sep) as Hne.
    by destruct (Split rest sep).
Qed.

(** X9: the pairings [NewSyncer] seeds from [IMDB_LIST_IDS] (lines 72-79).
    For a value that is neither empty nor the sentinel, there is one
    pairing per comma-separated piece, that is one more than the value has
    commas, so at least one, and hydration takes the explicit mode; an
    identifier holds no space and no comma; nothing of a pairing but its
    identifier is set; and a piece that is empty is not skipped: a value
    that ends in a comma seeds a last pairing with the empty identifier. *)
Theorem seedLists_one_pairing_per_piece (imdbListIdsString : string) :
  imdbListIdsString <> "" -> imdbListIdsString <> "all" ->
  length (seedLists imdbListIdsString) = S (commas imdbListIdsString)
  /\ seedLists imdbListIdsString <> []
  /\ Forall (fun dp =>
               (" "%char ∉ bytes (DataPair.ImdbListId dp))
               /\ (","%char ∉ bytes (DataPair.ImdbListId dp))
               /\ dp = {| DataPair.ImdbList := [];
                          DataPair.ImdbListId := DataPair.ImdbListId dp;
                          DataPair.ImdbListName := "";
                          DataPair.TraktList := [];
                          DataPair.TraktListId := "";
                          DataPair.IsWatchlist := false |})
            (seedLists imdbListIdsString)
  /\ (forall prefix,
        imdbListIdsString = prefix +:+ "," ->
        DataPair.ImdbListId <$> last (seedLists imdbListIdsString) = Some "").
Proof.
  intros Hne Hall. unfold seedLists.
  rewrite !bool_decide_eq_true_2 by done. simpl.
  split; [by rewrite length_fmap, length_Split|].
  split.
  { pose proof (Split_nonempty imdbListIdsString ",") as Hs.
    by destruct (Split imdbListIdsString ","). }
  split.
  - apply Forall_fmap.
    eapply Forall_impl; [apply (Split_pieces_without_sep imdbListIdsString ",")|].
    intros piece Hpiece. simpl. rewrite ReplaceAll_removes.
    split; [|split; [|done]].
    + intros [Hsp _]%list_elem_of_filter. done.
    + intros [_ Hin]%list_elem_of_filter. done.
  - intros prefix ->. rewrite Split_snoc_sep, fmap_app.
    change (seedPair <$> [""]) with [seedPair ""]. by rewrite last_snoc.
Qed.

(** ** The pairings [cleanupLists] keeps *)

Lemma elem_of_fetchedIds (tr : list event) (listId : string) :
  listId ∈ fetchedIds tr ->
  exists r, Ev (ImdbListItemsGet listId) r ∈ tr.
Proof.
  induction tr as [|ev tr IH]; [by intros ?%elem_of_nil|].
  rewrite fetchedIds_cons. destruct ev as [c r]. simpl.
  destruct c; try (intros Hin; destruct (IH Hin) as [r' ?]; exists r';
                   by apply list_elem_of_further).
  intros [->|Hin]%elem_of_cons.
  - exists r. apply list_elem_of_here.
  - destruct (IH Hin) as [r' ?]. exists r'. by apply list_elem_of_further.
Qed.

Lemma elem_of_foundPairings (tr : list event) (dp : DataPair.t) :
  dp ∈ foundPairings tr <-> exists ev, ev ∈ tr /\ foundPairing ev = Some dp.
Proof. unfold foundPairings. apply list_elem_of_omap. Qed.

Lemma foundPairing_fields (ev : event) (dp : DataPair.t) :
  foundPairing ev = Some dp ->
  ev = Ev (ImdbListItemsGet (DataPair.ImdbListId dp))
          (Some (DataPair.ImdbListName dp), DataPair.ImdbList dp, None)
  /\ DataPair.TraktList dp = []
  /\ DataPair.TraktListId dp = FormatTraktListName (DataPair.ImdbListName dp)
  /\ DataPair.IsWatchlist dp = false.
Proof.
  destruct ev as [c r]. destruct c; try done. simpl in *.
  destruct r as [[[name|] items] [e|]]; try done. by intros [= <-].
Qed.

(** X10: what [cleanupLists] returns (lines 289-317).  The pairings it
    returns are in the order of the input, their identifiers a
    sub-sequence of the input identifiers, so never more than the input
    has; each holds the name and the items its fetch answered, the mirror
    identifier formatted from that name, an empty mirror side, and is not
    the watchlist; and an identifier of the input is left out only if its
    fetch answered a not-found error. *)
Theorem cleanupLists_keeps_the_lists_that_exist {World : Type}
    (respond : forall c : call, World -> answer c * World)
    (userLists ls : list DataPair.t) (w w' : World) (tr : list event) :
  exec respond (cleanupLists userLists) w = (Returned ls, w', tr) ->
  DataPair.ImdbListId <$> ls `sublist_of` DataPair.ImdbListId <$> userLists
  /\ (length ls <= length userLists)%nat
  /\ Forall (fun dp =>
               Ev (ImdbListItemsGet (DataPair.ImdbListId dp))
                  (Some (DataPair.ImdbListName dp), DataPair.ImdbList dp, None) ∈ tr
               /\ DataPair.TraktList dp = []
               /\ DataPair.TraktListId dp
                  = FormatTraktListName (DataPair.ImdbListName dp)
               /\ DataPair.IsWatchlist dp = false) ls
  /\ (forall listId,
        listId ∈ DataPair.ImdbListId <$> userLists ->
        listId ∉ DataPair.ImdbListId <$> ls ->
        exists name items e,
          Ev (ImdbListItemsGet listId) (name, items, Some e) ∈ tr
          /\ isNotFound e = true).
Proof.
  intros Hx.
  destruct (exec_cleanupLists respond userLists w w' _ tr Hx)
    as (_ & Hret & _).
  destruct (Hret ls eq_refl) as (-> & Hids & Hnf).
  assert (Hsub : DataPair.ImdbListId <$> foundPairings tr
                 `sublist_of` DataPair.ImdbListId <$> userLists).
  { etrans; [apply foundPairings_ids|]. rewrite Hids. apply sublist_dedup. }
  split; [done|]. split.
  { apply sublist_length in Hsub. by rewrite !length_fmap in Hsub. }
  split.
  - apply Forall_forall. intros dp (ev & Hin & Hf)%elem_of_foundPairings.
    apply foundPairing_fields in Hf as (-> & ? & ? & ?). done.
  - intros listId Hin Hout.
    assert (Hfetched : listId ∈ fetchedIds tr).
    { rewrite Hids. unfold firstOccurrences. apply elem_of_dedup.
      split; [done|apply not_elem_of_nil]. }
    apply elem_of_fetchedIds in Hfetched as [[[name items] err] Hev].
    destruct err as [e|].
    + exists name, items, e. split; [done|].
      rewrite Forall_forall in Hnf. by apply (Hnf _ Hev).
    + destruct name as [name|].
      * destruct Hout. apply list_elem_of_fmap.
        eexists. split; last first.
        { apply elem_of_foundPairings. eexists. split; [exact Hev|reflexivity]. }
        done.
      * assert (Hd : disciplined [] isHydrateCall (cleanupLists userLists)).
        { apply disciplined_cleanupLoop. rewrite length_replicate. lia. }
        destruct (disciplined_exec respond _ _ _ _ _ _ _ Hd Hx)
          as (_ & _ & _ & _ & Hnils & _).
        by specialize (Hnils _ Hev eq_refl).
Qed.

(** ** Ratings: the update phase at rest *)

(** X11: the update phase of [syncRatings] issues no call exactly when the
    ratings agree (lines 252-284): when every rated source item has the
    rating of every mirror item of its key.  A source item without a rating
    and a mirror item of an unknown type cause no update; whatever is in
    the update batch has a key. *)
Theorem ratings_in_agreement_cause_no_update {World : Type}
    (respond : forall c : call, World -> answer c * World)
    (userRatings : DataPair.t) (w : World) :
  ((exec respond (syncRatingsUpdate userRatings) w).2 = []
   <-> forall x y r,
         x ∈ DataPair.ImdbList userRatings ->
         y ∈ DataPair.TraktList userRatings ->
         ImdbItem.Rating x = Some r -> traktKey y = imdbKey x ->
         r = TraktItem.Rating y)
  /\ ((exec respond (syncRatingsUpdate userRatings) w).2 = [] ->
      exec respond (syncRatingsUpdate userRatings) w = (Returned tt, w, []))
  /\ (forall z,
        z ∈ updateScan (DataPair.ImdbList userRatings)
              (DataPair.TraktList userRatings) [] ->
        exists key, traktKey z = Some key).
Proof.
  rewrite exec_syncRatingsUpdate.
  pose proof (elem_of_updateScan (DataPair.ImdbList userRatings)
                (DataPair.TraktList userRatings)) as Hscan.
  split; [split|split].
  - intros Hnone x y r Hx Hy Hr Hkey.
    destruct (decide (r = TraktItem.Rating y)) as [|Hne]; [done|].
    assert (Hin : stampItem y r (Time_String (Time.UTC (ImdbItem.RatingDate x)))
                  ∈ updateScan (DataPair.ImdbList userRatings)
                      (DataPair.TraktList userRatings) []).
    { apply Hscan. by exists x, y, r. }
    destruct (updateScan _ _ []) as [|z zs]; [by apply elem_of_nil in Hin|].
    cbv zeta in Hnone. by destruct (respond (TraktRatingsAdd (z :: zs)) w).
  - intros Hagree.
    destruct (updateScan _ _ []) as [|z zs] eqn:Hu; [done|].
    assert (Hin : z ∈ z :: zs) by apply list_elem_of_here.
    apply Hscan in Hin as (x & y & r & Hx & Hy & Hr & Hkey & Hne & _).
    by destruct Hne; apply (Hagree x y r).
  - destruct (updateScan _ _ []) as [|z zs]; [done|].
    cbv zeta. by destruct (respond (TraktRatingsAdd (z :: zs)) w).
  - intros z (x & y & r & Hx & Hy & Hr & Hkey & Hne & ->)%Hscan.
    unfold imdbKey in Hkey.
    destruct (stampItem_spec y r (Time_String (Time.UTC (ImdbItem.RatingDate x)))
                _ Hkey) as (? & ? & _ & _ & _ & ? & _).
    by eexists.
Qed.

(** ** Batches *)

Lemma onlyCalls_weaken (P Q : call -> Prop) {A : Type} (p : Prog A) :
  (forall c, P c -> Q c) -> onlyCalls P p -> onlyCalls Q p.
Proof. intros HPQ. induction 1; constructor; auto. Qed.

Lemma nonEmptyBatch_hydrate (c : call) :
  isHydrateCall c = true -> nonEmptyBatch c = true.
Proof. by destruct c. Qed.

Lemma disciplined_onlyCalls (exits : list string) (P : call -> bool) {A : Type}
    (p : Prog A) :
  disciplined exits P p -> onlyCalls (fun c => P c = true) p.
Proof.
  induction 1 as [a|e|m e Hm|c k Hc Hk Hnil Hd IH].
  - constructor.
  - constructor.
  - constructor.
  - constructor; [done|].
    intros r. destruct (nilAnswer (Ev c r)) eqn:Hr.
    + rewrite (Hnil r Hr). constructor.
    + by apply IH.
Qed.

Lemma positive_length {A : Type} (l : list A) :
  (0 < length l)%nat -> bool_decide (l <> []) = true.
Proof.
  intros Hl. apply bool_decide_eq_true_2. destruct l; [simpl in Hl; lia|done].
Qed.

Lemma syncList_batches (dp : DataPair.t) :
  onlyCalls (fun c => nonEmptyBatch c = true) (syncList dp).
Proof.
  unfold syncList. cbv zeta. destruct (DataPair.IsWatchlist dp).
  - apply onlyCalls_bind.
    + case_bool_decide; [|constructor]. simpl.
      constructor; [by apply positive_length|]. intros err. apply onlyCalls_check.
    + intros _. case_bool_decide; [|constructor]. simpl.
      constructor; [by apply positive_length|]. intros err. apply onlyCalls_check.
  - apply onlyCalls_bind.
    + case_bool_decide; [|constructor]. simpl.
      constructor; [by apply positive_length|]. intros err. apply onlyCalls_check.
    + intros _. case_bool_decide; [|constructor]. simpl.
      constructor; [by apply positive_length|]. intros err. apply onlyCalls_check.
Qed.

Lemma syncLists_batches (u : user) :
  onlyCalls (fun c => nonEmptyBatch c = true) (syncLists u).
Proof.
  unfold syncLists. apply onlyCalls_bind.
  - induction (lists u) as [|dp rest IH]; simpl; [constructor|].
    apply onlyCalls_bind; [apply syncList_batches|]. by intros _.
  - intros _. simpl. constructor; [done|]. intros [traktLists [e|]]; simpl;
      [constructor|].
    induction traktLists as [|traktList rest IH]; simpl; [constructor|].
    destruct (contains (lists u) (TraktList.Name traktList)); simpl; [done|].
    constructor; [done|]. intros [e|]; simpl; [constructor|done].
Qed.

Lemma syncRatings_batches (u : user) :
  onlyCalls (fun c => nonEmptyBatch c = true) (syncRatings u).
Proof.
  unfold syncRatings. cbv zeta.
  apply onlyCalls_bind; [|intros _; apply onlyCalls_bind].
  - unfold syncRatingsAdd. case_bool_decide; [|constructor]. simpl.
    constructor; [by apply positive_length|]. intros [e|]; simpl; [constructor|].
    apply onlyCalls_bind; [by apply onlyCalls_historyAddScan|].
    intros batch. case_bool_decide; [|constructor]. simpl.
    constructor; [by apply positive_length|]. intros err. apply onlyCalls_check.
  - unfold syncRatingsRemove. case_bool_decide; [|constructor]. simpl.
    constructor; [by apply positive_length|]. intros [e|]; simpl; [constructor|].
    apply onlyCalls_bind; [by apply onlyCalls_historyRemoveScan|].
    intros batch. case_bool_decide; [|constructor]. simpl.
    constructor; [by apply positive_length|]. intros err. apply onlyCalls_check.
  - intros _. unfold syncRatingsUpdate. cbv zeta.
    case_bool_decide; [|constructor]. simpl.
    constructor; [by apply positive_length|]. intros err. apply onlyCalls_check.
Qed.

(** X12: a run never sends an empty batch.  Every call of a run that adds
    or removes items of the watchlist, items of a list, ratings or history
    entries carries at least one item: an empty diff, an empty history
    batch and an empty update batch cause no call (the [len(...) > 0]
    guards of [syncLists] and [syncRatings]). *)
Theorem Run_never_sends_an_empty_batch {World : Type}
    (respond : forall c : call, World -> answer c * World)
    (u : user) (w w' : World) (o : outcome unit) (tr : list event) :
  exec respond (Run u) w = (o, w', tr) ->
  Forall (fun ev => nonEmptyBatch (ev_call ev) = true) tr
  /\ forall ev items,
       ev ∈ tr ->
       ev_call ev = TraktWatchlistItemsAdd items
       \/ ev_call ev = TraktWatchlistItemsRemove items
       \/ (exists listId, ev_call ev = TraktListItemsAdd listId items)
       \/ (exists listId, ev_call ev = TraktListItemsRemove listId items)
       \/ ev_call ev = TraktRatingsAdd items
       \/ ev_call ev = TraktRatingsRemove items
       \/ ev_call ev = TraktHistoryAdd items
       \/ ev_call ev = TraktHistoryRemove items ->
       items <> [].
Proof.
  intros Hrun.
  assert (Hp : onlyCalls (fun c => nonEmptyBatch c = true) (Run u)).
  { unfold Run, orFatal. apply onlyCalls_bind.
    { apply onlyCalls_onError; [|intros; constructor].
      eapply onlyCalls_weaken; [apply nonEmptyBatch_hydrate|].
      apply (disciplined_onlyCalls []), disciplined_hydrate. }
    intros u1. apply onlyCalls_bind.
    { apply onlyCalls_onError; [|intros; constructor]. apply syncLists_batches. }
    intros _. apply onlyCalls_bind.
    { apply onlyCalls_onError; [|intros; constructor]. apply syncRatings_batches. }
    intros _. constructor; [done|]. intros []. constructor. }
  pose proof (onlyCalls_exec respond _ (Run u) w Hp) as Hall.
  rewrite Hrun in Hall. simpl in Hall. split; [done|].
  intros ev items Hin Hcall. rewrite Forall_forall in Hall.
  specialize (Hall ev Hin).
  destruct Hcall as [H|[H|[[? H]|[[? H]|[H|[H|[H|H]]]]]]];
    rewrite H in Hall; simpl in Hall; by apply bool_decide_eq_true in Hall.
Qed.
(** ** Lists: the calls of a sync that succeeds *)

Lemma exec_syncList_returned {World : Type}
    (respond : forall c : call, World -> answer c * World)
    (dp : DataPair.t) (w w' : World) (tr : list event) :
  exec respond (syncList dp) w = (Returned tt, w', tr) ->
  tr = appliedDiff dp.
Proof.
  unfold syncList, appliedDiff. cbv zeta.
  destruct (DataPair.IsWatchlist dp); rewrite exec_bind.
  - destruct (Difference dp !!! "add") as [|a toAdd]; simpl.
    + destruct (Difference dp !!! "remove") as [|r toRemove]; simpl.
      * by intros [= <- <-].
      * destruct (respond (TraktWatchlistItemsRemove _) w) as [[e|] w1]; simpl;
          [done|]. by intros [= <- <-].
    + destruct (respond (TraktWatchlistItemsAdd _) w) as [[e|] w1]; simpl; [done|].
      destruct (Difference dp !!! "remove") as [|r toRemove]; simpl.
      * by intros [= <- <-].
      * destruct (respond (TraktWatchlistItemsRemove _) w1) as [[e|] w2]; simpl;
          [done|]. by intros [= <- <-].
  - destruct (Difference dp !!! "add") as [|a toAdd]; simpl.
    + destruct (Difference dp !!! "remove") as [|r toRemove]; simpl.
      * by intros [= <- <-].
      * destruct (respond (TraktListItemsRemove _ _) w) as [[e|] w1]; simpl;
          [done|]. by intros [= <- <-].
    + destruct (respond (TraktListItemsAdd _ _) w) as [[e|] w1]; simpl; [done|].
      destruct (Difference dp !!! "remove") as [|r toRemove]; simpl.
      * by intros [= <- <-].
      * destruct (respond (TraktListItemsRemove _ _) w1) as [[e|] w2]; simpl;
          [done|]. by intros [= <- <-].
Qed.

Lemma exec_syncListsLoop_returned {World : Type}
    (respond : forall c : call, World -> answer c * World)
    (dps : list DataPair.t) (w w' : World) (tr : list event) :
  exec respond (syncListsLoop dps) w = (Returned tt, w', tr) ->
  tr = dps ≫= appliedDiff.
Proof.
  revert w tr. induction dps as [|dp rest IH]; intros w tr; simpl.
  - by intros [= <- <-].
  - rewrite exec_bind.
    destruct (exec respond (syncList dp) w) as [[[[]|e|m e|] w1] t1] eqn:Hdp;
      try done.
    destruct (exec respond (syncListsLoop rest) w1) as [[o2 w2] t2] eqn:Hrest.
    intros [= -> <- <-].
    apply exec_syncList_returned in Hdp as ->.
    by apply IH in Hrest as ->.
Qed.

(** X13: the calls of a [syncLists] that returns (lines 158-198).  They
    are, for every pairing in order, its items to add and then its items to
    remove, one call each to the watchlist for the watchlist pairing and to
    the list of the pairing otherwise, an empty batch in no call; then the
    fetch of the mirror lists; then the removal of every orphan among them,
    in order.  Every call was answered without an error. *)
Theorem syncLists_applies_every_diff_in_order {World : Type}
    (respond : forall c : call, World -> answer c * World)
    (u : user) (w w' : World) (tr : list event) :
  exec respond (syncLists u) w = (Returned tt, w', tr) ->
  exists traktLists,
    tr = (lists u ≫= appliedDiff)
         ++ Ev TraktListsGet (traktLists, None)
         :: (listRemoved <$> orphans (lists u) traktLists)
    /\ Forall (fun ev => answerError ev = None) tr.
Proof.
  intros Hx.
  destruct (exec_syncLists respond u w w' _ tr Hx)
    as (traktLists & deleted & _ & _ & _ & Hret).
  destruct (Hret eq_refl) as (_ & w1 & tr1 & Hloop & _ & ->).
  apply exec_syncListsLoop_returned in Hloop as ->.
  exists traktLists. split; [done|].
  apply Forall_app. split; [|constructor; [done|]].
  - apply Forall_forall. intros ev (dp & Hev & _)%list_elem_of_bind.
    unfold appliedDiff in Hev. cbv zeta in Hev.
    apply elem_of_app in Hev as [Hev|Hev].
    + destruct (Difference dp !!! "add"); [by apply elem_of_nil in Hev|].
      apply list_elem_of_singleton in Hev as ->.
      by destruct (DataPair.IsWatchlist dp).
    + destruct (Difference dp !!! "remove"); [by apply elem_of_nil in Hev|].
      apply list_elem_of_singleton in Hev as ->.
      by destruct (DataPair.IsWatchlist dp).
  - apply Forall_fmap. by apply Forall_forall.
Qed.
End Syncer.

(** * The properties at work on the example remote *)

(** C7, as the claim states it: every input of the run configuration is
    validated for presence.  It is not: with the seven required variables
    set and [IMDB_USER_ID] missing, [validateEnvVars] reports nothing, and
    [NewSyncer] goes on to build the IMDb client with an empty user id. *)
Lemma validateEnvVars_accepts_missing_user_id :
  ~ (forall key, key ∈ recognisedEnvVarKeys ->
                 LookupEnv envWithoutUserId key = None ->
                 validateEnvVars envWithoutUserId <> None)
  /\ exists k,
       NewSyncer envWithoutUserId
       = Do (NewImdbClient {| CookieAtMain := "at-main";
                              CookieUbidMain := "ubid-main";
                              UserId := "" |}) k.
Proof.
  split.
  - intros Hall. apply (Hall EnvVarKeyUserId).
    + apply (bool_decide_unpack _). by vm_compute.
    + by vm_compute.
    + by vm_compute.
  - eexists. vm_compute. reflexivity.
Qed.

(** With the seven required variables set nothing is reported; with none set,
    [NewSyncer] exits naming all seven. *)
Lemma validateEnvVars_names_every_missing_required_witness :
  validateEnvVars envWithoutUserId = None
  /\ NewSyncer ∅
     = Fatal "failure validating environment variables"
             (MissingEnvironmentVariablesError requiredEnvVarKeys).
Proof.
  split.
  - destruct (validateEnvVars_names_every_missing_required envWithoutUserId)
      as (_ & Hpresent & _).
    apply Hpresent. by vm_compute.
  - destruct (validateEnvVars_names_every_missing_required ∅)
      as (_ & _ & Hmissing).
    destruct Hmissing as [_ Hfatal]; [by vm_compute|].
    rewrite Hfatal. by vm_compute.
Defined.

(** [IMDB_LIST_IDS="A, A,B"] seeds the identifiers A, A and B. *)
Lemma seedLists_explicit_or_discovery_witness :
  DataPair.ImdbListId <$> lists exampleSeed = ["A"; "A"; "B"].
Proof.
  rewrite (proj2 (proj2 (proj2 (proj2 (proj2
             (seedLists_explicit_or_discovery exampleFormat "A, A,B")))))
             envWithoutUserId Remote remoteRespond exampleRemote exampleSeed).
  - by vm_compute.
  - by vm_compute.
  - by vm_compute.
Defined.

(** The pairing of "B": tt2 is on the source side only, so it is to add. *)
Lemma Difference_is_symmetric_difference_by_key_witness :
  asTraktItem exampleTimeString (movie "tt2" None)
  ∈ Difference exampleTimeString
      (DataPair.withTraktList examplePairB [mirrorMovie "tt9" 0]) !!! "add".
Proof.
  apply (proj1 (proj2 (proj2
           (Difference_is_symmetric_difference_by_key exampleTimeString
              (DataPair.withTraktList examplePairB [mirrorMovie "tt9" 0]))))
           (movie "tt2" None)).
  - apply list_elem_of_here.
  - apply (bool_decide_unpack _). by vm_compute.
Defined.

(** tt1 is rated 9 on the source and 8 on the mirror: it is updated to 9. *)
Lemma differing_ratings_are_updated_not_diffed_witness :
  stampItem (mirrorMovie "tt1" 8) 9 "UTC"
  ∈ updateScan exampleTimeString (imdb_ratings exampleRemote)
      (trakt_ratings exampleRemote) [].
Proof.
  apply (proj1 (differing_ratings_are_updated_not_diffed exampleTimeString
                  exampleHydrated)
           (movie "tt1" (Some 9)) (mirrorMovie "tt1" 8) 9).
  - apply list_elem_of_here.
  - apply list_elem_of_here.
  - reflexivity.
  - reflexivity.
  - by vm_compute.
Defined.

(** tt4 and tt5 are rated on the source only; tt5 is in the mirror history
    already, so the history batch holds tt4 alone. *)
Lemma history_add_skips_items_in_history_witness :
  let toAdd := Difference exampleTimeString (ratings exampleHydrated) !!! "add" in
  let run := exec remoteRespond (syncRatingsAdd toAdd) exampleRemote in
  toAdd = [asTraktItem exampleTimeString (movie "tt4" (Some 7));
           asTraktItem exampleTimeString (movie "tt5" (Some 6))]
  /\ exists histories,
       run.2 = Ev (TraktRatingsAdd toAdd) None
               :: historyQueries toAdd histories
               ++ [Ev (TraktHistoryAdd
                         [asTraktItem exampleTimeString (movie "tt4" (Some 7))])
                      None].
Proof.
  intros toAdd run. split; [by vm_compute|].
  destruct (history_add_skips_items_in_history remoteRespond toAdd
              exampleRemote run.1.2 run.1.1 run.2) as [Hadd _].
  { unfold run. by destruct (exec remoteRespond _ exampleRemote) as [[? ?] ?]. }
  destruct (Hadd (Ev (TraktHistoryAdd
                        [asTraktItem exampleTimeString (movie "tt4" (Some 7))])
                     None)
                 [asTraktItem exampleTimeString (movie "tt4" (Some 7))])
    as (_ & histories & _ & _ & Htr & _).
  - vm_compute. do 3 apply list_elem_of_further. apply list_elem_of_here.
  - reflexivity.
  - exists histories. exact Htr.
Defined.

(** [syncLists] on the example returns, having deleted the orphans. *)
Lemma orphan_lists_are_deleted_once_witness :
  let run := exec remoteRespond (syncLists exampleTimeString exampleHydrated)
               exampleRemote in
  run.1.1 = Returned tt
  /\ exists traktLists,
       deletedSlugs run.2 = slugOf <$> orphans (lists exampleHydrated) traktLists.
Proof.
  intros run. split; [by vm_compute|].
  destruct (orphan_lists_are_deleted_once exampleTimeString remoteRespond
              exampleHydrated exampleRemote run.1.2 run.1.1 run.2)
    as (traktLists & deleted & _ & Hslugs & _ & _ & _ & Hret).
  { unfold run. by destruct (exec remoteRespond _ exampleRemote) as [[? ?] ?]. }
  exists traktLists. destruct Hret as [<- _]; [by vm_compute|]. exact Hslugs.
Defined.

(** The identifiers A, A, B: A is fetched once, two pairings come back. *)
Lemma cleanupLists_dedups_and_drops_not_found_witness :
  let run := exec remoteRespond (cleanupLists exampleFormat (lists exampleSeed))
               exampleRemote in
  fetchedIds run.2 = ["A"; "B"]
  /\ run.1.1 = Returned [examplePairA; examplePairB].
Proof.
  intros run.
  destruct (cleanupLists_dedups_and_drops_not_found exampleTimeString
              exampleFormat remoteRespond
              (lists exampleSeed) exampleRemote run.1.2 run.1.1 run.2)
    as (_ & _ & _ & _ & _ & _ & _ & _ & Hexample).
  { unfold run. by destruct (exec remoteRespond _ exampleRemote) as [[? ?] ?]. }
  apply (Hexample "A" "B" "a" [movie "tt1" None] "b" [movie "tt2" None]
           exampleRemote exampleRemote).
  - by vm_compute.
  - by vm_compute.
  - by vm_compute.
  - by vm_compute.
Defined.


(** The mirror holds a list named "watchlist"; the run deletes "old" only. *)
Lemma list_named_watchlist_is_never_deleted_witness :
  let run := exec remoteRespond (Run exampleTimeString exampleFormat exampleSeed)
               exampleRemote in
  "watchlist" ∈ TraktList.Name <$> (remoteAnswer exampleRemote TraktListsGet).1
  /\ deletedSlugs run.2 = ["old"]
  /\ exists deleted,
       deletedSlugs run.2 = slugOf <$> deleted
       /\ Forall (fun traktList => TraktList.Name traktList <> "watchlist") deleted.
Proof.
  intros run. split; [apply (bool_decide_unpack _); by vm_compute|].
  split; [by vm_compute|].
  destruct (list_named_watchlist_is_never_deleted exampleTimeString exampleFormat
              remoteRespond exampleSeed exampleRemote run.1.2 run.1.1 run.2)
    as (traktLists & deleted & Hslugs & Hnames & _).
  { unfold run. by destruct (exec remoteRespond _ exampleRemote) as [[? ?] ?]. }
  exists deleted. split; [exact Hslugs|exact Hnames].
Defined.




(** ** More of the code at work on the example remote *)

(** X1: against the mirror that answers 500 to the fetch of list "a", that
    answer is the last of the run, and the run exits with an error that
    wraps it. *)
Lemma Run_stops_at_the_first_error_witness :
  let run := exec brokenRespond (Run exampleTimeString exampleFormat exampleSeed)
               exampleRemote in
  last run.2 = Some (Ev (TraktListItemsGet "a") ([], Some (ApiError 500)))
  /\ exists m e', run.1.1 = Exited m e' /\ wraps e' (ApiError 500).
Proof.
  intros run.
  destruct (Run_stops_at_the_first_error exampleTimeString exampleFormat
              brokenRespond exampleSeed exampleRemote run.1.2 run.1.1 run.2)
    as (_ & _ & Hstop & _).
  { unfold run. by destruct (exec brokenRespond _ exampleRemote) as [[? ?] ?]. }
  destruct (Hstop (Ev (TraktListItemsGet "a") ([], Some (ApiError 500)))
                  (ApiError 500))
    as (Hlast & m & e' & _ & Ho & Hw & _).
  - vm_compute. repeat (first [apply list_elem_of_here | apply list_elem_of_further]).
  - reflexivity.
  - split; [exact Hlast|]. exists m, e'. split; [exact Ho|exact Hw].
Defined.

(** X2: the run against [exampleRemote] logs the closing message, so it
    returned. *)
Lemma Run_exits_under_the_message_of_the_failed_stage_witness :
  let run := exec remoteRespond (Run exampleTimeString exampleFormat exampleSeed)
               exampleRemote in
  run.1.1 = Returned tt
  /\ last run.2 = Some (Ev (LoggerInfo "successfully synced trakt with imdb") tt).
Proof.
  intros run.
  destruct (Run_exits_under_the_message_of_the_failed_stage exampleTimeString
              exampleFormat remoteRespond exampleSeed exampleRemote
              run.1.2 run.1.1 run.2)
    as (_ & _ & _ & _ & _ & Hinfo & Hlast).
  { unfold run. by destruct (exec remoteRespond _ exampleRemote) as [[? ?] ?]. }
  assert (Ho : run.1.1 = Returned tt).
  { apply Hinfo. vm_compute. repeat (first [apply list_elem_of_here | apply list_elem_of_further]). }
  split; [exact Ho|]. exact (Hlast Ho).
Defined.

(** X3: the phases of the run against [exampleRemote]. *)
Lemma Run_hydrates_then_syncs_lists_then_ratings_witness :
  let run := exec remoteRespond (Run exampleTimeString exampleFormat exampleSeed)
               exampleRemote in
  exists t1 t2 t3,
    run.2 = t1 ++ t2 ++ t3
    /\ Forall (fun ev => isHydrateCall (ev_call ev) = true) t1
    /\ Forall (fun ev => isListsCall (ev_call ev) = true) t2.
Proof.
  intros run.
  destruct (Run_hydrates_then_syncs_lists_then_ratings exampleTimeString
              exampleFormat remoteRespond exampleSeed exampleRemote
              run.1.2 run.1.1 run.2)
    as (t1 & t2 & t3 & Htr & H1 & H2 & _).
  { unfold run. by destruct (exec remoteRespond _ exampleRemote) as [[? ?] ?]. }
  exists t1, t2, t3. split; [exact Htr|]. split; [exact H1|exact H2].
Defined.

(** X4: the source answers the fetch of the watchlist with no identifier
    and no error: the run panics, and that answer is its last. *)
Lemma Run_panics_after_a_nil_answer_only_witness :
  let run := exec nilRespond (Run exampleTimeString exampleFormat exampleSeed)
               exampleRemote in
  run.1.1 = Panicked
  /\ last run.2 = Some (Ev ImdbWatchlistGet (None, [], None)).
Proof.
  intros run.
  destruct (Run_panics_after_a_nil_answer_only exampleTimeString exampleFormat
              nilRespond exampleSeed exampleRemote run.1.2 run.1.1 run.2)
    as (Hpanic & Hlast).
  { unfold run. by destruct (exec nilRespond _ exampleRemote) as [[? ?] ?]. }
  assert (Hin : Ev ImdbWatchlistGet (None, [], None) ∈ run.2).
  { vm_compute. repeat (first [apply list_elem_of_here | apply list_elem_of_further]). }
  split.
  - apply Hpanic. exists (Ev ImdbWatchlistGet (None, [], None)).
    split; [exact Hin|reflexivity].
  - by destruct (Hlast _ Hin eq_refl) as [? _].
Defined.

(** X5: with the seven required variables set and [IMDB_USER_ID] missing,
    the Trakt client is built from the four variables that are set, after
    the IMDb client was built without an error. *)
Lemma NewSyncer_builds_the_clients_from_set_variables_witness :
  let run := exec remoteRespond (NewSyncer envWithoutUserId) exampleRemote in
  let cfg := {| ClientId := "client-id"; ClientSecret := "client-secret";
                Username := "username"; Password := "password" |} in
  LookupEnv envWithoutUserId EnvVarKeyPassword = Some "password"
  /\ exists cfgI, run.2 = [Ev (NewImdbClient cfgI) None; Ev (NewTraktClient cfg) None].
Proof.
  intros run cfg.
  destruct (NewSyncer_builds_the_clients_from_set_variables remoteRespond
              envWithoutUserId exampleRemote run.1.2 run.1.1 run.2)
    as (_ & _ & _ & Htrakt & _).
  { unfold run. by destruct (exec remoteRespond _ exampleRemote) as [[? ?] ?]. }
  destruct (Htrakt cfg None) as (_ & _ & _ & Hpassword & Htr).
  - vm_compute. repeat (first [apply list_elem_of_here | apply list_elem_of_further]).
  - split; [exact Hpassword|exact Htr].
Defined.

(** X6: of the two ratings removed, only "tt5" is in the history: it alone
    is removed from it. *)
Lemma history_remove_takes_items_in_history_witness :
  let run := exec remoteRespond (syncRatingsRemove exampleToRemove) exampleRemote in
  exists histories,
    run.2 = Ev (TraktRatingsRemove exampleToRemove) None
            :: historyQueries exampleToRemove histories
            ++ [Ev (TraktHistoryRemove [mirrorMovie "tt5" 6]) None].
Proof.
  intros run.
  destruct (history_remove_takes_items_in_history remoteRespond exampleToRemove
              exampleRemote run.1.2 run.1.1 run.2) as (_ & _ & Hremove & _).
  { unfold run. by destruct (exec remoteRespond _ exampleRemote) as [[? ?] ?]. }
  destruct (Hremove (Ev (TraktHistoryRemove [mirrorMovie "tt5" 6]) None)
                    [mirrorMovie "tt5" 6])
    as (_ & histories & _ & _ & Htr & _).
  - vm_compute. repeat (first [apply list_elem_of_here | apply list_elem_of_further]).
  - reflexivity.
  - exists histories. exact Htr.
Defined.

(** X7: the hydration against [exampleRemote]: the calls for the three
    pairings of [exampleHydrated], each with the answer that is its mirror
    side. *)
Lemma hydrate_returns_what_the_services_answered_witness :
  exists tr1 watchlistId imdbList fetches,
    Forall2 hydrationCalls (lists exampleHydrated) fetches
    /\ (exec remoteRespond (hydrate exampleFormat exampleSeed) exampleRemote).2
       = tr1
         ++ Ev ImdbWatchlistGet (Some watchlistId, imdbList, None)
         :: concat fetches
         ++ [Ev ImdbRatingsGet (imdb_ratings exampleRemote, None);
             Ev TraktRatingsGet (trakt_ratings exampleRemote, None)].
Proof.
  set (run := exec remoteRespond (hydrate exampleFormat exampleSeed) exampleRemote).
  destruct (hydrate_returns_what_the_services_answered exampleFormat remoteRespond
              exampleSeed exampleHydrated exampleRemote run.1.2 run.2)
    as (sourced & w1 & tr1 & wid & il & fetches & _ & _ & Hfetches & Htr & _).
  { by vm_compute. }
  exists tr1, wid, il, fetches. split; [exact Hfetches|exact Htr].
Defined.

(** X8: the mirror has no list "a": its fetch answers 404, and the list is
    created right after the warning. *)
Lemma mirror_list_is_created_only_after_not_found_witness :
  let run := exec remoteRespond (hydrate exampleFormat exampleSeed) exampleRemote in
  exists pre post items e code,
    run.2 = pre
            ++ Ev (TraktListItemsGet "a") (items, Some e)
            :: Ev (LoggerWarn
                     "silencing not found error while hydrating the syncer with trakt lists"
                     (ApiError code)) tt
            :: Ev (TraktListAdd "a" "a") None :: post
    /\ isNotFound e = true.
Proof.
  intros run.
  destruct (mirror_list_is_created_only_after_not_found exampleFormat
              remoteRespond exampleSeed exampleRemote run.1.2 run.1.1 run.2
              (Ev (TraktListAdd "a" "a") None) "a" "a")
    as (pre & post & items & e & code & Htr & Hnf & _).
  - unfold run. by destruct (exec remoteRespond _ exampleRemote) as [[? ?] ?].
  - vm_compute. repeat (first [apply list_elem_of_here | apply list_elem_of_further]).
  - reflexivity.
  - exists pre, post, items, e, code. split; [exact Htr|exact Hnf].
Defined.

(** X9: "A, A,B" has two commas and seeds three pairings; "A," seeds a last
    pairing with the empty identifier. *)
Lemma seedLists_one_pairing_per_piece_witness :
  length (seedLists "A, A,B") = 3%nat
  /\ DataPair.ImdbListId <$> last (seedLists "A,") = Some "".
Proof.
  split.
  - by destruct (seedLists_one_pairing_per_piece "A, A,B") as [Hlen _].
  - destruct (seedLists_one_pairing_per_piece "A,") as (_ & _ & _ & Hlast);
      [done|done|].
    by apply (Hlast "A").
Defined.

(** X10: the source has the list "A" and no list "Z": the pairing of "A"
    is kept, and "Z" is left out after a not-found answer. *)
Lemma cleanupLists_keeps_the_lists_that_exist_witness :
  let run := exec remoteRespond
               (cleanupLists exampleFormat [seedPair "A"; seedPair "Z"])
               exampleRemote in
  run.1.1 = Returned [examplePairA]
  /\ exists name items e,
       Ev (ImdbListItemsGet "Z") (name, items, Some e) ∈ run.2
       /\ isNotFound e = true.
Proof.
  intros run. split; [by vm_compute|].
  destruct (cleanupLists_keeps_the_lists_that_exist exampleFormat remoteRespond
              [seedPair "A"; seedPair "Z"] [examplePairA] exampleRemote
              run.1.2 run.2)
    as (_ & _ & _ & Hdropped).
  { by vm_compute. }
  apply (Hdropped "Z").
  - vm_compute. repeat (first [apply list_elem_of_here | apply list_elem_of_further]).
  - vm_compute. intros [Heq|Hin%elem_of_nil]%elem_of_cons; [|done].
    discriminate Heq.
Defined.

(** X12: no call of the run against [exampleRemote] carries an empty
    batch. *)
Lemma Run_never_sends_an_empty_batch_witness :
  let run := exec remoteRespond (Run exampleTimeString exampleFormat exampleSeed)
               exampleRemote in
  Forall (fun ev => nonEmptyBatch (ev_call ev) = true) run.2.
Proof.
  intros run.
  destruct (Run_never_sends_an_empty_batch exampleTimeString exampleFormat
              remoteRespond exampleSeed exampleRemote run.1.2 run.1.1 run.2)
    as [Hall _].
  { unfold run. by destruct (exec remoteRespond _ exampleRemote) as [[? ?] ?]. }
  exact Hall.
Defined.

(** X13: the list sync of [exampleHydrated] against [exampleRemote]: the
    diffs of the three pairings, the fetch of the mirror lists, the removal
    of the orphan "old". *)
Lemma syncLists_applies_every_diff_in_order_witness :
  let run := exec remoteRespond (syncLists exampleTimeString exampleHydrated)
               exampleRemote in
  exists traktLists,
    run.2 = (lists exampleHydrated ≫= appliedDiff exampleTimeString)
            ++ Ev TraktListsGet (traktLists, None)
            :: (listRemoved <$> orphans (lists exampleHydrated) traktLists).
Proof.
  intros run.
  destruct (syncLists_applies_every_diff_in_order exampleTimeString remoteRespond
              exampleHydrated exampleRemote run.1.2 run.2)
    as (traktLists & Htr & _).
  { by vm_compute. }
  exists traktLists. exact Htr.
Defined.
